(** * A shallow embedding of [build_sc2map.py]: the catalog XML merge,
    the INI merge and the per-file router, with their specification.

    File contents are Rocq [string]s holding the bytes of the file.  A
    Python [str] is its list of code points ([ustr], a [list N]): the
    INI files are decoded with ["utf-8-sig"] and [errors="ignore"] and
    their text is handled as code points.  The strings of an lxml element
    (tag, attribute names and values, text) are Python [str]s that lxml
    always gives as valid Unicode; they are held UTF-8 encoded, and on
    valid UTF-8 the byte order of Rocq's [String.compare] is Python's
    code-point order.  Python dicts are association lists that keep
    insertion order. *)

From Stdlib Require Import Ascii String ZArith Lia.
From stdpp Require Import base list strings sorting sets.

Open Scope string_scope.
Set Warnings "-register-all".

(* ================================================================== *)
(** ** Bytes and code points *)

(** A Python [str]: its code points. *)
Abbreviation ustr := (list N).

(** The bytes of a file content. *)
Definition bytes_of (s : string) : list N := map N_of_ascii (list_ascii_of_string s).

Definition string_of_bytes (l : list N) : string := string_of_list_ascii (map ascii_of_N l).

(** The code point of an ASCII character, and an ASCII literal as a [str]. *)
Definition ch (a : ascii) : N := N_of_ascii a.

Definition u (s : string) : ustr := bytes_of s.

(** A continuation byte [0x80]..[0xBF]. *)
Definition utf8_cont (b : N) : bool := (128 <=? b)%N && (b <=? 191)%N.

(** The second byte of a multi-byte sequence that starts with [b0]:
    [0xE0] needs [0xA0]..[0xBF], [0xED] needs [0x80]..[0x9F], [0xF0]
    needs [0x90]..[0xBF], [0xF4] needs [0x80]..[0x8F]. *)
Definition utf8_second_ok (b0 b1 : N) : bool :=
  if (b0 =? 224)%N then (160 <=? b1)%N && (b1 <=? 191)%N
  else if (b0 =? 237)%N then (128 <=? b1)%N && (b1 <=? 159)%N
  else if (b0 =? 240)%N then (144 <=? b1)%N && (b1 <=? 191)%N
  else if (b0 =? 244)%N then (128 <=? b1)%N && (b1 <=? 143)%N
  else utf8_cont b1.

(** [bytes.decode("utf-8", errors="ignore")], as CPython's decoder does
    it: a lead byte with the longest valid prefix of its sequence is
    dropped on an invalid byte, decoding resuming at that byte; a
    sequence cut off by the end of the input is dropped; a byte that
    cannot start a sequence ([0x80]..[0xC1], [0xF5]..[0xFF]) is
    dropped. *)
Fixpoint utf8_decode (bs : list N) : ustr :=
  match bs with
  | [] => []
  | b0 :: r0 =>
    if (b0 <? 128)%N then b0 :: utf8_decode r0
    else if (194 <=? b0)%N && (b0 <=? 223)%N then
      match r0 with
      | b1 :: r1 => if utf8_cont b1 then ((b0 - 192) * 64 + (b1 - 128))%N :: utf8_decode r1
                    else utf8_decode r0
      | [] => []
      end
    else if (224 <=? b0)%N && (b0 <=? 239)%N then
      match r0 with
      | b1 :: r1 =>
        if utf8_second_ok b0 b1 then
          match r1 with
          | b2 :: r2 => if utf8_cont b2
                        then ((b0 - 224) * 4096 + (b1 - 128) * 64 + (b2 - 128))%N :: utf8_decode r2
                        else utf8_decode r1
          | [] => []
          end
        else utf8_decode r0
      | [] => []
      end
    else if (240 <=? b0)%N && (b0 <=? 244)%N then
      match r0 with
      | b1 :: r1 =>
        if utf8_second_ok b0 b1 then
          match r1 with
          | b2 :: r2 =>
            if utf8_cont b2 then
              match r2 with
              | b3 :: r3 => if utf8_cont b3
                            then ((b0 - 240) * 262144 + (b1 - 128) * 4096 + (b2 - 128) * 64 + (b3 - 128))%N
                                   :: utf8_decode r3
                            else utf8_decode r2
              | [] => []
              end
            else utf8_decode r1
          | [] => []
          end
        else utf8_decode r0
      | [] => []
      end
    else utf8_decode r0
  end.

(** Decoding with ["utf-8-sig"] first drops a leading byte-order mark. *)
Definition decode_utf8_sig (s : string) : ustr :=
  let bs := bytes_of s in
  if bool_decide (take 3 bs = [239; 187; 191]%N) then utf8_decode (drop 3 bs) else utf8_decode bs.

(** The UTF-8 encoding of one code point.  Every [str] the program
    writes comes from decoded text, so its code points are Unicode
    scalar values, which the encoder accepts. *)
Definition utf8_encode_cp (c : N) : list N :=
  if (c <? 128)%N then [c]
  else if (c <? 2048)%N then [192 + c / 64; 128 + c mod 64]%N
  else if (c <? 65536)%N then [224 + c / 4096; 128 + (c / 64) mod 64; 128 + c mod 64]%N
  else [240 + c / 262144; 128 + (c / 4096) mod 64; 128 + (c / 64) mod 64; 128 + c mod 64]%N.

(** [s.encode("utf-8")] *)
Definition utf8_encode (s : ustr) : string := string_of_bytes (concat (map utf8_encode_cp s)).

(** A Unicode scalar value: below [0x110000] and not a surrogate. *)
Definition scalar_value (c : N) : bool :=
  (c <? 1114112)%N && negb ((55296 <=? c)%N && (c <=? 57343)%N).

(* ================================================================== *)
(** ** Python helpers on [str] *)

(** The code points for which [str.isspace] holds. *)
Definition py_isspace (c : N) : bool :=
  (((9 <=? c) && (c <=? 13)) || ((28 <=? c) && (c <=? 32)) || (c =? 133) || (c =? 160) ||
  (c =? 5760) || ((8192 <=? c) && (c <=? 8202)) || (c =? 8232) || (c =? 8233) ||
  (c =? 8239) || (c =? 8287) || (c =? 12288))%N.

Fixpoint lstrip_l (cs : ustr) : ustr :=
  match cs with
  | c :: r => if py_isspace c then lstrip_l r else cs
  | [] => []
  end.

(** [s.strip()] *)
Definition py_strip (s : ustr) : ustr := rev (lstrip_l (rev (lstrip_l s))).

(** [s.startswith(c)] and [s.endswith(c)] for a one-character [c]. *)
Definition starts_with (c : N) (s : ustr) : bool :=
  match s with x :: _ => (x =? c)%N | [] => false end.

Definition ends_with (c : N) (s : ustr) : bool := starts_with c (rev s).

(** [s[1:-1]] *)
Definition strip_brackets (s : ustr) : ustr := take (length s - 2) (drop 1 s).

(** [s.split("=", 1)] when ["="] occurs in [s]: the part before the
    first ["="] and the part after it; [None] when there is no ["="]. *)
Fixpoint split_eq (s : ustr) : option (ustr * ustr) :=
  match s with
  | [] => None
  | c :: r =>
      if (c =? ch "=")%N then Some ([], r)
      else match split_eq r with
           | Some (k, v) => Some (c :: k, v)
           | None => None
           end
  end.

(** The line boundaries of [str.splitlines]; ["\r\n"] is one boundary. *)
Definition is_line_break (c : N) : bool :=
  (((10 <=? c) && (c <=? 13)) || ((28 <=? c) && (c <=? 30)) || (c =? 133) || (c =? 8232) || (c =? 8233))%N.

Fixpoint splitlines_go (cs : ustr) (cur : ustr) : list ustr :=
  match cs with
  | [] => match cur with [] => [] | _ => [rev cur] end
  | c :: r =>
      if is_line_break c then
        let r' := if (c =? 13)%N
                  then match r with
                       | c' :: r'' => if (c' =? 10)%N then r'' else r
                       | [] => r
                       end
                  else r in
        rev cur :: splitlines_go r' []
      else splitlines_go r (c :: cur)
  end.

(** [s.splitlines()] *)
Definition splitlines (s : ustr) : list ustr := splitlines_go s [].

(** Python's comparison of two [str]s: code point by code point. *)
Fixpoint ustr_cmp (a b : ustr) : comparison :=
  match a, b with
  | [], [] => Eq
  | [], _ :: _ => Lt
  | _ :: _, [] => Gt
  | x :: a', y :: b' => match N.compare x y with Eq => ustr_cmp a' b' | o => o end
  end.

Definition ustr_ltb (a b : ustr) : bool := match ustr_cmp a b with Lt => true | _ => false end.

(** Python's [<] on a pair of [str]s [(k, v)]. *)
Definition upair_ltb (p1 p2 : ustr * ustr) : bool :=
  match ustr_cmp p1.1 p2.1 with
  | Lt => true
  | Gt => false
  | Eq => ustr_ltb p1.2 p2.2
  end.

(** Python's [<] on the UTF-8 encoded strings of an lxml element. *)
Definition str_ltb (s1 s2 : string) : bool :=
  match String.compare s1 s2 with Lt => true | _ => false end.

Definition pair_ltb (p1 p2 : string * string) : bool :=
  match String.compare p1.1 p2.1 with
  | Lt => true
  | Gt => false
  | Eq => str_ltb p1.2 p2.2
  end.
(* ================================================================== *)
(** ** [sorted] for values that always compare *)

Section Sorting.
Context {A : Type} (ltb : A -> A -> bool).

Fixpoint insert_sorted (x : A) (l : list A) : list A :=
  match l with
  | [] => [x]
  | y :: r => if ltb x y then x :: y :: r else y :: insert_sorted x r
  end.

(** [sorted(l)], as an insertion sort driven by [<] alone. *)
Fixpoint py_sorted (l : list A) : list A :=
  match l with
  | [] => []
  | x :: r => insert_sorted x (py_sorted r)
  end.
End Sorting.


Definition sorted_items (l : list (string * string)) := py_sorted pair_ltb l.
Definition sorted_uitems (l : list (ustr * ustr)) := py_sorted upair_ltb l.
Definition sorted_ustrs (l : list ustr) := py_sorted ustr_ltb l.

(* ================================================================== *)
(** ** Python dicts *)

Section Dict.
Context {K V : Type} `{EqDecision K}.

(** [d.get(k)] *)
Fixpoint dict_get (k : K) (d : list (K * V)) : option V :=
  match d with
  | [] => None
  | (k', v) :: r => if decide (k = k') then Some v else dict_get k r
  end.

(** [d[k] = v]: replaces the value in place, or appends a new entry. *)
Fixpoint dict_set (k : K) (v : V) (d : list (K * V)) : list (K * V) :=
  match d with
  | [] => [(k, v)]
  | (k', v') :: r => if decide (k = k') then (k', v) :: r else (k', v') :: dict_set k v r
  end.

(** [d.setdefault(k, v)] (the dict part of it). *)
Definition dict_setdefault (k : K) (v : V) (d : list (K * V)) : list (K * V) :=
  match dict_get k d with Some _ => d | None => (d ++ [(k, v)])%list end.
End Dict.

(* ================================================================== *)
(** ** XML elements *)

(** An lxml element: tag, attributes in document order (unique names),
    text, children.  Tails and comments play no part in the merge. *)
Inductive node : Type :=
  | Node (tag : string) (attrib : list (string * string))
         (text : option string) (children : list node).

Definition tag (n : node) : string := let 'Node t _ _ _ := n in t.
Definition attrib (n : node) : list (string * string) := let 'Node _ a _ _ := n in a.
Definition text (n : node) : option string := let 'Node _ _ x _ := n in x.
Definition children (n : node) : list node := let 'Node _ _ _ c := n in c.

(** The tuples returned by [xml_identity_key]:
    [("id", tag, v)], [("index", tag, v)], [("value", tag, v)],
    [("attrs", tag, items)] and [("unique", t)], where [t] is [None] for
    the key computed by [xml_identity_key] and the child's tag for the key
    registered on line 130. *)
Inductive ident : Type :=
  | KId (t v : string)
  | KIndex (t v : string)
  | KValue (t v : string)
  | KAttrs (t : string) (items : list (string * string))
  | KUnique (t : option string).

#[global] Instance ident_eq_dec : EqDecision ident.
Proof. solve_decision. Defined.

Definition xml_identity_key (n : node) : ident :=
  let a := attrib n in
  match dict_get "id" a with
  | Some v => KId (tag n) v
  | None =>
    match dict_get "index" a with
    | Some v => KIndex (tag n) v
    | None =>
      match dict_get "value" a with
      | Some v => KValue (tag n) v
      | None =>
        match a with
        | [] => KUnique None
        | _ => KAttrs (tag n) (sorted_items a)
        end
      end
    end
  end.

(** [key[0] == "unique"] *)
Definition is_unique (k : ident) : bool :=
  match k with KUnique _ => true | _ => false end.

(* ------------------------------------------------------------------ *)
(** *** Structural signatures *)

(** [(tag, attrib_tuple, text, children_counter_tuple)] *)
Inductive signature : Type :=
  | Signature (tag : string) (attrs : list (string * string))
        (text : option string) (items : list (signature * nat)).

Fixpoint sig_eqb (s1 s2 : signature) : bool :=
  match s1, s2 with
  | Signature t1 a1 x1 c1, Signature t2 a2 x2 c2 =>
      bool_decide (t1 = t2) && bool_decide (a1 = a2) && bool_decide (x1 = x2) &&
      (fix go (l1 l2 : list (signature * nat)) : bool :=
         match l1, l2 with
         | [], [] => true
         | (u1, n1) :: r1, (u2, n2) :: r2 => sig_eqb u1 u2 && Nat.eqb n1 n2 && go r1 r2
         | _, _ => false
         end) c1 c2
  end.

(** Python's comparison of two signatures, as the tuple order does it:
    the first components that differ ([==]) are compared with [<].
    [None] is the [TypeError] raised when that comparison meets [None]
    against a [str] (a text that is absent against one that is present);
    otherwise [Some Eq] exactly when the signatures are equal. *)
Definition text_cmp (x1 x2 : option string) : option comparison :=
  match x1, x2 with
  | None, None => Some Eq
  | Some s1, Some s2 => Some (String.compare s1 s2)
  | _, _ => None
  end.

Fixpoint pairs_cmp (l1 l2 : list (string * string)) : comparison :=
  match l1, l2 with
  | [], [] => Eq
  | [], _ => Lt
  | _, [] => Gt
  | (k1, v1) :: r1, (k2, v2) :: r2 =>
      match String.compare k1 k2 with
      | Eq => match String.compare v1 v2 with Eq => pairs_cmp r1 r2 | o => o end
      | o => o
      end
  end.

Fixpoint sig_cmp (s1 s2 : signature) : option comparison :=
  match s1, s2 with
  | Signature t1 a1 x1 c1, Signature t2 a2 x2 c2 =>
      match String.compare t1 t2 with
      | Eq =>
        match pairs_cmp a1 a2 with
        | Eq =>
          match text_cmp x1 x2 with
          | Some Eq =>
            (fix go (l1 l2 : list (signature * nat)) : option comparison :=
               match l1, l2 with
               | [], [] => Some Eq
               | [], _ => Some Lt
               | _, [] => Some Gt
               | (u1, n1) :: r1, (u2, n2) :: r2 =>
                   match sig_cmp u1 u2 with
                   | Some Eq => match Nat.compare n1 n2 with Eq => go r1 r2 | o => Some o end
                   | o => o
                   end
               end) c1 c2
          | o => o
          end
        | o => Some o
        end
      | o => Some o
      end
  end.

(** [<] on the [(signature, count)] items of a [Counter]. *)
Definition item_lt (p1 p2 : signature * nat) : option bool :=
  match sig_cmp p1.1 p2.1 with
  | Some Eq => Some (Nat.ltb p1.2 p2.2)
  | Some Lt => Some true
  | Some Gt => Some false
  | None => None
  end.

Fixpoint insert_items (x : signature * nat) (l : list (signature * nat)) : option (list (signature * nat)) :=
  match l with
  | [] => Some [x]
  | y :: r =>
      match item_lt x y with
      | None => None
      | Some true => Some (x :: y :: r)
      | Some false =>
          match insert_items x r with Some r' => Some (y :: r') | None => None end
      end
  end.

(** [sorted(children_counter.items())]: an insertion sort by [<] that
    raises ([None]) when a comparison it makes raises.  On two items it
    makes the single comparison CPython makes. *)
Fixpoint sort_items (l : list (signature * nat)) : option (list (signature * nat)) :=
  match l with
  | [] => Some []
  | x :: r => match sort_items r with Some r' => insert_items x r' | None => None end
  end.

(** [Counter(child_sigs)]: counts in order of first occurrence. *)
Fixpoint counter_add (s : signature) (c : list (signature * nat)) : list (signature * nat) :=
  match c with
  | [] => [(s, 1%nat)]
  | (s', n) :: r => if sig_eqb s s' then (s', S n) :: r else (s', n) :: counter_add s r
  end.

Definition counter (l : list signature) : list (signature * nat) :=
  fold_left (fun c s => counter_add s c) l [].

(** [node.text.strip() if node.text and node.text.strip() else None] *)
Definition norm_text (x : option string) : option string :=
  match x with
  | Some s => match py_strip (utf8_decode (bytes_of s)) with
              | [] => None
              | t => Some (utf8_encode t)
              end
  | None => None
  end.

(** [element_signature]; [None] is the [TypeError] of [sorted]. *)
Fixpoint element_signature (n : node) : option signature :=
  match n with
  | Node t a x cs =>
      match (fix sigs (l : list node) : option (list signature) :=
               match l with
               | [] => Some []
               | c :: r =>
                   match element_signature c with
                   | None => None
                   | Some s => match sigs r with Some ss => Some (s :: ss) | None => None end
                   end
               end) cs with
      | None => None
      | Some child_sigs =>
          match sort_items (counter child_sigs) with
          | None => None
          | Some items => Some (Signature t (sorted_items a) (norm_text x) items)
          end
      end
  end.

(* ------------------------------------------------------------------ *)
(** *** [merge_xml_children_nodes] *)

(** [key_map]: identity key to the list of children registered under it.
    A child is referred to by its position in [target]'s child list, so
    that merging into [targets[0]] updates the child of [target] itself,
    as the in-place mutation of lxml does. *)
Definition keymap := list (ident * list nat).

(** [key_map.setdefault(key, []).append(i)] *)
Definition km_add (k : ident) (i : nat) (km : keymap) : keymap :=
  match dict_get k km with
  | Some l => dict_set k (l ++ [i])%list km
  | None => (km ++ [(k, [i])])%list
  end.

(** Lines 99-102. *)
Definition build_key_map (kids : list node) : keymap :=
  fst (fold_left (fun '(km, i) c => (km_add (xml_identity_key c) i km, S i)) kids ([], 0%nat)).

(** Lines 116-120: [k[0] == "unique" and k[1] == child.tag]. *)
Definition unique_pool (t : string) (km : keymap) : list nat :=
  concat (map snd (List.filter (fun e => match e.1 with
                                    | KUnique (Some t') => bool_decide (t' = t)
                                    | _ => false
                                    end) km)).

(** Lines 122-126; [None] is a [TypeError] raised by [element_signature]. *)
Fixpoint found_equivalent (kids : list node) (existing : list nat) (s : signature) : option bool :=
  match existing with
  | [] => Some false
  | i :: r =>
      match kids !! i with
      | None => found_equivalent kids r s
      | Some e =>
          match element_signature e with
          | None => None
          | Some se => if sig_eqb se s then Some true else found_equivalent kids r s
          end
      end
  end.

(** Lines 96-97: [target.attrib[k] = v] for every attribute of [source]. *)
Definition set_attrs (ta sa : list (string * string)) : list (string * string) :=
  fold_left (fun acc '(k, v) => dict_set k v acc) sa ta.

(** The loop over [source]'s children (lines 104-130), for a given
    recursive merge [merge]: the current children of [target] and
    [key_map]; [None] is an exception raised in the loop. *)
Definition merge_children_go (merge : node -> node -> option node) :
    list node -> list node -> keymap -> option (list node) :=
  fix go (cs : list node) (kids : list node) (km : keymap) : option (list node) :=
    match cs with
    | [] => Some kids
    | child :: rest =>
        let key := xml_identity_key child in
        if negb (is_unique key) then
          match dict_get key km with
          | Some (i :: _) =>
              match kids !! i with
              | Some tgt =>
                  match merge tgt child with
                  | Some m => go rest (<[i := m]> kids) km
                  | None => None
                  end
              | None => go rest kids km
              end
          | _ => go rest (kids ++ [child])%list (km_add key (length kids) km)
          end
        else
          match element_signature child with
          | None => None
          | Some child_sig =>
              match found_equivalent kids (unique_pool (tag child) km) child_sig with
              | None => None
              | Some true => go rest kids km
              | Some false =>
                  go rest (kids ++ [child])%list
                     (km_add (KUnique (Some (tag child))) (length kids) km)
              end
          end
    end.

(** [merge_xml_children_nodes(target, source)]: returns the mutated
    [target]; [None] is an exception ([TypeError] from a signature). *)
Fixpoint merge_xml_children_nodes (target source : node) {struct source} : option node :=
  match source with
  | Node _ sa _ sk =>
    match target with
    | Node ttag ta tx tk =>
      match merge_children_go merge_xml_children_nodes sk tk (build_key_map tk) with
      | Some kids' => Some (Node ttag (set_attrs ta sa) tx kids')
      | None => None
      end
    end
  end.

(* ------------------------------------------------------------------ *)
(** *** Lines 41-55 of [merge_catalog_xml], on the two parsed roots *)

(** [cid = child.attrib.get("id"); if cid: by_id[cid] = child] *)
Definition build_by_id (kids : list node) : list (string * nat) :=
  fst (fold_left (fun '(m, i) c =>
                    match dict_get "id" (attrib c) with
                    | Some cid => if String.eqb cid EmptyString then (m, S i) else (dict_set cid i m, S i)
                    | None => (m, S i)
                    end) kids ([], 0%nat)).

(** [cid in by_id] for [cid = child_b.attrib.get("id")], with the
    position of [by_id[cid]] in the merged children. *)
Definition root_lookup (by_id : list (string * nat)) (child_b : node) : option nat :=
  cid ← dict_get "id" (attrib child_b); dict_get cid by_id.

(** Lines 49-54: the loop over [root_b]'s children. *)
Fixpoint catalog_go (by_id : list (string * nat)) (cs : list node) (kids : list node) : option (list node) :=
  match cs with
  | [] => Some kids
  | child_b :: rest =>
      match root_lookup by_id child_b with
      | Some i =>
          match kids !! i with
          | Some tgt =>
              match merge_xml_children_nodes tgt child_b with
              | Some m => catalog_go by_id rest (<[i := m]> kids)
              | None => None
              end
          | None => catalog_go by_id rest kids
          end
      | None => catalog_go by_id rest (kids ++ [child_b])%list
      end
  end.

(** Lines 41-55: [merged] starts with [root_a]'s tag and attributes and
    its children. *)
Definition merge_catalog_nodes (root_a root_b : node) : option node :=
  match catalog_go (build_by_id (children root_a)) (children root_b) (children root_a) with
  | Some kids => Some (Node (tag root_a) (attrib root_a) None kids)
  | None => None
  end.

(** The chain [merge(merge(Base, Patch), Overlay)] of [merge_file_triple]
    on parsed documents, when every file parses and a written document
    reads back as the tree that was written. *)
Definition merge_xml_chain (base patch extra : node) : option node :=
  match merge_catalog_nodes base patch with
  | Some m => merge_catalog_nodes m extra
  | None => None
  end.


(* ================================================================== *)
(** ** INI files: [merge_ini_files] *)

Abbreviation section := (list (ustr * ustr)).
Abbreviation table := (list (ustr * section)).

Definition nl : ustr := [10%N].

Definition ini_root : ustr := u "__root__".

(** One iteration of the loop of [read_ini] (lines 144-156); the state is
    [(current, data)]. *)
Definition read_ini_line (st : ustr * table) (raw : ustr) : ustr * table :=
  let '(current, data) := st in
  let line := py_strip raw in
  if bool_decide (line = []) || starts_with (ch "#") line || starts_with (ch ";") line then st
  else if starts_with (ch "[") line && ends_with (ch "]") line then
    let cur := py_strip (strip_brackets line) in
    (cur, dict_setdefault cur [] data)
  else
    match split_eq line with
    | Some (k, v) =>
        let d := dict_setdefault current [] data in
        let sec := default [] (dict_get current d) in
        (current, dict_set current (dict_set (py_strip k) (py_strip v) sec) d)
    | None => st
    end.

(** [read_ini] on the content of an existing file: [read_text] decodes it
    with ["utf-8-sig"], ignoring undecodable bytes.  [read_text] also
    turns ["\r\n"] and ["\r"] into ["\n"], which changes nothing that
    [splitlines] returns. *)
Definition read_ini_text (content : string) : table :=
  snd (fold_left read_ini_line (splitlines (decode_utf8_sig content))
                 (ini_root, [(ini_root, [])])).

(** The directory trees: the base map, the game patch, the extra fixes
    and the output folder. *)
Inductive tree : Type := MapDir | PatchDir | ExtraDir | OutDir.

#[global] Instance tree_eq_dec : EqDecision tree.
Proof. solve_decision. Defined.

(** A path: the directory tree it lives in and its path relative to the
    tree's root, its parts separated by ["/"]. *)
Definition path : Type := (tree * string)%type.

(** What the code prints: the banner of [merge_all], the invalid-XML
    warning of [safe_parse] and the conflict warning of [merge_dicts]. *)
Inductive diag : Type :=
  | MergeBanner
  | InvalidXml (p : path)
  | IniConflict (sec key : ustr) (tier : string) (value : ustr).

(** One iteration of the loop over [kv.items()] in [merge_dicts]
    (lines 167-170), for a section [s] already in [low]. *)
Definition merge_section_step (s : ustr) (name : string) (st : section * list diag)
    (e : ustr * ustr) : section * list diag :=
  let '(sec, d) := st in
  let '(k, v) := e in
  let d' := match dict_get k sec with
            | Some v0 => if bool_decide (v0 = v) then d else (d ++ [IniConflict s k name v])%list
            | None => d
            end in
  (dict_set k v sec, d').

Definition merge_section (s : ustr) (name : string) (lkv kv : section) : section * list diag :=
  fold_left (merge_section_step s name) kv (lkv, []).

(** One iteration of the loop over [high.items()] (lines 162-170). *)
Definition merge_dicts_step (name : string) (st : table * list diag)
    (e : ustr * section) : table * list diag :=
  let '(lo, d) := st in
  let '(s, kv) := e in
  match dict_get s lo with
  | None => (dict_set s kv lo, d)
  | Some lkv =>
      let '(sec', d') := merge_section s name lkv kv in
      (dict_set s sec' lo, (d ++ d')%list)
  end.

(** [merge_dicts(low, high, name)]: the mutated [low] and the printed
    conflicts, in order. *)
Definition merge_dicts (low high : table) (name : string) : table * list diag :=
  fold_left (merge_dicts_step name) high (low, []).

(** Lines 180-182. *)
Definition ini_merge_tables (base_ini patch_ini extra_ini : table) : table * list diag :=
  let '(m1, d1) := merge_dicts base_ini patch_ini "patch" in
  let '(m2, d2) := merge_dicts m1 extra_ini "extra" in
  (m2, (d1 ++ d2)%list).

(** [f.write(f"{k} = {v}\n")] for each item. *)
Definition kv_lines (items : list (ustr * ustr)) : ustr :=
  concat (map (fun '(k, v) => k ++ u " = " ++ v ++ nl)%list items).

(** Lines 186-195: the text written to [out_file]. *)
Definition serialize_ini (merged : table) : ustr :=
  (match dict_get ini_root merged with
   | Some ((_ :: _) as r) => kv_lines (sorted_uitems r) ++ nl
   | _ => []
   end)%list ++
  concat
    (map (fun s => u "[" ++ s ++ u "]" ++ nl ++
                   kv_lines (sorted_uitems (default [] (dict_get s merged))) ++ nl)%list
         (sorted_ustrs (List.filter (fun s => negb (bool_decide (s = ini_root))) (map fst merged)))).

(* ================================================================== *)
(** ** Paths *)

(** [Path(rel).suffix] *)
Fixpoint upto_slash (cs : list ascii) : list ascii :=
  match cs with
  | [] => []
  | c :: r => if Ascii.eqb c "/" then [] else c :: upto_slash r
  end.

Definition path_name (rel : string) : string :=
  string_of_list_ascii (rev (upto_slash (rev (list_ascii_of_string rel)))).

Fixpoint rfind_dot_go (cs : list ascii) (i : nat) (acc : option nat) : option nat :=
  match cs with
  | [] => acc
  | c :: r => rfind_dot_go r (S i) (if Ascii.eqb c "." then Some i else acc)
  end.

Definition py_suffix (rel : string) : string :=
  let name := path_name rel in
  match rfind_dot_go (list_ascii_of_string name) 0 None with
  | Some i => if (0 <? i)%nat && (i <? String.length name - 1)%nat
              then substring i (String.length name - i) name else ""
  | None => ""
  end.

(** Python's [a or b] on strings. *)
Definition str_or (a b : string) : string := if String.eqb a "" then b else a.

(** [str(rel).split("/")]: the parts of a relative path, which
    [PurePath] compares. *)
Fixpoint split_slash_go (cs : list ascii) (cur : list ascii) : list string :=
  match cs with
  | [] => [string_of_list_ascii (rev cur)]
  | c :: r =>
      if Ascii.eqb c "/" then string_of_list_ascii (rev cur) :: split_slash_go r []
      else split_slash_go r (c :: cur)
  end.

Definition path_parts (rel : string) : list string :=
  split_slash_go (list_ascii_of_string rel) [].

(** [<] on lists of strings, as Python compares lists. *)
Fixpoint parts_ltb (l1 l2 : list string) : bool :=
  match l1, l2 with
  | [], [] => false
  | [], _ :: _ => true
  | _ :: _, [] => false
  | a :: r1, b :: r2 => if String.eqb a b then parts_ltb r1 r2 else str_ltb a b
  end.

(** [<] on relative [Path]s: by their parts. *)
Definition path_ltb (a b : string) : bool := parts_ltb (path_parts a) (path_parts b).

(** The ancestors of a relative path below its tree's root, shortest
    first: ["a"; "a/b"] for ["a/b/c"]; the last one is the parent. *)
Fixpoint ancestors_go (cs : list ascii) (acc : list ascii) : list string :=
  match cs with
  | [] => []
  | c :: r =>
      if Ascii.eqb c "/" then string_of_list_ascii (rev acc) :: ancestors_go r (c :: acc)
      else ancestors_go r (c :: acc)
  end.

Definition ancestors (rel : string) : list string := ancestors_go (list_ascii_of_string rel) [].

(* ================================================================== *)
(** ** The file system and [merge_file_triple] *)

(** What stands at a path: a file with its content, or a directory. *)
Inductive entry : Type := File (c : string) | Dir.

(** The file system.  The four trees are distinct folders, none inside
    another, and the root of each is a directory: [main] creates the
    output folder before [merge_all], and an input folder that does not
    exist has nothing in it. *)
Definition fsys : Type := path -> option entry.

Definition fs_write (fs : fsys) (p : path) (e : entry) : fsys :=
  fun q => if decide (q = p) then Some e else fs q.

(** [p.exists()] *)
Definition exists_ (fs : fsys) (p : path) : bool :=
  match fs p with Some _ => true | None => false end.

(** [os.path.isdir(p)] *)
Definition is_dir (fs : fsys) (p : path) : bool :=
  match fs p with Some Dir => true | _ => false end.

(** The exceptions that can end a run: those of the file system, the
    [TypeError] raised by [element_signature] ([XmlTypeError]) and the
    [OSError] lxml raises on a path it cannot read or write
    ([LxmlIOError]). *)
Inductive exn : Type :=
  | SameFileError | FileNotFoundError | FileExistsError | NotADirectoryError
  | IsADirectoryError | XmlTypeError | LxmlIOError.

(** Result of a file operation: the new file system and what was
    printed, or the exception raised and what was printed before it. *)
Inductive outcome : Type :=
  | Done (fs : fsys) (out : list diag)
  | Raised (e : exn) (out : list diag).

Definition then_ (o : outcome) (k : fsys -> outcome) : outcome :=
  match o with
  | Done fs d =>
      match k fs with
      | Done fs' d' => Done fs' (d ++ d')%list
      | Raised e d' => Raised e (d ++ d')%list
      end
  | Raised e d => Raised e d
  end.

(** [Path.mkdir(parents=True, exist_ok=True)] on the directory whose
    ancestors below the tree's root, itself last, are [ds]: a missing
    one is created; a file in place of the directory raises
    [FileExistsError], a file in place of one of its ancestors
    [NotADirectoryError]. *)
Fixpoint mkdirs (t : tree) (ds : list string) (fs : fsys) : outcome :=
  match ds with
  | [] => Done fs []
  | d :: r =>
      match fs (t, d) with
      | Some Dir => mkdirs t r fs
      | Some (File _) => Raised (match r with [] => FileExistsError | _ => NotADirectoryError end) []
      | None => mkdirs t r (fs_write fs (t, d) Dir)
      end
  end.

(** [p.parent.mkdir(parents=True, exist_ok=True)] *)
Definition mkdir_parent (p : path) (fs : fsys) : outcome := mkdirs p.1 (ancestors p.2) fs.

(** The error of a system call on a path whose ancestors are [ds]:
    none when they are all directories, else the first that is not
    decides: [FileNotFoundError] when it is missing, [NotADirectoryError]
    when it is a file. *)
Fixpoint walk_error (t : tree) (ds : list string) (fs : fsys) : option exn :=
  match ds with
  | [] => None
  | d :: r =>
      match fs (t, d) with
      | Some Dir => walk_error t r fs
      | Some (File _) => Some NotADirectoryError
      | None => Some FileNotFoundError
      end
  end.

Definition parent_error (p : path) (fs : fsys) : option exn := walk_error p.1 (ancestors p.2) fs.

(** [open(p, "rb")] and reading the file. *)
Definition open_read (p : path) (fs : fsys) : exn + string :=
  match fs p with
  | Some (File c) => inr c
  | Some Dir => inl IsADirectoryError
  | None => inl (default FileNotFoundError (parent_error p fs))
  end.

(** [open(p, "w")] (or ["wb"]), writing [c] and closing. *)
Definition open_write (p : path) (c : string) (fs : fsys) : outcome :=
  match fs p with
  | Some Dir => Raised IsADirectoryError []
  | Some (File _) => Done (fs_write fs p (File c)) []
  | None =>
      match parent_error p fs with
      | Some e => Raised e []
      | None => Done (fs_write fs p (File c)) []
      end
  end.

(** [shutil.copy(src, dst)]: into [dst/basename(src)] when [dst] is a
    directory; [SameFileError] when both name one existing file; then
    [open(src, "rb")] and [open(dst, "wb")], with their errors. *)
Definition shutil_copy (src dst : path) (fs : fsys) : outcome :=
  let dst := if is_dir fs dst then (dst.1, dst.2 ++ "/" ++ path_name src.2) else dst in
  if exists_ fs src && exists_ fs dst && bool_decide (src = dst) then Raised SameFileError []
  else match open_read src fs with
       | inl e => Raised e []
       | inr c => open_write dst c fs
       end.

(** [read_ini(path)]: [{}] for a path that does not exist; [read_text]
    raises on a directory. *)
Definition read_ini (fs : fsys) (p : path) : exn + table :=
  if exists_ fs p then
    match open_read p fs with
    | inl e => inl e
    | inr c => inr (read_ini_text c)
    end
  else inr [].

(** [merge_ini_files(base, patch, extra, out_file)] *)
Definition merge_ini_files (base patch extra out : path) (fs : fsys) : outcome :=
  if negb (exists_ fs patch) && negb (exists_ fs extra) then shutil_copy base out fs
  else
    match read_ini fs base, read_ini fs patch, read_ini fs extra with
    | inr base_ini, inr patch_ini, inr extra_ini =>
        let '(merged, d) := ini_merge_tables base_ini patch_ini extra_ini in
        then_ (Done fs d) (fun fs1 =>
        then_ (mkdir_parent out fs1) (fun fs2 =>
        open_write out (utf8_encode (serialize_ini merged)) fs2))
    | inl e, _, _ | inr _, inl e, _ | inr _, inr _, inl e => Raised e []
    end.

Section Files.
(** lxml's parser (with [remove_blank_text=True]) on the content of a
    file: [None] where lxml raises [XMLSyntaxError]. *)
Variable parse_xml : string -> option node.
(** What [ET.parse] does on a directory, which lxml leaves to libxml2:
    [true] when it raises [XMLSyntaxError], which [safe_parse] catches,
    [false] when it raises an [OSError], which propagates. *)
Variable dir_syntax_error : bool.
(** The text lxml writes for a tree. *)
Variable write_xml : node -> string.

(** [safe_parse(file)] with its warning; [inl] is the exception that
    escapes it. *)
Definition safe_parse (fs : fsys) (p : path) : exn + (option node * list diag) :=
  match fs p with
  | None => inr (None, [])
  | Some (File c) =>
      match parse_xml c with
      | Some r => inr (Some r, [])
      | None => inr (None, [InvalidXml p])
      end
  | Some Dir => if dir_syntax_error then inr (None, [InvalidXml p]) else inl LxmlIOError
  end.

(** [ET.ElementTree(merged).write(str(out_file), ...)]: lxml raises an
    [OSError] where the file cannot be opened for writing. *)
Definition lxml_write (p : path) (c : string) (fs : fsys) : outcome :=
  match open_write p c fs with
  | Raised _ d => Raised LxmlIOError d
  | o => o
  end.

(** [merge_catalog_xml(file_a, file_b, out_file)] *)
Definition merge_catalog_xml (file_a file_b out_file : path) (fs : fsys) : outcome :=
  match safe_parse fs file_a with
  | inl e => Raised e []
  | inr (root_a, d1) =>
    match safe_parse fs file_b with
    | inl e => Raised e d1
    | inr (root_b, d2) =>
      let d := (d1 ++ d2)%list in
      match root_a, root_b with
      | None, Some _ =>
          then_ (Done fs d) (fun fs1 =>
          then_ (mkdir_parent out_file fs1) (shutil_copy file_b out_file))
      | Some _, None =>
          then_ (Done fs d) (fun fs1 =>
          then_ (mkdir_parent out_file fs1) (shutil_copy file_a out_file))
      | None, None => Done fs d
      | Some ra, Some rb =>
          match merge_catalog_nodes ra rb with
          | Some merged =>
              then_ (Done fs d) (fun fs1 =>
              then_ (mkdir_parent out_file fs1) (lxml_write out_file (write_xml merged)))
          | None => Raised XmlTypeError d
          end
      end
    end
  end.

(** [merge_file_triple(base, patch, extra, dest)] for the relative path
    [rel] of the three tiers and of the output tree. *)
Definition merge_file_triple (rel : string) (fs : fsys) : outcome :=
  let base := (MapDir, rel) in
  let patch := (PatchDir, rel) in
  let extra := (ExtraDir, rel) in
  let dest := (OutDir, rel) in
  let suffix := str_or (py_suffix (snd base)) (str_or (py_suffix (snd patch)) (py_suffix (snd extra))) in
  if negb (exists_ fs base || exists_ fs patch || exists_ fs extra) then Done fs []
  else
    then_ (mkdir_parent dest fs) (fun fs0 =>
    if String.eqb suffix ".xml" then
      then_ (if exists_ fs0 base then shutil_copy base dest fs0 else Done fs0 []) (fun fs1 =>
      then_ (if exists_ fs1 patch then merge_catalog_xml dest patch dest fs1 else Done fs1 []) (fun fs2 =>
      if exists_ fs2 extra then merge_catalog_xml dest extra dest fs2 else Done fs2 []))
    else if String.eqb suffix ".txt" || String.eqb suffix ".ini" then
      merge_ini_files base patch extra dest fs0
    else
      let src := if exists_ fs0 extra then extra else if exists_ fs0 patch then patch else base in
      shutil_copy src dest fs0).

(** [merge_all(map_dir, patch_dir, extra_dir, out_dir)]: [listing t] is
    the relative path of every file [rglob] finds in tree [t] (none when
    the folder does not exist); the banner is printed first, and the
    loop stops at the first exception. *)
Definition merge_all (listing : tree -> list string) (fs : fsys) : outcome :=
  let all_files := remove_dups (listing MapDir ++ listing PatchDir ++ listing ExtraDir)%list in
  fold_left (fun o rel => then_ o (merge_file_triple rel)) (py_sorted path_ltb all_files)
            (Done fs [MergeBanner]).
End Files.

(* ================================================================== *)
(** * Specification-side definitions *)

(** [t[s][k]] when both exist. *)
Definition get2 (t : table) (s k : ustr) : option ustr :=
  match dict_get s t with Some kv => dict_get k kv | None => None end.

(** Keys and section names are unique, as in Python dicts. *)
Definition wf_table (t : table) : Prop := NoDup t.*1 /\ Forall (fun e => NoDup e.2.*1) t.

(** The conflict printed for one incoming [(k, v)] against [lo]. *)
Definition conflict_of (s : ustr) (name : string) (lo : section) (kv : ustr * ustr) : list diag :=
  match dict_get kv.1 lo with
  | Some v0 => if bool_decide (v0 = kv.2) then [] else [IniConflict s kv.1 name kv.2]
  | None => []
  end.

Definition section_conflicts (s : ustr) (name : string) (lo kv : section) : list diag :=
  kv ≫= conflict_of s name lo.

Definition table_conflicts (name : string) (low high : table) : list diag :=
  high ≫= (fun e => match dict_get e.1 low with
                   | Some lkv => section_conflicts e.1 name lkv e.2
                   | None => []
                   end).

(** The printed conflicts that concern key [k] of section [s]. *)
Definition diag_at (s k : ustr) (d : diag) : bool :=
  match d with
  | IniConflict s' k' _ _ => bool_decide (s = s') && bool_decide (k = k')
  | _ => false
  end.

(** The [(section, key, value)] assignments of an INI text, in the order
    of its lines: a [key = value] line assigns to the section of the last
    header above it, or to the root pseudo-section. *)
Fixpoint ini_assign_go (cur : ustr) (ls : list ustr) : list (ustr * ustr * ustr) :=
  match ls with
  | [] => []
  | raw :: r =>
      let line := py_strip raw in
      if bool_decide (line = []) || starts_with (ch "#") line || starts_with (ch ";") line
      then ini_assign_go cur r
      else if starts_with (ch "[") line && ends_with (ch "]") line then
        ini_assign_go (py_strip (strip_brackets line)) r
      else match split_eq line with
           | Some (k, v) => (cur, py_strip k, py_strip v) :: ini_assign_go cur r
           | None => ini_assign_go cur r
           end
  end.

Definition ini_assignments (content : string) : list (ustr * ustr * ustr) :=
  ini_assign_go ini_root (splitlines (decode_utf8_sig content)).

(** The value of the last assignment to key [k] of section [s]. *)
Fixpoint last_assignment (s k : ustr) (l : list (ustr * ustr * ustr)) : option ustr :=
  match l with
  | [] => None
  | (s', k', v) :: r =>
      match last_assignment s k r with
      | Some w => Some w
      | None => if bool_decide (s = s') && bool_decide (k = k') then Some v else None
      end
  end.

(** The table [read_ini] gives for a path that is not a directory: the
    file's table, or [{}] when nothing is there. *)
Definition read_table (fs : fsys) (p : path) : table :=
  match fs p with Some (File c) => read_ini_text c | _ => [] end.

(** No directory stands at relative path [rel] in any tree. *)
Definition no_dir_at (fs : fsys) (rel : string) : Prop := forall t, fs (t, rel) <> Some Dir.

(** No file stands in the output tree where a parent folder of [rel]
    must be. *)
Definition out_parents_free (fs : fsys) (rel : string) : Prop :=
  forall d c, d ∈ ancestors rel -> fs (OutDir, d) <> Some (File c).

(** The invalid-XML warning [safe_parse] prints for an existing file
    that does not parse. *)
Definition invalid_warning (fs : fsys) (p : path) : list diag :=
  if exists_ fs p then [InvalidXml p] else [].

(** [cid if cid else None] for [cid = child.attrib.get("id")]: the id under
    which [merge_catalog_xml] indexes a root child (lines 45-47). *)
Definition root_id (c : node) : option string :=
  match dict_get "id" (attrib c) with
  | Some cid => if String.eqb cid "" then None else Some cid
  | None => None
  end.

Definition root_ids (kids : list node) : list string := omap root_id kids.

(** What [element_signature] and the identity key see of a node itself. *)
Definition tag_attrib (n : node) : string * list (string * string) := (tag n, attrib n).

(** Index [j] is registered under key [k] in [key_map]. *)
Definition km_mem (k : ident) (j : nat) (km : keymap) : Prop := exists l, (k, l) ∈ km /\ j ∈ l.



(** A document with a root child matched by id and one without an id. *)
Definition self_merge_doc : node :=
  Node "Catalog" [("v", "1")] None
    [Node "CUnit" [("id", "Marine")] None [Node "LifeMax" [("value", "45")] None []];
     Node "CUnit" [("index", "1")] None []].

Definition self_merge_result : node :=
  Node "Catalog" [("v", "1")] None
    [Node "CUnit" [("id", "Marine")] None [Node "LifeMax" [("value", "45")] None []];
     Node "CUnit" [("index", "1")] None [];
     Node "CUnit" [("index", "1")] None [];
     Node "CUnit" [("index", "1")] None []].

(** The subtree [<effect><amount>5</amount></effect>]. *)
Definition effect_amount_5 : node := Node "effect" [] None [Node "amount" [] (Some "5") []].

(** Attribute names are unique, as lxml guarantees. *)
Definition attrs_ok (c : node) : Prop := NoDup (attrib c).*1.

(** The invariant of the loop over [source]'s children for identified
    keys: every such key registered in [key_map] points to a child with
    that key. *)
Definition keys_inv (kids : list node) (km : keymap) : Prop :=
  (forall k j, is_unique k = false -> km_mem k j km -> exists x, kids !! j = Some x /\ xml_identity_key x = k) /\
  Forall attrs_ok kids.

(** Every path of [ds] in tree [t] is a directory. *)
Definition dirs_at (t : tree) (ds : list string) (fs : fsys) : Prop :=
  forall d, d ∈ ds -> fs (t, d) = Some Dir.

(** A file system with one file, holding [c], at [p]. *)
Definition single_file_fs (p : path) (c : string) : fsys :=
  fun q => if decide (q = p) then Some (File c) else None.

(** ["\n"] *)
Definition lf : string := String (ascii_of_nat 10) EmptyString.

(** An outcome that, when it completes, has changed nothing outside the
    output tree. *)
Definition keeps_sources (fs : fsys) (o : outcome) : Prop :=
  match o with
  | Done f _ => forall q, q.1 <> OutDir -> f q = fs q
  | Raised _ _ => True
  end.

(** The file the copy route takes: Overlay's, else Patch's, else Base's. *)
Definition copy_source (fs : fsys) (rel : string) : option string :=
  match fs (ExtraDir, rel), fs (PatchDir, rel), fs (MapDir, rel) with
  | Some (File c), _, _ => Some c
  | None, Some (File c), _ => Some c
  | None, None, Some (File c) => Some c
  | _, _, _ => None
  end.

(* ------------------------------------------------------------------ *)
(** ** Lines written by [merge_ini_files] *)

(** The line [f"{k} = {v}"] written for an item (lines 188 and 194). *)
Definition ini_kv_line (kv : ustr * ustr) : ustr :=
  let '(k, v) := kv in (k ++ u " = " ++ v)%list.

(** The first code point, if any, is not white space. *)
Definition no_space_edge (cs : ustr) : bool :=
  match cs with c :: _ => negb (py_isspace c) | [] => true end.

(** A [str] of Unicode scalar values that [strip] leaves alone and that
    holds no line boundary. *)
Definition ini_clean_value (v : ustr) : bool :=
  forallb (fun c => negb (is_line_break c) && scalar_value c) v &&
  no_space_edge v && no_space_edge (rev v).

(** A key whose line reads back as an assignment: non-empty, no ["="], and
    not starting like a comment, a section header or a byte-order mark
    ([U+FEFF]). *)
Definition ini_clean_key (k : ustr) : bool :=
  ini_clean_value k &&
  forallb (fun c => negb (c =? ch "=")%N) k &&
  match k with
  | c :: _ => negb (existsb (N.eqb c) [ch "#"; ch ";"; ch "["; 65279%N])
  | [] => false
  end.

(** Every section name, key and value of the table is clean. *)
Definition ini_clean_table (t : table) : bool :=
  forallb (fun '(s, kv) =>
    ini_clean_value s && forallb (fun '(k, v) => ini_clean_key k && ini_clean_value v) kv) t.

(** The code points of lines each ended by ["\n"]. *)
Definition join_lines (ls : list ustr) : ustr :=
  concat (map (fun l => (l ++ nl)%list) ls).

(** The section names [serialize_ini] writes headers for, in order. *)
Definition ser_sections (t : table) : list ustr :=
  sorted_ustrs (List.filter (fun s => negb (bool_decide (s = ini_root))) (map fst t)).

(** The lines [serialize_ini] writes, without their line ends. *)
Definition ini_ser_lines (t : table) : list ustr :=
  ((match default [] (dict_get ini_root t) with
    | [] => []
    | r => map ini_kv_line (sorted_uitems r) ++ [[]]
    end) ++
   concat (map (fun s => (u "[" ++ s ++ u "]") ::
                         (map ini_kv_line (sorted_uitems (default [] (dict_get s t))) ++ [[]]))
               (ser_sections t)))%list.

(** A written line: scalar values, no line boundary, and no byte-order
    mark first. *)
Definition line_ok (l : ustr) : Prop :=
  Forall (fun c => is_line_break c = false /\ scalar_value c = true) l /\ head l <> Some 65279%N.

(** An item whose line reads back as the same assignment. *)
Definition kv_clean (kv : ustr * ustr) : Prop :=
  ini_clean_key kv.1 = true /\ ini_clean_value kv.2 = true.

(* ================================================================== *)
(** * Properties *)

(* ------------------------------------------------------------------ *)
(** ** [sorted] of a strict total order depends only on the multiset *)

Section SortingFacts.
Context {A : Type} (ltb : A -> A -> bool).
Hypothesis ltb_asym : forall x y, ltb x y = true -> ltb y x = false.
Hypothesis ltb_trans : forall x y z, ltb x y = true -> ltb y z = true -> ltb x z = true.
Hypothesis ltb_total : forall x y, ltb x y = false -> ltb y x = false -> x = y.

Let le (x y : A) : Prop := ltb y x = false.

Local Instance le_trans : Transitive le.
Proof.
  intros x y z Hxy Hyz. unfold le in *.
  destruct (ltb z x) eqn:Hzx; [|done].
  destruct (ltb x y) eqn:Hxy'.
  - by rewrite (ltb_trans z x y Hzx Hxy') in Hyz.
  - rewrite (ltb_total x y Hxy' Hxy) in Hzx. by rewrite Hzx in Hyz.
Qed.

Local Instance le_antisymm : AntiSymm (=) le.
Proof. intros x y Hxy Hyx. by apply ltb_total. Qed.

Lemma insert_sorted_perm x l : insert_sorted ltb x l ≡ₚ x :: l.
Proof.
  induction l as [|y l IH]; simpl; [done|].
  destruct (ltb x y); [done|]. rewrite IH. by constructor.
Qed.

Lemma py_sorted_perm l : py_sorted ltb l ≡ₚ l.
Proof.
  induction l as [|x l IH]; simpl; [done|].
  by rewrite insert_sorted_perm, IH.
Qed.

Lemma insert_sorted_Sorted x l : Sorted le l -> Sorted le (insert_sorted ltb x l).
Proof.
  induction 1 as [|y l Hl IH Hhd]; simpl; [by repeat constructor|].
  destruct (ltb x y) eqn:Hxy.
  - constructor; [by constructor|]. constructor. unfold le. by apply ltb_asym.
  - constructor; [done|].
    destruct l as [|z l]; simpl; [by constructor|].
    inversion Hhd; subst. simpl in IH.
    destruct (ltb x z); by constructor.
Qed.

Lemma py_sorted_Sorted l : Sorted le (py_sorted ltb l).
Proof. induction l; simpl; [constructor|]. by apply insert_sorted_Sorted. Qed.

Lemma py_sorted_perm_eq l1 l2 : l1 ≡ₚ l2 -> py_sorted ltb l1 = py_sorted ltb l2.
Proof.
  intros Hp. apply (Sorted_unique le); [apply py_sorted_Sorted..|].
  by rewrite !py_sorted_perm.
Qed.

Lemma py_sorted_StronglySorted_lt l :
  NoDup l -> StronglySorted (fun x y => ltb x y = true) (py_sorted ltb l).
Proof.
  intros Hnd.
  assert (Hs : StronglySorted le (py_sorted ltb l)).
  { apply Sorted_StronglySorted; [apply _|apply py_sorted_Sorted]. }
  assert (Hnd' : NoDup (py_sorted ltb l)) by (by rewrite py_sorted_perm).
  revert Hnd'. induction Hs as [|x l' Hs IH Hall]; intros Hnd'; constructor.
  - apply IH. by inversion Hnd'.
  - inversion Hnd' as [|? ? Hx Hnd'']; subst.
    apply Forall_forall. intros y Hy. rewrite Forall_forall in Hall.
    specialize (Hall y Hy). unfold le in Hall.
    destruct (ltb x y) eqn:E; [done|].
    exfalso. apply Hx. by rewrite (ltb_total x y E Hall).
Qed.
End SortingFacts.

(** Order facts for [String.compare]. *)
Lemma str_compare_refl s : String.compare s s = Eq.
Proof.
  pose proof (String.compare_antisym s s) as H.
  destruct (String.compare s s); simpl in H; congruence.
Qed.

Lemma str_compare_Lt_Gt a b : String.compare a b = Lt -> String.compare b a = Gt.
Proof. intros H. rewrite String.compare_antisym, H. done. Qed.

Lemma str_compare_Gt_Lt a b : String.compare a b = Gt -> String.compare b a = Lt.
Proof. intros H. rewrite String.compare_antisym, H. done. Qed.

Lemma str_compare_lt_trans a b c :
  String.compare a b = Lt -> String.compare b c = Lt -> String.compare a c = Lt.
Proof.
  intros Hab Hbc.
  assert (Lab : String.le a b) by (unfold String.le, String.leb; by rewrite Hab).
  assert (Lbc : String.le b c) by (unfold String.le, String.leb; by rewrite Hbc).
  assert (Lac : String.le a c) by (etrans; eauto).
  unfold String.le, String.leb in Lac.
  destruct (String.compare a c) eqn:E; [|done|done].
  apply String.compare_eq_iff in E. subst c.
  apply str_compare_Lt_Gt in Hab. congruence.
Qed.

Lemma str_ltb_asym x y : str_ltb x y = true -> str_ltb y x = false.
Proof.
  unfold str_ltb. destruct (String.compare x y) eqn:E; try done.
  by rewrite (str_compare_Lt_Gt _ _ E).
Qed.

Lemma str_ltb_trans x y z : str_ltb x y = true -> str_ltb y z = true -> str_ltb x z = true.
Proof.
  unfold str_ltb.
  destruct (String.compare x y) eqn:E1; try done.
  destruct (String.compare y z) eqn:E2; try done.
  by rewrite (str_compare_lt_trans _ _ _ E1 E2).
Qed.

Lemma str_ltb_total x y : str_ltb x y = false -> str_ltb y x = false -> x = y.
Proof.
  unfold str_ltb. destruct (String.compare x y) eqn:E; try done.
  - intros _ _. by apply String.compare_eq_iff.
  - by rewrite (str_compare_Gt_Lt _ _ E).
Qed.

Lemma pair_ltb_asym x y : pair_ltb x y = true -> pair_ltb y x = false.
Proof.
  destruct x as [k1 v1], y as [k2 v2]; unfold pair_ltb; simpl.
  destruct (String.compare k1 k2) eqn:E; try done.
  - apply String.compare_eq_iff in E; subst. rewrite str_compare_refl.
    apply str_ltb_asym.
  - by rewrite (str_compare_Lt_Gt _ _ E).
Qed.

Lemma pair_ltb_trans x y z : pair_ltb x y = true -> pair_ltb y z = true -> pair_ltb x z = true.
Proof.
  destruct x as [k1 v1], y as [k2 v2], z as [k3 v3]; unfold pair_ltb; simpl.
  destruct (String.compare k1 k2) eqn:E1; try done;
  destruct (String.compare k2 k3) eqn:E2; try done.
  - apply String.compare_eq_iff in E1, E2; subst. rewrite str_compare_refl.
    apply str_ltb_trans.
  - apply String.compare_eq_iff in E1; subst. by rewrite E2.
  - apply String.compare_eq_iff in E2; subst. by rewrite E1.
  - by rewrite (str_compare_lt_trans _ _ _ E1 E2).
Qed.

Lemma pair_ltb_total x y : pair_ltb x y = false -> pair_ltb y x = false -> x = y.
Proof.
  destruct x as [k1 v1], y as [k2 v2]; unfold pair_ltb; simpl.
  destruct (String.compare k1 k2) eqn:E.
  - apply String.compare_eq_iff in E; subst. rewrite str_compare_refl.
    intros H1 H2. by rewrite (str_ltb_total _ _ H1 H2).
  - done.
  - by rewrite (str_compare_Gt_Lt _ _ E).
Qed.


(** Order facts for Python's comparison of [str]s. *)
Lemma ustr_cmp_eq a b : ustr_cmp a b = Eq <-> a = b.
Proof.
  revert b. induction a as [|x a IH]; intros [|y b]; simpl; try (split; congruence).
  destruct (N.compare x y) eqn:E.
  - apply N.compare_eq_iff in E. subst. rewrite IH. split; [by intros ->|by intros [=]].
  - split; [done|]. intros [= -> ->]. by rewrite N.compare_refl in E.
  - split; [done|]. intros [= -> ->]. by rewrite N.compare_refl in E.
Qed.

Lemma ustr_cmp_antisym a b : ustr_cmp b a = CompOpp (ustr_cmp a b).
Proof.
  revert b. induction a as [|x a IH]; intros [|y b]; simpl; try done.
  rewrite (N.compare_antisym x y). destruct (N.compare x y); simpl; done.
Qed.

Lemma ustr_cmp_lt_trans a b c :
  ustr_cmp a b = Lt -> ustr_cmp b c = Lt -> ustr_cmp a c = Lt.
Proof.
  revert b c. induction a as [|x a IH]; intros [|y b] [|z c]; simpl; try done.
  destruct (N.compare x y) eqn:E1, (N.compare y z) eqn:E2; try done.
  - apply N.compare_eq_iff in E1, E2. subst. rewrite N.compare_refl. apply IH.
  - apply N.compare_eq_iff in E1. subst. by rewrite E2.
  - apply N.compare_eq_iff in E2. subst. by rewrite E1.
  - intros _ _. change (x < y)%N in E1. change (y < z)%N in E2.
    by rewrite (proj2 (N.compare_lt_iff x z)) by lia.
Qed.

Lemma ustr_ltb_asym x y : ustr_ltb x y = true -> ustr_ltb y x = false.
Proof.
  unfold ustr_ltb. rewrite (ustr_cmp_antisym x y). by destruct (ustr_cmp x y).
Qed.

Lemma ustr_ltb_trans x y z : ustr_ltb x y = true -> ustr_ltb y z = true -> ustr_ltb x z = true.
Proof.
  unfold ustr_ltb.
  destruct (ustr_cmp x y) eqn:E1; try done.
  destruct (ustr_cmp y z) eqn:E2; try done.
  by rewrite (ustr_cmp_lt_trans _ _ _ E1 E2).
Qed.

Lemma ustr_ltb_total x y : ustr_ltb x y = false -> ustr_ltb y x = false -> x = y.
Proof.
  unfold ustr_ltb. rewrite (ustr_cmp_antisym x y).
  destruct (ustr_cmp x y) eqn:E; try done. intros _ _. by apply ustr_cmp_eq.
Qed.

Lemma upair_ltb_asym x y : upair_ltb x y = true -> upair_ltb y x = false.
Proof.
  destruct x as [k1 v1], y as [k2 v2]; unfold upair_ltb; simpl.
  rewrite (ustr_cmp_antisym k1 k2).
  destruct (ustr_cmp k1 k2) eqn:E; try done.
  apply ustr_cmp_eq in E; subst. apply ustr_ltb_asym.
Qed.

Lemma upair_ltb_trans x y z : upair_ltb x y = true -> upair_ltb y z = true -> upair_ltb x z = true.
Proof.
  destruct x as [k1 v1], y as [k2 v2], z as [k3 v3]; unfold upair_ltb; simpl.
  destruct (ustr_cmp k1 k2) eqn:E1; try done;
  destruct (ustr_cmp k2 k3) eqn:E2; try done.
  - apply ustr_cmp_eq in E1, E2; subst. rewrite (proj2 (ustr_cmp_eq k3 k3) eq_refl).
    apply ustr_ltb_trans.
  - apply ustr_cmp_eq in E1; subst. by rewrite E2.
  - apply ustr_cmp_eq in E2; subst. by rewrite E1.
  - by rewrite (ustr_cmp_lt_trans _ _ _ E1 E2).
Qed.

Lemma upair_ltb_total x y : upair_ltb x y = false -> upair_ltb y x = false -> x = y.
Proof.
  destruct x as [k1 v1], y as [k2 v2]; unfold upair_ltb; simpl.
  rewrite (ustr_cmp_antisym k1 k2).
  destruct (ustr_cmp k1 k2) eqn:E; try done.
  apply ustr_cmp_eq in E; subst. intros H1 H2. by rewrite (ustr_ltb_total _ _ H1 H2).
Qed.

Lemma sorted_items_perm l1 l2 : l1 ≡ₚ l2 -> sorted_items l1 = sorted_items l2.
Proof.
  apply py_sorted_perm_eq; [exact pair_ltb_asym|exact pair_ltb_trans|exact pair_ltb_total].
Qed.

Lemma sorted_uitems_perm l1 l2 : l1 ≡ₚ l2 -> sorted_uitems l1 = sorted_uitems l2.
Proof.
  apply py_sorted_perm_eq; [exact upair_ltb_asym|exact upair_ltb_trans|exact upair_ltb_total].
Qed.

Lemma sorted_ustrs_perm l1 l2 : l1 ≡ₚ l2 -> sorted_ustrs l1 = sorted_ustrs l2.
Proof.
  apply py_sorted_perm_eq; [exact ustr_ltb_asym|exact ustr_ltb_trans|exact ustr_ltb_total].
Qed.

(* ------------------------------------------------------------------ *)
(** ** Dict lookups *)

Section DictFacts.
Context {K V : Type} `{EqDecision K}.
Implicit Types (d : list (K * V)) (k : K) (v : V).

Lemma dict_get_Some_elem k v d : dict_get k d = Some v -> (k, v) ∈ d.
Proof.
  induction d as [|[k' v'] d IH]; simpl; [done|].
  destruct (decide (k = k')); [intros [=]; subst; by left|]. intros; right; auto.
Qed.

Lemma dict_get_None_iff k d : dict_get k d = None <-> k ∉ d.*1.
Proof.
  induction d as [|[k' v'] d IH]; simpl; [set_solver|].
  rewrite elem_of_cons.
  destruct (decide (k = k')); subst; [naive_solver|].
  rewrite IH. naive_solver.
Qed.

Lemma elem_dict_get k v d : NoDup d.*1 -> (k, v) ∈ d -> dict_get k d = Some v.
Proof.
  induction d as [|[k' v'] d IH]; simpl; [set_solver|].
  intros Hnd Hin. inversion Hnd as [|? ? Hk Hnd']; subst.
  apply elem_of_cons in Hin as [[=]|Hin]; subst.
  - by rewrite decide_True.
  - rewrite decide_False; [by apply IH|].
    intros Heq. subst k'. apply Hk. apply (list_elem_of_fmap_2 fst _ (k, v)). done.
Qed.

Lemma dict_get_perm k d1 d2 : NoDup d1.*1 -> d1 ≡ₚ d2 -> dict_get k d1 = dict_get k d2.
Proof.
  intros Hnd Hp.
  assert (Hnd2 : NoDup d2.*1) by (by rewrite <-Hp).
  destruct (dict_get k d1) as [v|] eqn:E1.
  - symmetry. apply elem_dict_get; [done|]. rewrite <-Hp. by apply dict_get_Some_elem.
  - symmetry. apply dict_get_None_iff. rewrite <-Hp. by apply dict_get_None_iff.
Qed.

Lemma dict_get_set k k' v d :
  dict_get k (dict_set k' v d) = if decide (k = k') then Some v else dict_get k d.
Proof.
  induction d as [|[k0 v0] d IH]; simpl; [done|].
  destruct (decide (k' = k0)) as [->|Hne]; simpl.
  - by destruct (decide (k = k0)).
  - rewrite IH. destruct (decide (k = k0)), (decide (k = k')); subst; done.
Qed.

Lemma dict_set_keys k v d :
  (dict_set k v d).*1 = if decide (k ∈ d.*1) then d.*1 else (d.*1 ++ [k])%list.
Proof.
  induction d as [|[k0 v0] d IH]; [done|].
  cbn [dict_set]. destruct (decide (k = k0)) as [->|Hne].
  - rewrite decide_True; [done|]. rewrite fmap_cons. apply elem_of_cons. by left.
  - rewrite !fmap_cons, IH. simpl.
    destruct (decide (k ∈ d.*1)).
    + rewrite decide_True; [done|]. apply elem_of_cons. by right.
    + rewrite decide_False; [done|]. rewrite elem_of_cons. naive_solver.
Qed.

Lemma dict_set_NoDup k v d : NoDup d.*1 -> NoDup (dict_set k v d).*1.
Proof.
  intros Hnd. rewrite dict_set_keys. case_decide; [done|].
  apply NoDup_app; split_and!; [done| |apply NoDup_singleton]. set_solver.
Qed.

Lemma dict_setdefault_NoDup k v d : NoDup d.*1 -> NoDup (dict_setdefault k v d).*1.
Proof.
  unfold dict_setdefault. destruct (dict_get k d) eqn:E; [done|].
  apply dict_get_None_iff in E. intros Hnd. rewrite fmap_app. simpl.
  apply NoDup_app; split_and!; [done| |apply NoDup_singleton]. set_solver.
Qed.

Lemma dict_get_snoc k k' v d :
  dict_get k (d ++ [(k', v)])%list =
    match dict_get k d with Some w => Some w | None => if decide (k = k') then Some v else None end.
Proof.
  induction d as [|[k0 v0] d IH]; [done|].
  cbn [dict_get app]. destruct (decide (k = k0)); done.
Qed.

Lemma dict_get_setdefault k k' v d :
  dict_get k (dict_setdefault k' v d) =
    match dict_get k d with Some w => Some w | None => if decide (k = k') then Some v else None end.
Proof.
  unfold dict_setdefault. destruct (dict_get k' d) eqn:E.
  - destruct (dict_get k d) eqn:E2; [done|].
    destruct (decide (k = k')); [subst; congruence|done].
  - apply dict_get_snoc.
Qed.
End DictFacts.

(* ------------------------------------------------------------------ *)
(** ** Identity keys *)

(** C5 (IdentityKey precedence).  [xml_identity_key] classifies a node by
    an [id] attribute if present, else [index], else [value], else the
    whole sorted attribute list, else the sentinel; the key does not
    depend on the order in which the attributes are declared (nor on the
    text or children). *)
Theorem identity_key_precedence (t : string) (a : list (string * string))
    (x : option string) (cs : list node) :
  (forall v, dict_get "id" a = Some v -> xml_identity_key (Node t a x cs) = KId t v) /\
  (forall v, dict_get "id" a = None -> dict_get "index" a = Some v ->
     xml_identity_key (Node t a x cs) = KIndex t v) /\
  (forall v, dict_get "id" a = None -> dict_get "index" a = None ->
     dict_get "value" a = Some v -> xml_identity_key (Node t a x cs) = KValue t v) /\
  (dict_get "id" a = None -> dict_get "index" a = None -> dict_get "value" a = None ->
     a <> [] -> xml_identity_key (Node t a x cs) = KAttrs t (sorted_items a)) /\
  (a = [] -> xml_identity_key (Node t a x cs) = KUnique None) /\
  (forall a' x' cs', NoDup a.*1 -> a ≡ₚ a' ->
     xml_identity_key (Node t a' x' cs') = xml_identity_key (Node t a x cs)).
Proof.
  unfold xml_identity_key; simpl. split_and!.
  - intros v ->. done.
  - intros v -> ->. done.
  - intros v -> -> ->. done.
  - intros -> -> ->. destruct a; done.
  - intros ->. done.
  - intros a' x' cs' Hnd Hp.
    rewrite <-!(dict_get_perm _ _ _ Hnd Hp).
    destruct (dict_get "id" a), (dict_get "index" a), (dict_get "value" a); try done.
    rewrite (sorted_items_perm a a') by done.
    destruct a as [|p a], a' as [|p' a']; try done.
    + by apply Permutation_nil_cons in Hp.
    + symmetry in Hp. by apply Permutation_nil_cons in Hp.
Qed.

(* ------------------------------------------------------------------ *)
(** ** Section tables *)

(* ------------------------------------------------------------------ *)
(** ** Section tables *)

Lemma section_conflicts_ext s name lo1 lo2 kv :
  (forall k, k ∈ kv.*1 -> dict_get k lo1 = dict_get k lo2) ->
  section_conflicts s name lo1 kv = section_conflicts s name lo2 kv.
Proof.
  unfold section_conflicts. induction kv as [|[k v] kv IH]; intros Hext; [done|].
  rewrite !bind_cons. f_equal.
  - unfold conflict_of; simpl. rewrite Hext; [done|]. apply elem_of_cons; by left.
  - apply IH. intros k' Hk'. apply Hext. apply elem_of_cons; by right.
Qed.

Lemma merge_section_step_eq s name sec d k v :
  merge_section_step s name (sec, d) (k, v) =
    (dict_set k v sec, (d ++ conflict_of s name sec (k, v))%list).
Proof.
  unfold merge_section_step, conflict_of; simpl.
  destruct (dict_get k sec) as [v0|]; [|by rewrite app_nil_r].
  destruct (bool_decide (v0 = v)); [by rewrite app_nil_r|done].
Qed.

Lemma merge_section_fold s name kv :
  NoDup kv.*1 -> forall lkv d0,
  (forall k, dict_get k (fold_left (merge_section_step s name) kv (lkv, d0)).1 =
     match dict_get k kv with Some v => Some v | None => dict_get k lkv end) /\
  (fold_left (merge_section_step s name) kv (lkv, d0)).2 =
    (d0 ++ section_conflicts s name lkv kv)%list.
Proof.
  induction kv as [|[k v] kv IH]; intros Hnd lkv d0; cbn [fold_left].
  - split; [done|]. by rewrite app_nil_r.
  - inversion Hnd as [|? ? Hk Hnd']; subst.
    rewrite merge_section_step_eq.
    destruct (IH Hnd' (dict_set k v lkv) (d0 ++ conflict_of s name lkv (k, v))%list)
      as [Hget Hd].
    split.
    + intros k'. rewrite Hget, dict_get_set.
      destruct (decide (k' = k)); subst.
      * rewrite (proj2 (dict_get_None_iff k kv) Hk). cbn [dict_get].
        by rewrite decide_True.
      * cbn [dict_get]. by rewrite decide_False.
    + etrans; [exact Hd|]. unfold section_conflicts. rewrite bind_cons, app_assoc. f_equal.
      apply section_conflicts_ext.
      intros k' Hk'. rewrite dict_get_set. rewrite decide_False; [done|]. by intros ->.
Qed.

Lemma merge_section_spec s name lkv kv :
  NoDup kv.*1 ->
  (forall k, dict_get k (merge_section s name lkv kv).1 =
             match dict_get k kv with Some v => Some v | None => dict_get k lkv end) /\
  (merge_section s name lkv kv).2 = section_conflicts s name lkv kv.
Proof. intros Hnd. apply (merge_section_fold s name kv Hnd lkv []). Qed.

Lemma table_conflicts_ext name lo1 lo2 high :
  (forall s, s ∈ high.*1 -> dict_get s lo1 = dict_get s lo2) ->
  table_conflicts name lo1 high = table_conflicts name lo2 high.
Proof.
  unfold table_conflicts. induction high as [|[s kv] high IH]; intros Hext; [done|].
  rewrite !bind_cons. f_equal.
  - simpl. rewrite Hext; [done|]. apply elem_of_cons; by left.
  - apply IH. intros s' Hs'. apply Hext. apply elem_of_cons; by right.
Qed.

Lemma merge_dicts_step_eq name lo d s kv :
  merge_dicts_step name (lo, d) (s, kv) =
    match dict_get s lo with
    | None => (dict_set s kv lo, d)
    | Some lkv => (dict_set s (merge_section s name lkv kv).1 lo,
                   (d ++ (merge_section s name lkv kv).2)%list)
    end.
Proof.
  unfold merge_dicts_step. destruct (dict_get s lo) as [lkv|]; [|done].
  by destruct (merge_section s name lkv kv).
Qed.

Lemma merge_dicts_fold name high :
  wf_table high -> forall lo d0,
  (forall s k, get2 (fold_left (merge_dicts_step name) high (lo, d0)).1 s k =
     match get2 high s k with Some v => Some v | None => get2 lo s k end) /\
  (fold_left (merge_dicts_step name) high (lo, d0)).2 =
    (d0 ++ table_conflicts name lo high)%list.
Proof.
  induction high as [|[s kv] high IH]; intros [Hnd Hf] lo d0; cbn [fold_left].
  - split; [done|]. by rewrite app_nil_r.
  - inversion Hnd as [|? ? Hs Hnd']; subst. inversion Hf as [|? ? Hkv Hf']; subst.
    simpl in Hkv.
    rewrite merge_dicts_step_eq.
    assert (Hwf' : wf_table high) by done.
    assert (Hhigh : forall k, get2 high s k = None).
    { intros k. unfold get2. by rewrite (proj2 (dict_get_None_iff s high) Hs). }
    destruct (dict_get s lo) as [lkv|] eqn:Elo.
    + destruct (merge_section_spec s name lkv kv Hkv) as [Hg Hd].
      destruct (IH Hwf' (dict_set s (merge_section s name lkv kv).1 lo)
                  (d0 ++ (merge_section s name lkv kv).2)%list) as [Hget Hdi].
      split.
      * intros s' k. rewrite Hget. unfold get2 at 2 3. cbn [dict_get].
        destruct (decide (s' = s)) as [->|Hne].
        -- rewrite Hhigh. unfold get2. rewrite dict_get_set, decide_True, Hg, Elo by done.
           done.
        -- unfold get2. rewrite dict_get_set, decide_False by done. done.
      * etrans; [exact Hdi|]. rewrite Hd, <-app_assoc. f_equal.
        unfold table_conflicts at 2. rewrite bind_cons. simpl. rewrite Elo. f_equal.
        apply table_conflicts_ext. intros s' Hs'. rewrite dict_get_set, decide_False; [done|].
        by intros ->.
    + destruct (IH Hwf' (dict_set s kv lo) d0) as [Hget Hdi].
      split.
      * intros s' k. rewrite Hget. unfold get2 at 2 3. cbn [dict_get].
        destruct (decide (s' = s)) as [->|Hne].
        -- rewrite Hhigh. unfold get2. rewrite dict_get_set, decide_True, Elo by done.
           by destruct (dict_get k kv).
        -- unfold get2. rewrite dict_get_set, decide_False by done. done.
      * etrans; [exact Hdi|]. f_equal.
        unfold table_conflicts at 2. rewrite bind_cons. simpl. rewrite Elo. simpl.
        apply table_conflicts_ext. intros s' Hs'. rewrite dict_get_set, decide_False; [done|].
        by intros ->.
Qed.

Lemma merge_dicts_spec low high name :
  wf_table high ->
  (forall s k, get2 (merge_dicts low high name).1 s k =
     match get2 high s k with Some v => Some v | None => get2 low s k end) /\
  (merge_dicts low high name).2 = table_conflicts name low high.
Proof. intros Hwf. apply (merge_dicts_fold name high Hwf low []). Qed.

(* ------------------------------------------------------------------ *)
(** ** Which conflicts are printed *)

Lemma filter_bind {A B} (f : B -> bool) (g : A -> list B) (l : list A) :
  List.filter f (l ≫= g) = l ≫= (fun x => List.filter f (g x)).
Proof.
  induction l as [|x l IH]; [done|]. rewrite !bind_cons, List.filter_app. by f_equal.
Qed.

Lemma section_conflicts_at s name lo kv s' k :
  NoDup kv.*1 ->
  List.filter (diag_at s' k) (section_conflicts s name lo kv) =
    if bool_decide (s' = s) then
      match dict_get k kv, dict_get k lo with
      | Some v, Some v' => if bool_decide (v' = v) then [] else [IniConflict s k name v]
      | _, _ => []
      end
    else [].
Proof.
  unfold section_conflicts. rewrite filter_bind.
  induction kv as [|[k0 v0] kv IH]; intros Hnd.
  { simpl. by destruct (bool_decide (s' = s)). }
  inversion Hnd as [|? ? Hk Hnd']; subst. rewrite bind_cons, IH by done.
  unfold conflict_of. cbn [dict_get fst snd].
  destruct (decide (s' = s)) as [->|Hs].
  - rewrite !(bool_decide_eq_true_2 (s = s)) by done.
    destruct (decide (k = k0)) as [->|Hne].
    + rewrite (proj2 (dict_get_None_iff k0 kv) Hk).
      destruct (dict_get k0 lo) as [v'|]; [|done].
      destruct (bool_decide (v' = v0)); [done|]. simpl.
      by rewrite !bool_decide_eq_true_2.
    + destruct (dict_get k0 lo) as [v'|]; [|done].
      destruct (bool_decide (v' = v0)); [done|]. simpl.
      by rewrite bool_decide_eq_true_2, bool_decide_eq_false_2.
  - rewrite !(bool_decide_eq_false_2 (s' = s)) by done.
    destruct (dict_get k0 lo) as [v'|]; [|done].
    destruct (bool_decide (v' = v0)); [done|]. simpl.
    by rewrite bool_decide_eq_false_2.
Qed.

Lemma table_conflicts_at name low high s k :
  wf_table high ->
  List.filter (diag_at s k) (table_conflicts name low high) =
    match get2 high s k, get2 low s k with
    | Some v, Some v' => if bool_decide (v' = v) then [] else [IniConflict s k name v]
    | _, _ => []
    end.
Proof.
  unfold table_conflicts, get2. rewrite filter_bind.
  induction high as [|[s0 kv] high IH]; intros [Hnd Hf]; [done|].
  inversion Hnd as [|? ? Hs Hnd']; subst. inversion Hf as [|? ? Hkv Hf']; subst.
  simpl in Hkv. rewrite bind_cons, IH by (split; done). cbn [dict_get fst snd].
  destruct (decide (s = s0)) as [->|Hne].
  - rewrite (proj2 (dict_get_None_iff s0 high) Hs), app_nil_r.
    destruct (dict_get s0 low) as [lkv|].
    + rewrite section_conflicts_at, bool_decide_eq_true_2 by done. done.
    + by destruct (dict_get k kv).
  - destruct (dict_get s0 low) as [lkv|]; [|done].
    rewrite section_conflicts_at by done.
    by rewrite bool_decide_eq_false_2.
Qed.

Lemma table_conflicts_shape name low high :
  Forall (fun d => exists s k v, d = IniConflict s k name v) (table_conflicts name low high).
Proof.
  unfold table_conflicts. apply Forall_forall. intros d Hd.
  apply list_elem_of_bind in Hd as [[s kv] [Hd _]]. simpl in Hd.
  destruct (dict_get s low) as [lkv|]; [|set_solver].
  unfold section_conflicts in Hd. apply list_elem_of_bind in Hd as [[k v] [Hd _]].
  unfold conflict_of in Hd. simpl in Hd.
  destruct (dict_get k lkv) as [v0|]; [|set_solver].
  destruct (bool_decide (v0 = v)); [set_solver|]. apply list_elem_of_singleton in Hd. eauto.
Qed.

(* ------------------------------------------------------------------ *)
(** ** [read_ini] *)

Lemma Forall_dict_set {K V} `{EqDecision K} (P : V -> Prop) (k : K) v d :
  Forall (fun e => P e.2) d -> P v -> Forall (fun e => P e.2) (dict_set k v d).
Proof.
  induction d as [|[k0 v0] d IH]; intros Hf Hv; simpl; [by constructor|].
  inversion Hf; subst. case_decide; constructor; auto.
Qed.

Lemma Forall_dict_get {K V} `{EqDecision K} (P : V -> Prop) (k : K) v d :
  Forall (fun e => P e.2) d -> dict_get k d = Some v -> P v.
Proof.
  intros Hf Hg. apply dict_get_Some_elem in Hg.
  rewrite Forall_forall in Hf. by apply (Hf (k, v)).
Qed.

Lemma read_ini_line_cases cur data raw :
  read_ini_line (cur, data) raw =
    (let line := py_strip raw in
     if bool_decide (line = []) || starts_with (ch "#") line || starts_with (ch ";") line then (cur, data)
     else if starts_with (ch "[") line && ends_with (ch "]") line then
       (py_strip (strip_brackets line), dict_setdefault (py_strip (strip_brackets line)) [] data)
     else
       match split_eq line with
       | Some (k, v) =>
           (cur, dict_set cur (dict_set (py_strip k) (py_strip v)
                  (default [] (dict_get cur (dict_setdefault cur [] data))))
                  (dict_setdefault cur [] data))
       | None => (cur, data)
       end).
Proof. reflexivity. Qed.

Lemma wf_setdefault_empty c (t : table) : wf_table t -> wf_table (dict_setdefault c [] t).
Proof.
  intros [Hnd Hf]. split; [by apply dict_setdefault_NoDup|].
  unfold dict_setdefault. destruct (dict_get c t); [done|].
  apply Forall_app; split; [done|]. repeat constructor.
Qed.

Lemma wf_assign cur k v (data : table) :
  wf_table data ->
  wf_table (dict_set cur (dict_set k v (default [] (dict_get cur (dict_setdefault cur [] data))))
              (dict_setdefault cur [] data)).
Proof.
  intros Hwf. destruct (wf_setdefault_empty cur data Hwf) as [Hnd Hf].
  split; [by apply dict_set_NoDup|].
  apply (Forall_dict_set (fun sec : section => NoDup sec.*1)); [done|].
  apply dict_set_NoDup.
  destruct (dict_get cur (dict_setdefault cur [] data)) as [sec|] eqn:E; simpl.
  - exact (Forall_dict_get (fun sec : section => NoDup sec.*1) _ _ _ Hf E).
  - constructor.
Qed.

Lemma read_ini_fold_wf ls : forall cur data,
  wf_table data -> wf_table (fold_left read_ini_line ls (cur, data)).2.
Proof.
  induction ls as [|raw ls IH]; intros cur data Hwf; [done|].
  cbn [fold_left]. rewrite read_ini_line_cases. cbv zeta.
  destruct (_ || _); [by apply IH|].
  destruct (_ && _); [apply IH; by apply wf_setdefault_empty|].
  destruct (split_eq _) as [[k v]|]; [|by apply IH].
  apply IH. by apply wf_assign.
Qed.

Lemma read_ini_text_wf c : wf_table (read_ini_text c).
Proof.
  unfold read_ini_text. apply read_ini_fold_wf.
  split; repeat constructor; set_solver.
Qed.

Lemma read_table_wf fs p : wf_table (read_table fs p).
Proof.
  unfold read_table. destruct (fs p) as [[c|]|]; [apply read_ini_text_wf|split; constructor..].
Qed.

Lemma get2_setdefault_empty c (t : table) s k : get2 (dict_setdefault c [] t) s k = get2 t s k.
Proof.
  unfold get2. rewrite dict_get_setdefault.
  destruct (dict_get s t); [done|]. case_decide; reflexivity.
Qed.

Lemma get2_assign cur k' v' (data : table) s k :
  get2 (dict_set cur (dict_set k' v' (default [] (dict_get cur (dict_setdefault cur [] data))))
          (dict_setdefault cur [] data)) s k =
    if bool_decide (s = cur) && bool_decide (k = k') then Some v' else get2 data s k.
Proof.
  unfold get2 at 1. rewrite dict_get_set.
  destruct (decide (s = cur)) as [->|Hs].
  - rewrite bool_decide_eq_true_2 by done. simpl. rewrite dict_get_set.
    destruct (decide (k = k')) as [->|Hk].
    + by rewrite bool_decide_eq_true_2.
    + rewrite bool_decide_eq_false_2 by done.
      rewrite <-(get2_setdefault_empty cur data cur k). unfold get2.
      by destruct (dict_get cur (dict_setdefault cur [] data)).
  - rewrite bool_decide_eq_false_2 by done. simpl. apply get2_setdefault_empty.
Qed.

Lemma read_ini_fold_get2 s k ls : forall cur data,
  get2 (fold_left read_ini_line ls (cur, data)).2 s k =
    match last_assignment s k (ini_assign_go cur ls) with
    | Some v => Some v
    | None => get2 data s k
    end.
Proof.
  induction ls as [|raw ls IH]; intros cur data; [done|].
  cbn [fold_left ini_assign_go]. rewrite read_ini_line_cases. cbv zeta.
  destruct (_ || _); [apply IH|].
  destruct (_ && _); [rewrite IH; by rewrite get2_setdefault_empty|].
  destruct (split_eq _) as [[k' v']|]; [|apply IH].
  rewrite IH, get2_assign. cbn [last_assignment].
  destruct (last_assignment s k (ini_assign_go cur ls)); [done|]. by destruct (_ && _).
Qed.

Lemma read_ini_text_get2 c s k :
  get2 (read_ini_text c) s k = last_assignment s k (ini_assignments c).
Proof.
  unfold read_ini_text, ini_assignments. rewrite read_ini_fold_get2.
  destruct (last_assignment _ _ _); [done|].
  unfold get2. cbn [dict_get]. case_decide; [done|]. done.
Qed.


(* ------------------------------------------------------------------ *)
(** ** The file system *)

Lemma fs_write_same fs p e : fs_write fs p e p = Some e.
Proof. unfold fs_write. by rewrite decide_True. Qed.

Lemma fs_write_other fs p q e : q <> p -> fs_write fs p e q = fs q.
Proof. intros Hne. unfold fs_write. by rewrite decide_False. Qed.

Lemma then_Done_nil fs k : then_ (Done fs []) k = k fs.
Proof. simpl. by destruct (k fs). Qed.

Lemma ancestors_go_len cs : forall acc d, d ∈ ancestors_go cs acc ->
  length (list_ascii_of_string d) < length acc + length cs.
Proof.
  induction cs as [|c r IH]; intros acc d Hd; simpl in Hd; [by apply not_elem_of_nil in Hd|].
  destruct (Ascii.eqb c "/").
  - apply elem_of_cons in Hd as [->|Hd].
    + rewrite list_ascii_of_string_of_list_ascii, length_rev. simpl. lia.
    + specialize (IH _ _ Hd). simpl in *. lia.
  - specialize (IH _ _ Hd). simpl in *. lia.
Qed.

Lemma ancestors_not_self rel : rel ∉ ancestors rel.
Proof. intros Hd. apply ancestors_go_len in Hd. simpl in Hd. lia. Qed.

Lemma mkdirs_all_dir t ds fs : dirs_at t ds fs -> mkdirs t ds fs = Done fs [].
Proof.
  induction ds as [|d ds IH]; intros H; [done|]. simpl.
  rewrite (H d) by (apply elem_of_cons; by left).
  apply IH. intros d' Hd'. apply H. apply elem_of_cons. by right.
Qed.

Lemma walk_error_all_dir t ds fs : dirs_at t ds fs -> walk_error t ds fs = None.
Proof.
  induction ds as [|d ds IH]; intros H; [done|]. simpl.
  rewrite (H d) by (apply elem_of_cons; by left).
  apply IH. intros d' Hd'. apply H. apply elem_of_cons. by right.
Qed.

Lemma mkdirs_ok t ds : forall fs, (forall d c, d ∈ ds -> fs (t, d) <> Some (File c)) ->
  exists fs', mkdirs t ds fs = Done fs' [] /\ dirs_at t ds fs' /\
    forall q, (q.1 <> t \/ q.2 ∉ ds) -> fs' q = fs q.
Proof.
  induction ds as [|d ds IH]; intros fs H; simpl.
  - exists fs. split_and!; [done| |done]. intros d Hd. by apply not_elem_of_nil in Hd.
  - destruct (fs (t, d)) as [[c|]|] eqn:E.
    + exfalso. eapply H; [apply elem_of_cons; by left|done].
    + destruct (IH fs) as (fs' & Hm & Hd & Hf).
      { intros d' c Hd'. apply H. apply elem_of_cons. by right. }
      exists fs'. split_and!; [done| |].
      * intros d' Hd'. apply elem_of_cons in Hd' as [->|Hd']; [|by apply Hd].
        destruct (decide (d ∈ ds)); [by apply Hd|]. rewrite Hf; [done|]. by right.
      * intros q Hq. apply Hf. destruct Hq as [Hq|Hq]; [by left|]. right.
        rewrite elem_of_cons in Hq. naive_solver.
    + destruct (IH (fs_write fs (t, d) Dir)) as (fs' & Hm & Hd & Hf).
      { intros d' c Hd'. destruct (decide (d' = d)) as [->|Hne].
        - rewrite fs_write_same. congruence.
        - rewrite fs_write_other by congruence. apply H. apply elem_of_cons. by right. }
      exists fs'. split_and!; [done| |].
      * intros d' Hd'. apply elem_of_cons in Hd' as [->|Hd']; [|by apply Hd].
        destruct (decide (d ∈ ds)); [by apply Hd|]. rewrite Hf by (by right).
        apply fs_write_same.
      * intros q Hq. rewrite elem_of_cons in Hq.
        rewrite Hf by naive_solver. apply fs_write_other.
        intros ->. simpl in Hq. naive_solver.
Qed.

Lemma dirs_at_write t ds fs p e :
  dirs_at t ds fs -> (forall d, d ∈ ds -> p <> (t, d)) -> dirs_at t ds (fs_write fs p e).
Proof.
  intros H Hp d Hd. rewrite fs_write_other; [by apply H|]. intros <-. by apply (Hp d).
Qed.

(** The parent folders of the output file, once made. *)
Lemma mkdir_out_ok rel fs :
  out_parents_free fs rel ->
  exists fs0, mkdir_parent (OutDir, rel) fs = Done fs0 [] /\
    dirs_at OutDir (ancestors rel) fs0 /\
    (forall t, fs0 (t, rel) = fs (t, rel)) /\
    (forall q, q.1 <> OutDir -> fs0 q = fs q).
Proof.
  intros Hfree. destruct (mkdirs_ok OutDir (ancestors rel) fs) as (fs0 & Hm & Hd & Hf).
  { intros d c Hd. by apply Hfree. }
  exists fs0. split_and!; [exact Hm|exact Hd| |].
  - intros t. apply Hf. right. apply ancestors_not_self.
  - intros q Hq. apply Hf. by left.
Qed.

Lemma dirs_at_write_out rel fs e :
  dirs_at OutDir (ancestors rel) fs -> dirs_at OutDir (ancestors rel) (fs_write fs (OutDir, rel) e).
Proof.
  intros H. apply dirs_at_write; [done|]. intros d Hd [= Heq]. subst d. by apply (ancestors_not_self rel).
Qed.

Lemma open_write_ok t rel c fs :
  dirs_at t (ancestors rel) fs -> fs (t, rel) <> Some Dir ->
  open_write (t, rel) c fs = Done (fs_write fs (t, rel) (File c)) [].
Proof.
  intros Hd Hn. unfold open_write.
  destruct (fs (t, rel)) as [[c'|]|] eqn:E; [done|done|].
  unfold parent_error. simpl. by rewrite walk_error_all_dir.
Qed.

Lemma shutil_copy_ok src rel c fs :
  src.1 <> OutDir -> fs src = Some (File c) ->
  dirs_at OutDir (ancestors rel) fs -> fs (OutDir, rel) <> Some Dir ->
  shutil_copy src (OutDir, rel) fs = Done (fs_write fs (OutDir, rel) (File c)) [].
Proof.
  intros Ht Hs Hd Hn.
  assert (Hi : is_dir fs (OutDir, rel) = false)
    by (unfold is_dir; destruct (fs (OutDir, rel)) as [[]|]; congruence).
  unfold shutil_copy. rewrite Hi.
  rewrite (bool_decide_eq_false_2 (src = (OutDir, rel))) by (intros ->; done).
  rewrite andb_false_r. unfold open_read. rewrite Hs. by apply open_write_ok.
Qed.

Lemma read_ini_table fs p :
  fs p <> Some Dir -> read_ini fs p = inr (read_table fs p).
Proof.
  intros Hn. unfold read_ini, read_table, exists_, open_read.
  destruct (fs p) as [[c|]|]; congruence.
Qed.

Lemma str_or_same x : str_or x (str_or x x) = x.
Proof.
  unfold str_or. destruct (String.eqb_spec x "") as [->|]; reflexivity.
Qed.

Lemma merge_file_triple_unfold parse dsyn write rel fs :
  merge_file_triple parse dsyn write rel fs =
    if negb (exists_ fs (MapDir, rel) || exists_ fs (PatchDir, rel) || exists_ fs (ExtraDir, rel))
    then Done fs []
    else then_ (mkdir_parent (OutDir, rel) fs) (fun fs0 =>
    if String.eqb (py_suffix rel) ".xml" then
      then_ (if exists_ fs0 (MapDir, rel) then shutil_copy (MapDir, rel) (OutDir, rel) fs0 else Done fs0 []) (fun fs1 =>
      then_ (if exists_ fs1 (PatchDir, rel)
             then merge_catalog_xml parse dsyn write (OutDir, rel) (PatchDir, rel) (OutDir, rel) fs1
             else Done fs1 []) (fun fs2 =>
      if exists_ fs2 (ExtraDir, rel)
      then merge_catalog_xml parse dsyn write (OutDir, rel) (ExtraDir, rel) (OutDir, rel) fs2
      else Done fs2 []))
    else if String.eqb (py_suffix rel) ".txt" || String.eqb (py_suffix rel) ".ini" then
      merge_ini_files (MapDir, rel) (PatchDir, rel) (ExtraDir, rel) (OutDir, rel) fs0
    else
      shutil_copy (if exists_ fs0 (ExtraDir, rel) then (ExtraDir, rel)
                   else if exists_ fs0 (PatchDir, rel) then (PatchDir, rel) else (MapDir, rel))
                  (OutDir, rel) fs0).
Proof. unfold merge_file_triple. cbn [snd]. by rewrite str_or_same. Qed.

Lemma exists_same fs fs0 t rel : fs0 (t, rel) = fs (t, rel) -> exists_ fs0 (t, rel) = exists_ fs (t, rel).
Proof. unfold exists_. by intros ->. Qed.

(** Running [merge_file_triple] past the creation of the output's parent
    folders. *)
Ltac enter_triple Hany Hfree :=
  rewrite merge_file_triple_unfold, Hany; cbn [negb];
  let fs0 := fresh "fs0" in
  let Hm := fresh "Hm" in let Hd := fresh "Hdirs" in
  let Hr := fresh "Hrel" in let Ho := fresh "Hother" in
  destruct (mkdir_out_ok _ _ Hfree) as (fs0 & Hm & Hd & Hr & Ho);
  rewrite Hm, then_Done_nil.

(** [exists_] on the files at [rel], which making the parent folders
    does not change. *)
Ltac exists_at_rel Hr :=
  rewrite ?(exists_same _ _ MapDir _ (Hr MapDir)), ?(exists_same _ _ PatchDir _ (Hr PatchDir)),
          ?(exists_same _ _ ExtraDir _ (Hr ExtraDir)), ?(exists_same _ _ OutDir _ (Hr OutDir)).

Lemma mkdir_parent_dirs p fs : dirs_at p.1 (ancestors p.2) fs -> mkdir_parent p fs = Done fs [].
Proof. intros H. by apply mkdirs_all_dir. Qed.

Lemma read_table_same fs fs0 t rel : fs0 (t, rel) = fs (t, rel) -> read_table fs0 (t, rel) = read_table fs (t, rel).
Proof. unfold read_table. by intros ->. Qed.

Lemma suffix_ini_xml rel : py_suffix rel = ".ini" \/ py_suffix rel = ".txt" ->
  String.eqb (py_suffix rel) ".xml" = false /\
  (String.eqb (py_suffix rel) ".txt" || String.eqb (py_suffix rel) ".ini") = true.
Proof. intros [-> | ->]; split; reflexivity. Qed.

(** The section-table route of [merge_file_triple], when no directory
    is in the way. *)
Lemma ini_triple_route parse dsyn write rel fs :
  py_suffix rel = ".ini" \/ py_suffix rel = ".txt" ->
  no_dir_at fs rel -> out_parents_free fs rel ->
  (exists_ fs (MapDir, rel) || exists_ fs (PatchDir, rel) || exists_ fs (ExtraDir, rel)) = true ->
  (forall c, fs (MapDir, rel) = Some (File c) ->
     exists_ fs (PatchDir, rel) = false -> exists_ fs (ExtraDir, rel) = false ->
     exists fs', merge_file_triple parse dsyn write rel fs = Done fs' [] /\
                 fs' (OutDir, rel) = Some (File c)) /\
  ((exists_ fs (PatchDir, rel) || exists_ fs (ExtraDir, rel)) = true ->
     exists fs', merge_file_triple parse dsyn write rel fs =
       Done fs' (ini_merge_tables (read_table fs (MapDir, rel)) (read_table fs (PatchDir, rel))
                                  (read_table fs (ExtraDir, rel))).2 /\
     fs' (OutDir, rel) =
       Some (File (utf8_encode (serialize_ini
         (ini_merge_tables (read_table fs (MapDir, rel)) (read_table fs (PatchDir, rel))
                           (read_table fs (ExtraDir, rel))).1)))).
Proof.
  intros Hs Hnd Hfree Hany. enter_triple Hany Hfree.
  destruct (suffix_ini_xml rel Hs) as [-> ->]. unfold merge_ini_files. exists_at_rel Hrel.
  split.
  - intros c Hc Hp He. rewrite Hp, He. cbn [negb andb].
    eexists. split; [|apply fs_write_same].
    apply shutil_copy_ok; [done|by rewrite Hrel|done|rewrite Hrel; apply Hnd].
  - intros Hpe.
    replace (negb (exists_ fs (PatchDir, rel)) && negb (exists_ fs (ExtraDir, rel))) with false
      by (destruct (exists_ fs (PatchDir, rel)), (exists_ fs (ExtraDir, rel)); done).
    rewrite !read_ini_table by (rewrite Hrel; apply Hnd).
    rewrite !(read_table_same fs fs0 _ rel (Hrel _)).
    destruct (ini_merge_tables _ _ _) as [merged d]. cbn [fst snd].
    eexists. split; [|apply fs_write_same].
    cbn [then_]. rewrite mkdir_parent_dirs by done. rewrite then_Done_nil.
    rewrite open_write_ok by (done || (rewrite Hrel; apply Hnd)).
    by rewrite app_nil_r.
Qed.

Lemma ini_route_done parse dsyn write rel fs :
  py_suffix rel = ".ini" \/ py_suffix rel = ".txt" ->
  no_dir_at fs rel -> out_parents_free fs rel ->
  exists fs' d, merge_file_triple parse dsyn write rel fs = Done fs' d.
Proof.
  intros Hs Hnd Hfree.
  destruct (exists_ fs (MapDir, rel) || exists_ fs (PatchDir, rel) || exists_ fs (ExtraDir, rel)) eqn:Hany.
  2:{ rewrite merge_file_triple_unfold, Hany. eauto. }
  destruct (ini_triple_route parse dsyn write rel fs Hs Hnd Hfree Hany) as [H1 H2].
  destruct (exists_ fs (PatchDir, rel) || exists_ fs (ExtraDir, rel)) eqn:Hpe.
  - destruct (H2 eq_refl) as (fs' & -> & _). eauto.
  - apply orb_false_iff in Hpe as [Hp He]. rewrite Hp, He, !orb_false_r in Hany.
    unfold exists_ in Hany. specialize (Hnd MapDir).
    destruct (fs (MapDir, rel)) as [[c|]|] eqn:Hb; try done.
    destruct (H1 c eq_refl Hp He) as (fs' & -> & _). eauto.
Qed.

(* ------------------------------------------------------------------ *)
(** ** Conflicts *)

(** C6: applying a table [high] over [low] (Patch over Base, then Overlay
    over the result) gives each key the incoming value when it has one
    and keeps the old one otherwise; for each section [s] and key [k]
    exactly one conflict [IniConflict s k name v] is printed when the
    incoming value [v] replaces a different existing value, and none when
    the key is new or the values are equal; every printed record names
    the overriding tier.  And the section-table route of
    [merge_file_triple] completes, conflicts or not, whenever no
    directory stands at the file's path in a tree and no file stands
    where a parent folder of the output must be made.  Tables produced
    by [read_ini] satisfy [wf_table] ([read_ini_text_wf]). *)
Theorem ini_conflict_rule (low high : table) (name : string) :
  wf_table high ->
  (forall s k, get2 (merge_dicts low high name).1 s k =
     match get2 high s k with Some v => Some v | None => get2 low s k end) /\
  (forall s k, List.filter (diag_at s k) (merge_dicts low high name).2 =
     match get2 high s k, get2 low s k with
     | Some v, Some v' => if bool_decide (v' = v) then [] else [IniConflict s k name v]
     | _, _ => []
     end) /\
  Forall (fun d => exists s k v, d = IniConflict s k name v) (merge_dicts low high name).2 /\
  (forall parse dsyn write rel fs, py_suffix rel = ".ini" \/ py_suffix rel = ".txt" ->
     no_dir_at fs rel -> out_parents_free fs rel ->
     exists fs' d, merge_file_triple parse dsyn write rel fs = Done fs' d).
Proof.
  intros Hwf. destruct (merge_dicts_spec low high name Hwf) as [Hget Hd].
  split_and!.
  - exact Hget.
  - intros s k. rewrite Hd. by apply table_conflicts_at.
  - rewrite Hd. apply table_conflicts_shape.
  - intros parse dsyn write rel fs. apply ini_route_done.
Qed.

Lemma ini_conflict_rule_witness :
  wf_table [(ini_root, [(u "a", u "2")])] /\
  let low := [(ini_root, [(u "a", u "1")])] in
  let high := [(ini_root, [(u "a", u "2")])] in
  (forall s k, get2 (merge_dicts low high "patch").1 s k =
     match get2 high s k with Some v => Some v | None => get2 low s k end) /\
  (forall s k, List.filter (diag_at s k) (merge_dicts low high "patch").2 =
     match get2 high s k, get2 low s k with
     | Some v, Some v' => if bool_decide (v' = v) then [] else [IniConflict s k "patch" v]
     | _, _ => []
     end) /\
  Forall (fun d => exists s k v, d = IniConflict s k "patch" v) (merge_dicts low high "patch").2 /\
  (forall parse dsyn write rel fs, py_suffix rel = ".ini" \/ py_suffix rel = ".txt" ->
     no_dir_at fs rel -> out_parents_free fs rel ->
     exists fs' d, merge_file_triple parse dsyn write rel fs = Done fs' d).
Proof.
  assert (Hwf : wf_table [(ini_root, [(u "a", u "2")])]).
  { unfold wf_table. split; apply (bool_decide_unpack _); vm_compute; exact I. }
  split; [exact Hwf|].
  exact (ini_conflict_rule [(ini_root, [(u "a", u "1")])] [(ini_root, [(u "a", u "2")])] "patch" Hwf).
Defined.

(** C10: within one INI file, a key assigned several times in a section
    holds the value of its last assignment after [read_ini]; and when the
    table read from that file is merged over [low], the conflicts printed
    for that key compare only that last value with [low]'s, so repeated
    keys inside the file never print a conflict of their own. *)
Theorem ini_duplicate_keys_last_wins (c : string) (low : table) (name : string) :
  (forall s k, get2 (read_ini_text c) s k = last_assignment s k (ini_assignments c)) /\
  (forall s k, List.filter (diag_at s k) (merge_dicts low (read_ini_text c) name).2 =
     match last_assignment s k (ini_assignments c), get2 low s k with
     | Some v, Some v' => if bool_decide (v' = v) then [] else [IniConflict s k name v]
     | _, _ => []
     end).
Proof.
  split; [apply read_ini_text_get2|].
  intros s k. destruct (merge_dicts_spec low (read_ini_text c) name (read_ini_text_wf c)) as [_ Hd].
  rewrite Hd, table_conflicts_at by apply read_ini_text_wf.
  by rewrite read_ini_text_get2.
Qed.

(* ------------------------------------------------------------------ *)
(** ** Merged tables are well formed; their sections *)

Lemma elem_of_dict_set_keys {K V} `{EqDecision K} (k : K) (v : V) d s :
  s ∈ (dict_set k v d).*1 <-> s = k \/ s ∈ d.*1.
Proof. rewrite dict_set_keys. case_decide; set_solver. Qed.

Lemma merge_section_fold_NoDup s name kv : forall (lkv : section) d0,
  NoDup lkv.*1 -> NoDup (fold_left (merge_section_step s name) kv (lkv, d0)).1.*1.
Proof.
  induction kv as [|[k v] kv IH]; intros lkv d0 Hnd; cbn [fold_left]; [done|].
  rewrite merge_section_step_eq. apply IH. by apply dict_set_NoDup.
Qed.

Lemma merge_dicts_fold_wf name high : wf_table high -> forall lo d0,
  wf_table lo ->
  wf_table (fold_left (merge_dicts_step name) high (lo, d0)).1 /\
  (forall s, s ∈ (fold_left (merge_dicts_step name) high (lo, d0)).1.*1 <->
             s ∈ lo.*1 \/ s ∈ high.*1).
Proof.
  induction high as [|[s kv] high IH]; intros [Hnd Hf] lo d0 [Hlnd Hlf]; cbn [fold_left].
  { split; [done|]. set_solver. }
  inversion Hnd as [|? ? Hs Hnd']; subst. inversion Hf as [|? ? Hkv Hf']; subst.
  simpl in Hkv. rewrite merge_dicts_step_eq.
  destruct (dict_get s lo) as [lkv|] eqn:Elo.
  - assert (Hin : s ∈ lo.*1).
    { destruct (decide (s ∈ lo.*1)) as [|Hn]; [done|].
      by rewrite (proj2 (dict_get_None_iff s lo) Hn) in Elo. }
    assert (Hlkv : NoDup lkv.*1)
      by exact (Forall_dict_get (fun sec : section => NoDup sec.*1) _ _ _ Hlf Elo).
    destruct (IH (conj Hnd' Hf') (dict_set s (merge_section s name lkv kv).1 lo)
                 (d0 ++ (merge_section s name lkv kv).2)%list) as [Hwf Hmem].
    { split; [by apply dict_set_NoDup|].
      apply (Forall_dict_set (fun sec : section => NoDup sec.*1)); [done|].
      by apply merge_section_fold_NoDup. }
    split; [done|]. intros s'. rewrite Hmem, elem_of_dict_set_keys. simpl.
    rewrite elem_of_cons. naive_solver.
  - destruct (IH (conj Hnd' Hf') (dict_set s kv lo) d0) as [Hwf Hmem].
    { split; [by apply dict_set_NoDup|].
      by apply (Forall_dict_set (fun sec : section => NoDup sec.*1)). }
    split; [done|]. intros s'. rewrite Hmem, elem_of_dict_set_keys. simpl.
    rewrite elem_of_cons. naive_solver.
Qed.

Lemma merge_dicts_wf low high name :
  wf_table low -> wf_table high ->
  wf_table (merge_dicts low high name).1 /\
  (forall s, s ∈ (merge_dicts low high name).1.*1 <-> s ∈ low.*1 \/ s ∈ high.*1).
Proof. intros Hl Hh. exact (merge_dicts_fold_wf name high Hh low [] Hl). Qed.

Lemma ini_merge_tables_fst b p e :
  (ini_merge_tables b p e).1 = (merge_dicts (merge_dicts b p "patch").1 e "extra").1.
Proof.
  unfold ini_merge_tables. destruct (merge_dicts b p "patch") as [m1 d1]. simpl.
  by destruct (merge_dicts m1 e "extra").
Qed.

Lemma ini_merge_tables_snd b p e :
  (ini_merge_tables b p e).2 =
    ((merge_dicts b p "patch").2 ++ (merge_dicts (merge_dicts b p "patch").1 e "extra").2)%list.
Proof.
  unfold ini_merge_tables. destruct (merge_dicts b p "patch") as [m1 d1]. simpl.
  by destruct (merge_dicts m1 e "extra").
Qed.

(* ------------------------------------------------------------------ *)
(** ** Serialisation depends only on the table's contents *)

Lemma perm_of_lookups {K V} `{EqDecision K} (r1 r2 : list (K * V)) :
  NoDup r1.*1 -> NoDup r2.*1 -> (forall k, dict_get k r1 = dict_get k r2) -> r1 ≡ₚ r2.
Proof.
  intros H1 H2 Hk. apply NoDup_Permutation.
  - by apply (NoDup_fmap_1 fst).
  - by apply (NoDup_fmap_1 fst).
  - intros [k v]. split; intros Hin.
    + apply dict_get_Some_elem. rewrite <-Hk. by apply elem_dict_get.
    + apply dict_get_Some_elem. rewrite Hk. by apply elem_dict_get.
Qed.

Lemma filter_perm_bool {A} (f : A -> bool) (l1 l2 : list A) :
  l1 ≡ₚ l2 -> List.filter f l1 ≡ₚ List.filter f l2.
Proof.
  induction 1; simpl.
  - done.
  - destruct (f x); [by constructor|done].
  - destruct (f x), (f y); try constructor; done.
  - by etrans.
Qed.

(** The section [s] of [t] as the code reads it, [{}] when absent. *)
Lemma section_of_wf (t : table) s :
  wf_table t -> NoDup (default [] (dict_get s t)).*1.
Proof.
  intros [_ Hf]. destruct (dict_get s t) as [sec|] eqn:E; simpl; [|constructor].
  exact (Forall_dict_get (fun sec : section => NoDup sec.*1) _ _ _ Hf E).
Qed.

Lemma get2_default (t : table) s k : get2 t s k = dict_get k (default [] (dict_get s t)).
Proof. unfold get2. by destruct (dict_get s t). Qed.


Lemma serialize_ini_alt (t : table) :
  serialize_ini t =
    ((match default [] (dict_get ini_root t) with
      | [] => []
      | r => kv_lines (sorted_uitems r) ++ nl
      end) ++
    concat
      (map (fun s => u "[" ++ s ++ u "]" ++ nl ++
                     kv_lines (sorted_uitems (default [] (dict_get s t))) ++ nl)
           (sorted_ustrs (List.filter (fun s => negb (bool_decide (s = ini_root))) (map fst t)))))%list.
Proof. unfold serialize_ini. by destruct (dict_get ini_root t) as [[|]|]. Qed.

Lemma serialize_ini_ext (t1 t2 : table) :
  wf_table t1 -> wf_table t2 ->
  (forall s k, get2 t1 s k = get2 t2 s k) -> t1.*1 ≡ₚ t2.*1 ->
  serialize_ini t1 = serialize_ini t2.
Proof.
  intros Hw1 Hw2 Hget Hsec.
  assert (Hsecs : forall s, sorted_uitems (default [] (dict_get s t1)) =
                            sorted_uitems (default [] (dict_get s t2))).
  { intros s. apply sorted_uitems_perm, perm_of_lookups; [by apply section_of_wf..|].
    intros k. by rewrite <-!get2_default. }
  rewrite !serialize_ini_alt.
  assert (Hroot : default [] (dict_get ini_root t1) ≡ₚ default [] (dict_get ini_root t2)).
  { apply perm_of_lookups; [by apply section_of_wf..|]. intros k. by rewrite <-!get2_default. }
  f_equal.
  - destruct (default [] (dict_get ini_root t1)) as [|p1 r1] eqn:E1,
             (default [] (dict_get ini_root t2)) as [|p2 r2] eqn:E2.
    + done.
    + by apply Permutation_nil_cons in Hroot.
    + symmetry in Hroot. by apply Permutation_nil_cons in Hroot.
    + rewrite <-E1, <-E2. by rewrite Hsecs.
  - f_equal. rewrite (sorted_ustrs_perm _ (List.filter (fun s => negb (bool_decide (s = ini_root))) (map fst t2))).
    + apply map_ext. intros s. by rewrite Hsecs.
    + by apply filter_perm_bool.
Qed.


Lemma ini_merge_tables_ext b1 p1 e1 b2 p2 e2 :
  wf_table b1 -> wf_table p1 -> wf_table e1 ->
  wf_table b2 -> wf_table p2 -> wf_table e2 ->
  (forall s k, get2 b1 s k = get2 b2 s k) -> b1.*1 ≡ₚ b2.*1 ->
  (forall s k, get2 p1 s k = get2 p2 s k) -> p1.*1 ≡ₚ p2.*1 ->
  (forall s k, get2 e1 s k = get2 e2 s k) -> e1.*1 ≡ₚ e2.*1 ->
  serialize_ini (ini_merge_tables b1 p1 e1).1 = serialize_ini (ini_merge_tables b2 p2 e2).1.
Proof.
  intros Hb1 Hp1 He1 Hb2 Hp2 He2 Gb Sb Gp Sp Ge Se.
  rewrite !ini_merge_tables_fst.
  destruct (merge_dicts_wf b1 p1 "patch" Hb1 Hp1) as [Hm1 Mm1].
  destruct (merge_dicts_wf b2 p2 "patch" Hb2 Hp2) as [Hm2 Mm2].
  destruct (merge_dicts_wf _ e1 "extra" Hm1 He1) as [Hn1 Mn1].
  destruct (merge_dicts_wf _ e2 "extra" Hm2 He2) as [Hn2 Mn2].
  apply serialize_ini_ext; [done|done| |].
  - intros s k.
    rewrite (proj1 (merge_dicts_spec _ e1 "extra" He1)), (proj1 (merge_dicts_spec _ e2 "extra" He2)).
    rewrite (proj1 (merge_dicts_spec b1 p1 "patch" Hp1)), (proj1 (merge_dicts_spec b2 p2 "patch" Hp2)).
    by rewrite Gb, Gp, Ge.
  - apply NoDup_Permutation; [apply Hn1|apply Hn2|].
    intros s. rewrite Mn1, Mn2, Mm1, Mm2, Sb, Sp, Se. done.
Qed.
Lemma sorted_uitems_by_key (kv : section) :
  NoDup kv.*1 ->
  sorted_uitems kv ≡ₚ kv /\ StronglySorted (fun p q => ustr_ltb p.1 q.1 = true) (sorted_uitems kv).
Proof.
  intros Hnd. assert (Hp : sorted_uitems kv ≡ₚ kv) by apply py_sorted_perm.
  split; [done|].
  assert (Hs : StronglySorted (fun x y => upair_ltb x y = true) (sorted_uitems kv)).
  { apply py_sorted_StronglySorted_lt;
      [exact upair_ltb_asym|exact upair_ltb_trans|exact upair_ltb_total|].
    by apply (NoDup_fmap_1 fst). }
  assert (Hnd' : NoDup (sorted_uitems kv).*1) by (by rewrite Hp).
  clear Hp. revert Hnd'. induction Hs as [|x l Hs IH Hall]; intros Hnd'; rewrite ?fmap_cons in Hnd'; constructor.
  - apply IH. by inversion Hnd'.
  - inversion Hnd' as [|? ? Hx _]; subst.
    apply Forall_forall. intros y Hy. rewrite Forall_forall in Hall.
    specialize (Hall y Hy). unfold upair_ltb in Hall. unfold ustr_ltb.
    destruct (ustr_cmp x.1 y.1) eqn:E; [|done|done].
    exfalso. apply Hx. apply ustr_cmp_eq in E. rewrite E.
    by apply list_elem_of_fmap_2.
Qed.

Lemma sorted_ustrs_strict (names : list ustr) :
  NoDup names ->
  sorted_ustrs names ≡ₚ names /\ StronglySorted (fun a b => ustr_ltb a b = true) (sorted_ustrs names).
Proof.
  intros Hnd. split; [apply py_sorted_perm|].
  apply py_sorted_StronglySorted_lt; [exact ustr_ltb_asym|exact ustr_ltb_trans|exact ustr_ltb_total|done].
Qed.

Lemma single_file_fs_other p c q : q <> p -> single_file_fs p c q = None.
Proof. intros Hne. unfold single_file_fs. by rewrite decide_False. Qed.

Lemma single_file_fs_no_dir p c rel : no_dir_at (single_file_fs p c) rel.
Proof. intros t. unfold single_file_fs. by case_decide. Qed.

Lemma single_file_fs_parents p c rel : p.1 <> OutDir -> out_parents_free (single_file_fs p c) rel.
Proof.
  intros Ht d c' _. unfold single_file_fs. case_decide as E; [|done]. subst p. done.
Qed.

(* ------------------------------------------------------------------ *)
(** ** Section-table output *)

(** C7 (as the code behaves): on the section-table route, when no
    directory stands at the file's path in a tree and no file stands
    where a parent folder of the output must be made: a file found only
    in Base is copied byte for byte; when Patch or Overlay has the file,
    the output is the UTF-8 encoding of [serialize_ini] of the merged
    table: the root pseudo-section's [key = value] lines first with a
    blank line after them (nothing when the root has no keys), then each
    other section as [[name]], its lines and a blank line.  Keys inside a
    section and section names are written in strictly ascending order of
    Python's [str] comparison (code point by code point), and the text
    depends only on what the three tables map each section and key to
    and on which sections they contain, not on the order of the lines
    they were read from. *)
Theorem ini_serialization_order parse dsyn write rel fs :
  py_suffix rel = ".ini" \/ py_suffix rel = ".txt" ->
  no_dir_at fs rel -> out_parents_free fs rel ->
  (forall c, fs (MapDir, rel) = Some (File c) ->
     exists_ fs (PatchDir, rel) = false -> exists_ fs (ExtraDir, rel) = false ->
     exists fs', merge_file_triple parse dsyn write rel fs = Done fs' [] /\
                 fs' (OutDir, rel) = Some (File c)) /\
  ((exists_ fs (PatchDir, rel) || exists_ fs (ExtraDir, rel)) = true ->
     exists fs', merge_file_triple parse dsyn write rel fs =
       Done fs' (ini_merge_tables (read_table fs (MapDir, rel)) (read_table fs (PatchDir, rel))
                                  (read_table fs (ExtraDir, rel))).2 /\
     fs' (OutDir, rel) =
       Some (File (utf8_encode (serialize_ini
         (ini_merge_tables (read_table fs (MapDir, rel)) (read_table fs (PatchDir, rel))
                           (read_table fs (ExtraDir, rel))).1)))) /\
  (forall kv : section, NoDup kv.*1 ->
     sorted_uitems kv ≡ₚ kv /\ StronglySorted (fun p q => ustr_ltb p.1 q.1 = true) (sorted_uitems kv)) /\
  (forall names, NoDup names ->
     sorted_ustrs names ≡ₚ names /\ StronglySorted (fun a b => ustr_ltb a b = true) (sorted_ustrs names)) /\
  (forall b1 p1 e1 b2 p2 e2,
     wf_table b1 -> wf_table p1 -> wf_table e1 ->
     wf_table b2 -> wf_table p2 -> wf_table e2 ->
     (forall s k, get2 b1 s k = get2 b2 s k) -> b1.*1 ≡ₚ b2.*1 ->
     (forall s k, get2 p1 s k = get2 p2 s k) -> p1.*1 ≡ₚ p2.*1 ->
     (forall s k, get2 e1 s k = get2 e2 s k) -> e1.*1 ≡ₚ e2.*1 ->
     serialize_ini (ini_merge_tables b1 p1 e1).1 = serialize_ini (ini_merge_tables b2 p2 e2).1).
Proof.
  intros Hs Hnd Hfree. split_and!.
  - intros c Hc Hp He.
    assert (Hany : (exists_ fs (MapDir, rel) || exists_ fs (PatchDir, rel) || exists_ fs (ExtraDir, rel)) = true)
      by (unfold exists_ at 1; by rewrite Hc).
    exact (proj1 (ini_triple_route parse dsyn write rel fs Hs Hnd Hfree Hany) c Hc Hp He).
  - intros Hpe.
    assert (Hany : (exists_ fs (MapDir, rel) || exists_ fs (PatchDir, rel) || exists_ fs (ExtraDir, rel)) = true)
      by (rewrite <-orb_assoc, Hpe; apply orb_true_r).
    exact (proj2 (ini_triple_route parse dsyn write rel fs Hs Hnd Hfree Hany) Hpe).
  - apply sorted_uitems_by_key.
  - apply sorted_ustrs_strict.
  - apply ini_merge_tables_ext.
Qed.

Lemma ini_serialization_order_witness :
  let rel := "Base.SC2Data/GameData/x.ini" in
  let fs := single_file_fs (PatchDir, rel) ("a=1" ++ lf)%string in
  (py_suffix rel = ".ini" \/ py_suffix rel = ".txt") /\ no_dir_at fs rel /\ out_parents_free fs rel /\
  ((forall c, fs (MapDir, rel) = Some (File c) ->
     exists_ fs (PatchDir, rel) = false -> exists_ fs (ExtraDir, rel) = false ->
     exists fs', merge_file_triple (fun _ => None) false (fun _ => "") rel fs = Done fs' [] /\
                 fs' (OutDir, rel) = Some (File c)) /\
  ((exists_ fs (PatchDir, rel) || exists_ fs (ExtraDir, rel)) = true ->
     exists fs', merge_file_triple (fun _ => None) false (fun _ => "") rel fs =
       Done fs' (ini_merge_tables (read_table fs (MapDir, rel)) (read_table fs (PatchDir, rel))
                                  (read_table fs (ExtraDir, rel))).2 /\
     fs' (OutDir, rel) =
       Some (File (utf8_encode (serialize_ini
         (ini_merge_tables (read_table fs (MapDir, rel)) (read_table fs (PatchDir, rel))
                           (read_table fs (ExtraDir, rel))).1)))) /\
  (forall kv : section, NoDup kv.*1 ->
     sorted_uitems kv ≡ₚ kv /\ StronglySorted (fun p q => ustr_ltb p.1 q.1 = true) (sorted_uitems kv)) /\
  (forall names, NoDup names ->
     sorted_ustrs names ≡ₚ names /\ StronglySorted (fun a b => ustr_ltb a b = true) (sorted_ustrs names)) /\
  (forall b1 p1 e1 b2 p2 e2,
     wf_table b1 -> wf_table p1 -> wf_table e1 ->
     wf_table b2 -> wf_table p2 -> wf_table e2 ->
     (forall s k, get2 b1 s k = get2 b2 s k) -> b1.*1 ≡ₚ b2.*1 ->
     (forall s k, get2 p1 s k = get2 p2 s k) -> p1.*1 ≡ₚ p2.*1 ->
     (forall s k, get2 e1 s k = get2 e2 s k) -> e1.*1 ≡ₚ e2.*1 ->
     serialize_ini (ini_merge_tables b1 p1 e1).1 = serialize_ini (ini_merge_tables b2 p2 e2).1)).
Proof.
  intros rel fs.
  assert (Hs : py_suffix rel = ".ini" \/ py_suffix rel = ".txt") by (left; vm_compute; reflexivity).
  assert (Hnd : no_dir_at fs rel) by apply single_file_fs_no_dir.
  assert (Hfree : out_parents_free fs rel) by (apply single_file_fs_parents; done).
  split; [exact Hs|]. split; [exact Hnd|]. split; [exact Hfree|].
  exact (ini_serialization_order (fun _ => None) false (fun _ => "") rel fs Hs Hnd Hfree).
Defined.

(** C7, as stated, fails for a file found only in Base: it is copied
    unchanged, so its keys keep their order [b] before [a] instead of
    being sorted. *)
Lemma ini_base_only_unsorted :
  let c := ("b=1" ++ lf ++ "a=2" ++ lf)%string in
  match merge_file_triple (fun _ => None) false (fun _ => "") "x.ini" (single_file_fs (MapDir, "x.ini") c) with
  | Done fs' _ => fs' (OutDir, "x.ini") = Some (File c) /\
                  utf8_encode (serialize_ini (read_ini_text c)) = ("a = 2" ++ lf ++ "b = 1" ++ lf ++ lf)%string /\
                  fs' (OutDir, "x.ini") <> Some (File (utf8_encode (serialize_ini (read_ini_text c))))
  | Raised _ _ => False
  end.
Proof. vm_compute. split; [reflexivity|]. split; [reflexivity|]. discriminate. Qed.

(* ------------------------------------------------------------------ *)
(** ** A file found only in Patch *)

Lemma dict_set_absent {K V} `{EqDecision K} (k : K) (v : V) d :
  k ∉ d.*1 -> dict_set k v d = (d ++ [(k, v)])%list.
Proof.
  induction d as [|[k0 v0] d IH]; intros Hk; [done|].
  rewrite fmap_cons, elem_of_cons in Hk. simpl.
  rewrite decide_False by naive_solver. f_equal. apply IH. naive_solver.
Qed.

Lemma merge_dicts_fold_fresh name high : NoDup high.*1 -> forall lo d0,
  (forall s, s ∈ high.*1 -> s ∉ lo.*1) ->
  fold_left (merge_dicts_step name) high (lo, d0) = ((lo ++ high)%list, d0).
Proof.
  induction high as [|[s kv] high IH]; intros Hnd lo d0 Hfr; cbn [fold_left].
  { by rewrite app_nil_r. }
  rewrite fmap_cons in Hnd. inversion Hnd as [|? ? Hs Hnd']; subst.
  rewrite merge_dicts_step_eq.
  assert (Hslo : s ∉ lo.*1) by (apply Hfr; rewrite fmap_cons; apply elem_of_cons; by left).
  rewrite (proj2 (dict_get_None_iff s lo) Hslo), dict_set_absent by done.
  rewrite IH by (done || (intros s' Hs'; rewrite fmap_app, elem_of_app; simpl;
     rewrite elem_of_cons; intros [Hl|[->|Hn]];
       [apply (Hfr s'); [rewrite fmap_cons; apply elem_of_cons; by right|done]
       |done|set_solver])).
  by rewrite <-app_assoc.
Qed.

Lemma merge_dicts_onto_empty high name :
  wf_table high -> merge_dicts [] high name = (high, []).
Proof.
  intros [Hnd _]. unfold merge_dicts. rewrite merge_dicts_fold_fresh by set_solver. done.
Qed.

Lemma ini_merge_tables_patch_only t :
  wf_table t -> ini_merge_tables [] t [] = (t, []).
Proof.
  intros Hwf. unfold ini_merge_tables. rewrite merge_dicts_onto_empty by done.
  reflexivity.
Qed.

Lemma exists_None fs p : fs p = None -> exists_ fs p = false.
Proof. unfold exists_. by intros ->. Qed.

Lemma exists_File fs p c : fs p = Some (File c) -> exists_ fs p = true.
Proof. unfold exists_. by intros ->. Qed.

Lemma read_table_None fs p : fs p = None -> read_table fs p = [].
Proof. unfold read_table. by intros ->. Qed.

(** C9 (as the code behaves): for a path found only in Patch, with
    nothing yet at that path in the output tree and no file standing
    where a parent folder of the output must be made: the byte-copy
    route and the XML route for a parseable file write Patch's content
    unchanged; an XML file that does not parse writes nothing and prints
    the invalid-XML warning; the section-table route writes Patch's
    table re-serialised by [serialize_ini] (sorted, [key = value]) and
    UTF-8 encoded. *)
Theorem patch_only_pass_through parse dsyn write rel fs c :
  fs (MapDir, rel) = None -> fs (ExtraDir, rel) = None -> fs (OutDir, rel) = None ->
  fs (PatchDir, rel) = Some (File c) -> out_parents_free fs rel ->
  (py_suffix rel = ".xml" -> forall n, parse c = Some n ->
     exists fs', merge_file_triple parse dsyn write rel fs = Done fs' [] /\
                 fs' (OutDir, rel) = Some (File c)) /\
  (py_suffix rel = ".xml" -> parse c = None ->
     exists fs', merge_file_triple parse dsyn write rel fs = Done fs' [InvalidXml (PatchDir, rel)] /\
                 fs' (OutDir, rel) = None) /\
  (py_suffix rel = ".ini" \/ py_suffix rel = ".txt" ->
     exists fs', merge_file_triple parse dsyn write rel fs = Done fs' [] /\
                 fs' (OutDir, rel) = Some (File (utf8_encode (serialize_ini (read_ini_text c))))) /\
  (py_suffix rel <> ".xml" -> py_suffix rel <> ".ini" -> py_suffix rel <> ".txt" ->
     exists fs', merge_file_triple parse dsyn write rel fs = Done fs' [] /\
                 fs' (OutDir, rel) = Some (File c)).
Proof.
  intros Hb He Ho Hp Hfree.
  assert (Hany : (exists_ fs (MapDir, rel) || exists_ fs (PatchDir, rel) || exists_ fs (ExtraDir, rel)) = true)
    by (rewrite (exists_File _ _ _ Hp), orb_true_r; reflexivity).
  split_and!.
  - intros Hx n Hn. enter_triple Hany Hfree.
    assert (String.eqb (py_suffix rel) ".xml" = true) as -> by (rewrite Hx; reflexivity).
    cbn iota beta. exists_at_rel Hrel.
    rewrite (exists_None _ _ Hb), then_Done_nil. cbn beta. exists_at_rel Hrel.
    rewrite (exists_File _ _ _ Hp).
    unfold merge_catalog_xml, safe_parse. rewrite (Hrel OutDir), Ho, (Hrel PatchDir), Hp, Hn.
    cbn iota beta zeta. cbn [app]. rewrite then_Done_nil.
    rewrite (mkdir_parent_dirs (OutDir, rel)) by exact Hdirs. rewrite then_Done_nil.
    rewrite (shutil_copy_ok _ _ c); [|done|rewrite Hrel; exact Hp|exact Hdirs|rewrite Hrel, Ho; done].
    rewrite then_Done_nil. unfold exists_. rewrite fs_write_other by congruence.
    rewrite Hrel, He. eexists. split; [reflexivity|apply fs_write_same].
  - intros Hx Hn. enter_triple Hany Hfree.
    assert (String.eqb (py_suffix rel) ".xml" = true) as -> by (rewrite Hx; reflexivity).
    cbn iota beta. exists_at_rel Hrel.
    rewrite (exists_None _ _ Hb), then_Done_nil. cbn beta. exists_at_rel Hrel.
    rewrite (exists_File _ _ _ Hp).
    unfold merge_catalog_xml, safe_parse. rewrite (Hrel OutDir), Ho, (Hrel PatchDir), Hp, Hn.
    cbn iota beta zeta. cbn [app then_]. exists_at_rel Hrel. rewrite (exists_None _ _ He).
    eexists. split; [reflexivity|]. by rewrite Hrel.
  - intros Hs.
    assert (Hnd : no_dir_at fs rel) by (intros []; congruence).
    assert (Hpe : (exists_ fs (PatchDir, rel) || exists_ fs (ExtraDir, rel)) = true)
      by (rewrite (exists_File _ _ _ Hp); reflexivity).
    destruct (proj2 (ini_triple_route parse dsyn write rel fs Hs Hnd Hfree Hany) Hpe) as (fs' & E & Hout).
    rewrite (read_table_None _ _ Hb), (read_table_None _ _ He) in E, Hout.
    unfold read_table in E, Hout. rewrite Hp in E, Hout.
    rewrite ini_merge_tables_patch_only in E, Hout by apply read_ini_text_wf.
    exists fs'. split; [exact E|exact Hout].
  - intros Hx Hi Ht. enter_triple Hany Hfree.
    rewrite (proj2 (String.eqb_neq _ _) Hx), (proj2 (String.eqb_neq _ _) Hi),
            (proj2 (String.eqb_neq _ _) Ht). cbn iota. exists_at_rel Hrel.
    rewrite (exists_None _ _ He), (exists_File _ _ _ Hp).
    rewrite (shutil_copy_ok _ _ c); [|done|rewrite Hrel; exact Hp|exact Hdirs|rewrite Hrel, Ho; done].
    eexists. split; [reflexivity|apply fs_write_same].
Qed.

Lemma patch_only_pass_through_witness :
  let rel := "Base.SC2Data/GameData/x.ini" in
  let c := ("a=1" ++ lf)%string in
  let fs := single_file_fs (PatchDir, rel) c in
  (fs (MapDir, rel) = None /\ fs (ExtraDir, rel) = None /\ fs (OutDir, rel) = None /\
   fs (PatchDir, rel) = Some (File c) /\ out_parents_free fs rel) /\
  (py_suffix rel = ".ini" \/ py_suffix rel = ".txt" ->
     exists fs', merge_file_triple (fun _ => None) false (fun _ => "") rel fs = Done fs' [] /\
                 fs' (OutDir, rel) = Some (File (utf8_encode (serialize_ini (read_ini_text c))))).
Proof.
  intros rel c fs.
  assert (Hfree : out_parents_free fs rel) by (apply single_file_fs_parents; done).
  split; [split_and!; [vm_compute; reflexivity ..|exact Hfree]|].
  apply (patch_only_pass_through (fun _ => None) false (fun _ => "") rel fs c);
    [vm_compute; reflexivity ..|exact Hfree].
Defined.

(** C9, as stated, fails on the section-table route: a Patch-only file
    [b=1], [a=2] comes out sorted and reformatted as [a = 2], [b = 1]. *)
Lemma patch_only_ini_rewritten :
  let c := ("b=1" ++ lf ++ "a=2" ++ lf)%string in
  match merge_file_triple (fun _ => None) false (fun _ => "") "x.ini" (single_file_fs (PatchDir, "x.ini") c) with
  | Done fs' _ => fs' (OutDir, "x.ini") = Some (File ("a = 2" ++ lf ++ "b = 1" ++ lf ++ lf)%string) /\
                  fs' (OutDir, "x.ini") <> Some (File c)
  | Raised _ _ => False
  end.
Proof. vm_compute. split; [reflexivity|discriminate]. Qed.

(* ------------------------------------------------------------------ *)
(** ** Signatures: [==] on signature tuples *)



(* ------------------------------------------------------------------ *)
(** ** Attributes of merged nodes *)

Lemma merge_xml_children_nodes_eq target source r :
  merge_xml_children_nodes target source = Some r <->
  exists kids', merge_children_go merge_xml_children_nodes (children source) (children target)
                  (build_key_map (children target)) = Some kids' /\
                r = Node (tag target) (set_attrs (attrib target) (attrib source)) (text target) kids'.
Proof.
  destruct source as [st sa sx sk], target as [tt ta tx tk]. cbn [merge_xml_children_nodes].
  cbn [children tag attrib text].
  destruct (merge_children_go merge_xml_children_nodes sk tk (build_key_map tk)) as [kids'|].
  - split; [intros [=<-]; eauto|]. intros (? & [=<-] & ->). done.
  - split; [done|]. intros (? & ? & _). done.
Qed.

Lemma dict_set_same {K V} `{EqDecision K} (k : K) (v : V) d :
  dict_get k d = Some v -> dict_set k v d = d.
Proof.
  induction d as [|[k0 v0] d IH]; simpl; [done|].
  case_decide as Hk; [intros [=->]; by subst|]. intros Hg. by rewrite IH.
Qed.

Lemma set_attrs_get ta sa k :
  NoDup sa.*1 ->
  dict_get k (set_attrs ta sa) =
    match dict_get k sa with Some v => Some v | None => dict_get k ta end.
Proof.
  unfold set_attrs. revert ta.
  induction sa as [|[k0 v0] sa IH]; intros ta Hnd; [done|].
  rewrite fmap_cons in Hnd. inversion Hnd as [|? ? Hk Hnd']; subst.
  cbn [fold_left]. rewrite IH by done. cbn [dict_get]. rewrite dict_get_set.
  destruct (decide (k = k0)) as [->|]; [|done].
  by rewrite (proj2 (dict_get_None_iff k0 sa) Hk).
Qed.

Lemma set_attrs_sub ta sa :
  NoDup ta.*1 -> (forall p, p ∈ sa -> p ∈ ta) -> set_attrs ta sa = ta.
Proof.
  unfold set_attrs. induction sa as [|[k v] sa IH]; intros Hnd Hsub; [done|].
  cbn [fold_left]. rewrite dict_set_same.
  - apply IH; [done|]. intros p Hp. apply Hsub. by right.
  - apply elem_dict_get; [done|]. apply Hsub. by left.
Qed.

Lemma set_attrs_self a : NoDup a.*1 -> set_attrs a a = a.
Proof. intros Hnd. by apply set_attrs_sub. Qed.


Lemma merge_catalog_nodes_root a b r :
  merge_catalog_nodes a b = Some r ->
  tag r = tag a /\ attrib r = attrib a /\
  catalog_go (build_by_id (children a)) (children b) (children a) = Some (children r).
Proof.
  unfold merge_catalog_nodes.
  destruct (catalog_go _ _ _) as [kids|]; [|done]. by intros [=<-].
Qed.

Lemma ini_merge_tables_get2 b p e s k :
  wf_table p -> wf_table e ->
  get2 (ini_merge_tables b p e).1 s k =
    match get2 e s k with
    | Some v => Some v
    | None => match get2 p s k with Some v => Some v | None => get2 b s k end
    end.
Proof.
  intros Hp He. rewrite ini_merge_tables_fst.
  rewrite (proj1 (merge_dicts_spec _ e "extra" He)), (proj1 (merge_dicts_spec b p "patch" Hp)).
  done.
Qed.

(** C1 (as the code behaves): each merge step gives the incoming tier's
    value precedence over the one merged into: a matched node (at any
    depth) ends with the attributes of the incoming node, and keeps the
    others it had; a section-table key takes Overlay's value, else
    Patch's, else Base's.  The root element of the merged document takes
    its tag and attributes from the first document alone: the root's
    attributes of the higher tiers are dropped. *)
Theorem priority_law_as_merged :
  (forall target source r, NoDup (attrib source).*1 ->
     merge_xml_children_nodes target source = Some r ->
     forall k, dict_get k (attrib r) =
       match dict_get k (attrib source) with Some v => Some v | None => dict_get k (attrib target) end) /\
  (forall a b r, merge_catalog_nodes a b = Some r -> tag r = tag a /\ attrib r = attrib a) /\
  (forall b p e, wf_table p -> wf_table e -> forall s k,
     get2 (ini_merge_tables b p e).1 s k =
       match get2 e s k with
       | Some v => Some v
       | None => match get2 p s k with Some v => Some v | None => get2 b s k end
       end).
Proof.
  split_and!.
  - intros target source r Hnd Hm k.
    apply merge_xml_children_nodes_eq in Hm as (kids' & _ & ->). cbn [attrib].
    by apply set_attrs_get.
  - intros a b r Hm. apply merge_catalog_nodes_root in Hm. naive_solver.
  - intros b p e Hp He s k. by apply ini_merge_tables_get2.
Qed.

(** C1, as stated, fails for the root element: merging a Patch root with
    [v="2"] into a Base root with [v="1"] keeps [v="1"]. *)
Lemma root_attribute_from_base :
  merge_catalog_nodes (Node "Catalog" [("v", "1")] None []) (Node "Catalog" [("v", "2")] None []) =
    Some (Node "Catalog" [("v", "1")] None []).
Proof. reflexivity. Qed.

(* ------------------------------------------------------------------ *)
(** ** Signatures that cannot be sorted *)

(** C4: two [amount] children that differ only in having no text and
    the text [5] make [sorted(children_counter.items())] compare [None]
    with ["5"], which raises [TypeError], in either child order; merging
    such an anonymous child into a node then raises instead of
    returning a merged node. *)
Theorem signature_mixed_text_type_error :
  element_signature (Node "effect" [] None [Node "amount" [] None []; Node "amount" [] (Some "5") []]) = None /\
  element_signature (Node "effect" [] None [Node "amount" [] (Some "5") []; Node "amount" [] None []]) = None /\
  merge_xml_children_nodes (Node "CUnit" [("id", "Marine")] None [])
    (Node "CUnit" [("id", "Marine")] None
       [Node "effect" [] None [Node "amount" [] None []; Node "amount" [] (Some "5") []]]) = None.
Proof. split_and!; reflexivity. Qed.

(* ------------------------------------------------------------------ *)
(** ** Fallback of [merge_catalog_xml] *)

Lemma safe_parse_invalid parse dsyn fs p :
  fs p <> Some Dir -> (forall c, fs p = Some (File c) -> parse c = None) ->
  safe_parse parse dsyn fs p = inr (None, invalid_warning fs p).
Proof.
  intros Hd Hp. unfold safe_parse, invalid_warning, exists_.
  destruct (fs p) as [[c|]|]; [by rewrite (Hp c eq_refl)|done|done].
Qed.

(** C8: [merge_catalog_xml] falls back as intended when its inputs are
    files or missing: with neither input parsing it writes nothing and
    prints a warning for each file that exists; with only [file_b]
    parsing, and the output a file of its own whose parent folders
    exist, it copies [file_b] verbatim.  But [merge_file_triple] calls it
    with the output file as the first input, so a Base that parses and a
    Patch that does not make it run [shutil.copy(dest, dest)], which
    raises [SameFileError] and stops the whole merge. *)
Theorem xml_patch_unparseable_self_copy :
  (forall parse dsyn write a b out fs,
     fs a <> Some Dir -> fs b <> Some Dir ->
     (forall c, fs a = Some (File c) -> parse c = None) ->
     (forall c, fs b = Some (File c) -> parse c = None) ->
     merge_catalog_xml parse dsyn write a b out fs =
       Done fs (invalid_warning fs a ++ invalid_warning fs b)%list) /\
  (forall parse dsyn write a b rel cb n fs,
     b.1 <> OutDir -> fs a <> Some Dir ->
     (forall c, fs a = Some (File c) -> parse c = None) ->
     fs b = Some (File cb) -> parse cb = Some n ->
     dirs_at OutDir (ancestors rel) fs -> fs (OutDir, rel) <> Some Dir ->
     merge_catalog_xml parse dsyn write a b (OutDir, rel) fs =
       Done (fs_write fs (OutDir, rel) (File cb)) (invalid_warning fs a)) /\
  (forall dsyn,
     merge_file_triple
       (fun c => if String.eqb c "<Catalog/>" then Some (Node "Catalog" [] None []) else None)
       dsyn (fun _ => "") "Foo.xml"
       (fun p => if decide (p = (MapDir, "Foo.xml")) then Some (File "<Catalog/>")
                 else if decide (p = (PatchDir, "Foo.xml")) then Some (File "<Catalog") else None) =
       Raised SameFileError [InvalidXml (PatchDir, "Foo.xml")]).
Proof.
  split_and!.
  - intros parse dsyn write a b out fs Hda Hdb Ha Hb. unfold merge_catalog_xml.
    rewrite !safe_parse_invalid by done. reflexivity.
  - intros parse dsyn write a b rel cb n fs Hbt Hda Ha Hb Hn Hdirs Hout. unfold merge_catalog_xml.
    rewrite safe_parse_invalid by done.
    assert (Hs : safe_parse parse dsyn fs b = inr (Some n, [])) by (unfold safe_parse; by rewrite Hb, Hn).
    rewrite Hs. cbn iota beta zeta. rewrite app_nil_r.
    cbn [then_]. rewrite (mkdir_parent_dirs (OutDir, rel)) by exact Hdirs.
    rewrite then_Done_nil, (shutil_copy_ok _ _ cb) by done.
    by rewrite !app_nil_r.
  - intros []; reflexivity.
Qed.

(* ------------------------------------------------------------------ *)
(** ** The root index [by_id] and merging a document with itself *)

Lemma by_id_fold_step (m : list (string * nat)) i c :
  (fun '(m, i) c =>
     match dict_get "id" (attrib c) with
     | Some cid => if String.eqb cid EmptyString then (m, S i) else (dict_set cid i m, S i)
     | None => (m, S i)
     end) (m, i) c =
  match root_id c with Some cid => (dict_set cid i m, S i) | None => (m, S i) end.
Proof. unfold root_id. destruct (dict_get "id" (attrib c)) as [cid|]; [|done]. by destruct (String.eqb cid ""). Qed.

Lemma by_id_fold_found l : forall m i cid j,
  dict_get cid (fold_left (fun '(m, i) c =>
     match dict_get "id" (attrib c) with
     | Some cid => if String.eqb cid EmptyString then (m, S i) else (dict_set cid i m, S i)
     | None => (m, S i)
     end) l (m, i)).1 = Some j ->
  dict_get cid m = Some j \/ (i <= j /\ exists x, l !! (j - i) = Some x /\ root_id x = Some cid).
Proof.
  induction l as [|c l IH]; intros m i cid j; cbn [fold_left]; [by left|].
  rewrite by_id_fold_step. intros H.
  destruct (root_id c) as [cid'|] eqn:Hc.
  - destruct (IH _ _ _ _ H) as [H1|(Hle & x & Hx & Hid)].
    + rewrite dict_get_set in H1. case_decide as Heq.
      * injection H1 as <-. subst. right. split; [lia|]. exists c. by rewrite Nat.sub_diag.
      * by left.
    + right. split; [lia|]. exists x. replace (j - i) with (S (j - S i)) by lia. done.
  - destruct (IH _ _ _ _ H) as [H1|(Hle & x & Hx & Hid)]; [by left|].
    right. split; [lia|]. exists x. replace (j - i) with (S (j - S i)) by lia. done.
Qed.

Lemma build_by_id_found l cid j :
  dict_get cid (build_by_id l) = Some j -> exists x, l !! j = Some x /\ root_id x = Some cid.
Proof.
  unfold build_by_id. intros H. apply by_id_fold_found in H as [H|(_ & x & Hx & Hid)]; [done|].
  exists x. by rewrite Nat.sub_0_r in Hx.
Qed.

Lemma by_id_fold_complete l : forall m i cid,
  (is_Some (dict_get cid m) \/ exists x, x ∈ l /\ root_id x = Some cid) ->
  is_Some (dict_get cid (fold_left (fun '(m, i) c =>
     match dict_get "id" (attrib c) with
     | Some cid => if String.eqb cid EmptyString then (m, S i) else (dict_set cid i m, S i)
     | None => (m, S i)
     end) l (m, i)).1).
Proof.
  induction l as [|c l IH]; intros m i cid H; cbn [fold_left].
  - destruct H as [H|(x & Hx & _)]; [done|]. by apply not_elem_of_nil in Hx.
  - rewrite by_id_fold_step. destruct (root_id c) as [cid'|] eqn:Hc; apply IH.
    + destruct H as [H|(x & Hx & Hid)].
      * left. rewrite dict_get_set. by case_decide.
      * apply elem_of_cons in Hx as [->|Hx].
        -- left. rewrite dict_get_set. rewrite Hc in Hid. injection Hid as ->. by rewrite decide_True.
        -- right. eauto.
    + destruct H as [H|(x & Hx & Hid)]; [by left|].
      apply elem_of_cons in Hx as [->|Hx]; [congruence|]. right; eauto.
Qed.

Lemma build_by_id_complete l c cid :
  c ∈ l -> root_id c = Some cid -> is_Some (dict_get cid (build_by_id l)).
Proof. intros Hc Hid. apply by_id_fold_complete. right; eauto. Qed.

Lemma by_id_fold_ext l1 : forall l2 m i,
  attrib <$> l1 = attrib <$> l2 ->
  fold_left (fun '(m, i) c =>
     match dict_get "id" (attrib c) with
     | Some cid => if String.eqb cid EmptyString then (m, S i) else (dict_set cid i m, S i)
     | None => (m, S i)
     end) l1 (m, i) =
  fold_left (fun '(m, i) c =>
     match dict_get "id" (attrib c) with
     | Some cid => if String.eqb cid EmptyString then (m, S i) else (dict_set cid i m, S i)
     | None => (m, S i)
     end) l2 (m, i).
Proof.
  induction l1 as [|c1 l1 IH]; intros [|c2 l2] m i H; try done.
  cbn [fold_left]. rewrite !fmap_cons in H. injection H as Ha Hl.
  rewrite Ha. destruct (dict_get "id" (attrib c2)) as [cid|]; [destruct (String.eqb cid "")|]; by apply IH.
Qed.

Lemma build_by_id_ext l1 l2 : attrib <$> l1 = attrib <$> l2 -> build_by_id l1 = build_by_id l2.
Proof. intros H. unfold build_by_id. by rewrite (by_id_fold_ext l1 l2). Qed.

Lemma build_by_id_app_noid l l' :
  Forall (fun c => root_id c = None) l' -> build_by_id (l ++ l')%list = build_by_id l.
Proof.
  unfold build_by_id. rewrite fold_left_app.
  destruct (fold_left _ l ([], 0%nat)) as [m i]. simpl. clear l.
  revert i. induction l' as [|c l' IH]; intros i Hf; [done|].
  apply Forall_cons in Hf as [Hc Hf]. cbn [fold_left]. rewrite by_id_fold_step, Hc. by apply IH.
Qed.

Lemma root_ids_unique l : forall i j x y cid,
  NoDup (root_ids l) -> l !! i = Some x -> l !! j = Some y ->
  root_id x = Some cid -> root_id y = Some cid -> i = j.
Proof.
  unfold root_ids. induction l as [|c l IH]; intros i j x y cid Hnd Hx Hy Hix Hiy; [done|].
  cbn [omap list_omap] in Hnd.
  destruct i as [|i], j as [|j]; simpl in Hx, Hy.
  - done.
  - injection Hx as ->. rewrite Hix in Hnd. apply NoDup_cons in Hnd as [Hn _].
    exfalso. apply Hn. apply list_elem_of_omap. exists y. split; [by eapply list_elem_of_lookup_2|done].
  - injection Hy as ->. rewrite Hiy in Hnd. apply NoDup_cons in Hnd as [Hn _].
    exfalso. apply Hn. apply list_elem_of_omap. exists x. split; [by eapply list_elem_of_lookup_2|done].
  - f_equal. destruct (root_id c); [apply NoDup_cons in Hnd as [_ Hnd]|]; by eapply IH.
Qed.

Lemma merge_keeps_tag_attrib tgt c m :
  tag_attrib tgt = tag_attrib c -> NoDup (attrib c).*1 ->
  merge_xml_children_nodes tgt c = Some m -> tag_attrib m = tag_attrib c.
Proof.
  intros Hta Hnd Hm. apply merge_xml_children_nodes_eq in Hm as (kids' & _ & ->).
  unfold tag_attrib in *. injection Hta as Ht Ha. cbn [tag attrib].
  rewrite Ht, Ha. by rewrite set_attrs_self.
Qed.

Lemma attrib_fmap (l : list node) : attrib <$> l = snd <$> (tag_attrib <$> l).
Proof. induction l as [|c l IH]; [done|]. by rewrite !fmap_cons, IH. Qed.

Lemma catalog_go_shape by_id cs : forall kids r,
  (forall c i, c ∈ cs -> root_lookup by_id c = Some i ->
     (tag_attrib <$> kids) !! i = Some (tag_attrib c) /\ NoDup (attrib c).*1) ->
  catalog_go by_id cs kids = Some r ->
  tag_attrib <$> r =
    ((tag_attrib <$> kids) ++ (tag_attrib <$> filter (fun c => root_lookup by_id c = None) cs))%list.
Proof.
  induction cs as [|c cs IH]; intros kids r H Hgo; cbn [catalog_go] in Hgo.
  - injection Hgo as <-. by rewrite filter_nil, fmap_nil, app_nil_r.
  - destruct (root_lookup by_id c) as [i|] eqn:Hl.
    + destruct (H c i) as [Hi Hnd]; [by left|done|].
      rewrite list_lookup_fmap in Hi. apply fmap_Some in Hi as (tgt & Htgt & Hta).
      rewrite Htgt in Hgo.
      destruct (merge_xml_children_nodes tgt c) as [m|] eqn:Hm; [|done].
      apply merge_keeps_tag_attrib in Hm; [|done..].
      rewrite filter_cons_False by congruence.
      assert (Hk : tag_attrib <$> <[i:=m]> kids = tag_attrib <$> kids).
      { rewrite list_fmap_insert, Hm. apply list_insert_id.
        rewrite list_lookup_fmap, Htgt. simpl. by rewrite Hta. }
      rewrite <-Hk. apply IH; [|done].
      intros c' i' Hc' Hl'. rewrite Hk. apply H; [by right|done].
    + rewrite filter_cons_True by done.
      rewrite (IH (kids ++ [c])%list r); [by rewrite fmap_app, fmap_cons, <-app_assoc| |done].
      intros c' i' Hc' Hl'. destruct (H c' i') as [Hi Hnd]; [by right|done|].
      split; [|done]. rewrite fmap_app. by apply lookup_app_l_Some.
Qed.

Lemma root_lookup_by_id l c i :
  NoDup (root_ids l) -> c ∈ l -> root_lookup (build_by_id l) c = Some i -> l !! i = Some c.
Proof.
  intros Hnd Hc Hl. unfold root_lookup in Hl.
  destruct (dict_get "id" (attrib c)) as [cid|] eqn:Hid; [|done]. simpl in Hl.
  apply build_by_id_found in Hl as (x & Hx & Hix).
  assert (Hic : root_id c = Some cid).
  { unfold root_id in Hix |- *. rewrite Hid.
    destruct (dict_get "id" (attrib x)); [|done].
    destruct (String.eqb s "") eqn:Hs; [done|]. injection Hix as <-. by rewrite Hs. }
  apply list_elem_of_lookup_1 in Hc as [j Hj].
  by rewrite (root_ids_unique l i j x c cid Hnd Hx Hj Hix Hic), Hj.
Qed.

Lemma root_lookup_none l c :
  c ∈ l -> root_lookup (build_by_id l) c = None <-> root_id c = None.
Proof.
  intros Hc. unfold root_lookup.
  destruct (root_id c) as [cid|] eqn:Hr.
  - assert (Hid : dict_get "id" (attrib c) = Some cid).
    { unfold root_id in Hr. destruct (dict_get "id" (attrib c)); [|done].
      destruct (String.eqb s ""); congruence. }
    rewrite Hid. simpl. destruct (build_by_id_complete l c cid Hc Hr) as [j ->]. done.
  - split; [done|]. intros _.
    destruct (dict_get "id" (attrib c)) as [cid|] eqn:Hid; [|done]. simpl.
    destruct (dict_get cid (build_by_id l)) as [j|] eqn:Hj; [|done].
    apply build_by_id_found in Hj as (x & _ & Hx).
    unfold root_id in Hr, Hx. rewrite Hid in Hr.
    destruct (String.eqb cid "") eqn:He; [|done].
    apply String.eqb_eq in He. subst cid.
    destruct (dict_get "id" (attrib x)); [|done].
    destruct (String.eqb s "") eqn:Hs; [done|]. injection Hx as ->. done.
Qed.

(** C2 (as the code behaves): merging a document [T] with itself as
    Base, Patch and Overlay, when the merge completes and the non-empty
    ids of [T]'s root children are distinct, keeps [T]'s root tag and
    attributes and [T]'s root children with their tags and attributes,
    in order; every root child without a non-empty id is appended again
    by each of the two merge steps, so it occurs three times. *)
Theorem self_merge_shape (T r : node) :
  NoDup (root_ids (children T)) ->
  Forall (fun c => NoDup (attrib c).*1) (children T) ->
  merge_xml_chain T T T = Some r ->
  tag r = tag T /\ attrib r = attrib T /\
  tag_attrib <$> children r =
    tag_attrib <$> (children T ++ filter (fun c => root_id c = None) (children T)
                               ++ filter (fun c => root_id c = None) (children T))%list.
Proof.
  intros Hnd Hattr Hchain. unfold merge_xml_chain in Hchain.
  destruct (merge_catalog_nodes T T) as [m|] eqn:E1; [|done].
  apply merge_catalog_nodes_root in E1 as (Htm & Ham & Hm).
  apply merge_catalog_nodes_root in Hchain as (Htr & Har & Hr).
  set (L := children T) in *. set (N := filter (fun c => root_id c = None) L).
  assert (HF : filter (fun c => root_lookup (build_by_id L) c = None) L = N).
  { unfold N. clearbody L. clear -Hnd.
    assert (Hsub : forall l : list node, (forall c, c ∈ l -> c ∈ L) ->
      filter (fun c => root_lookup (build_by_id L) c = None) l = filter (fun c => root_id c = None) l).
    { induction l as [|c l IH]; intros Hs; [done|]. rewrite !filter_cons.
      pose proof (root_lookup_none L c (Hs c ltac:(by left))) as Hc.
      rewrite IH by (intros c' Hc'; apply Hs; by right).
      do 2 case_decide; naive_solver. }
    by apply Hsub. }
  assert (HK : forall c i, c ∈ L -> root_lookup (build_by_id L) c = Some i ->
            (tag_attrib <$> L) !! i = Some (tag_attrib c) /\ NoDup (attrib c).*1).
  { intros c i Hc Hl. split.
    - rewrite list_lookup_fmap. by rewrite (root_lookup_by_id L c i Hnd Hc Hl).
    - by eapply Forall_forall in Hattr. }
  pose proof (catalog_go_shape _ _ _ _ HK Hm) as Hs1. rewrite HF in Hs1.
  assert (Hb : build_by_id (children m) = build_by_id L).
  { rewrite (build_by_id_ext (children m) (L ++ N)%list).
    - apply build_by_id_app_noid. apply Forall_forall. intros c Hc.
      unfold N in Hc. apply list_elem_of_filter in Hc as [Hc _]. exact Hc.
    - rewrite !attrib_fmap, Hs1. by rewrite !fmap_app. }
  rewrite Hb in Hr.
  assert (HK2 : forall c i, c ∈ L -> root_lookup (build_by_id L) c = Some i ->
            (tag_attrib <$> children m) !! i = Some (tag_attrib c) /\ NoDup (attrib c).*1).
  { intros c i Hc Hl. destruct (HK c i Hc Hl) as [Hi ?]. split; [|done].
    rewrite Hs1. by apply lookup_app_l_Some. }
  pose proof (catalog_go_shape _ _ _ _ HK2 Hr) as Hs2. rewrite HF in Hs2.
  split_and!; [congruence|congruence|].
  rewrite Hs2, Hs1, !fmap_app. by rewrite app_assoc.
Qed.
(* ------------------------------------------------------------------ *)
(** ** Children without attributes: the loop of [merge_xml_children_nodes] *)

Lemma km_mem_cons k j k0 l0 km : km_mem k j ((k0, l0) :: km) <-> (k = k0 /\ j ∈ l0) \/ km_mem k j km.
Proof.
  unfold km_mem. split.
  - intros (l & Hin & Hj). apply elem_of_cons in Hin as [[=-> ->]|Hin]; [by left|right; eauto].
  - intros [[-> Hj]|(l & Hin & Hj)]; [exists l0; split; [left|]; done|].
    exists l. split; [by right|done].
Qed.

Lemma km_mem_nil k j : km_mem k j [] <-> False.
Proof. unfold km_mem. split; [intros (l & Hin & _); by apply not_elem_of_nil in Hin|done]. Qed.

Lemma km_mem_app k j km1 km2 : km_mem k j (km1 ++ km2)%list <-> km_mem k j km1 \/ km_mem k j km2.
Proof.
  induction km1 as [|[k0 l0] km1 IH]; simpl; [rewrite km_mem_nil; tauto|].
  rewrite !km_mem_cons, IH. tauto.
Qed.

Lemma km_add_mem k i km k' j :
  km_mem k' j (km_add k i km) <-> km_mem k' j km \/ (k' = k /\ j = i).
Proof.
  unfold km_add. destruct (dict_get k km) as [l0|] eqn:Hg.
  - induction km as [|[k0 l1] km IH]; [done|]. cbn [dict_get dict_set] in Hg |- *.
    case_decide as Hk.
    + injection Hg as ->. subst k0. rewrite !km_mem_cons, elem_of_app, list_elem_of_singleton.
      naive_solver.
    + rewrite !km_mem_cons, IH by done. tauto.
  - rewrite km_mem_app, km_mem_cons, km_mem_nil, list_elem_of_singleton. tauto.
Qed.

Lemma unique_pool_mem t km j : j ∈ unique_pool t km <-> km_mem (KUnique (Some t)) j km.
Proof.
  unfold unique_pool. induction km as [|[k0 l0] km IH]; simpl.
  - rewrite km_mem_nil. split; [|done]. intros H; by apply not_elem_of_nil in H.
  - rewrite km_mem_cons. destruct k0 as [| | | |[t'|]]; simpl; try (rewrite IH; naive_solver).
    case_bool_decide as Ht; simpl.
    + rewrite elem_of_app, IH. naive_solver.
    + rewrite IH. naive_solver.
Qed.

Lemma dict_get_km_mem k l j (km : keymap) : dict_get k km = Some l -> j ∈ l -> km_mem k j km.
Proof. intros Hg Hj. exists l. split; [by apply dict_get_Some_elem|done]. Qed.

Lemma build_key_map_mem kids k j :
  km_mem k j (build_key_map kids) -> exists x, kids !! j = Some x /\ xml_identity_key x = k.
Proof.
  unfold build_key_map.
  assert (H : forall l pre km, kids = (pre ++ l)%list ->
            (forall k j, km_mem k j km -> exists x, kids !! j = Some x /\ xml_identity_key x = k) ->
            forall k j, km_mem k j (fold_left (fun '(km, i) c => (km_add (xml_identity_key c) i km, S i)) l (km, length pre)).1 ->
            exists x, kids !! j = Some x /\ xml_identity_key x = k).
  { induction l as [|c l IH]; intros pre km Hk Hinv; [done|].
    cbn [fold_left]. replace (S (length pre)) with (length (pre ++ [c])%list)
      by (rewrite length_app; simpl; lia).
    apply IH; [by rewrite <-app_assoc|].
    intros k' j' Hm. apply km_add_mem in Hm as [Hm|[-> ->]]; [by apply Hinv|].
    exists c. split; [|done]. rewrite Hk. rewrite lookup_app_r by lia.
    by rewrite Nat.sub_diag. }
  apply (H kids []); [done|]. intros k' j' Hm. by apply km_mem_nil in Hm.
Qed.


Lemma identity_key_not_pool x t : xml_identity_key x <> KUnique (Some t).
Proof.
  unfold xml_identity_key.
  destruct (dict_get "id" (attrib x)); [done|]. destruct (dict_get "index" (attrib x)); [done|].
  destruct (dict_get "value" (attrib x)); [done|]. by destruct (attrib x).
Qed.

















Lemma self_merge_shape_witness :
  NoDup (root_ids (children self_merge_doc)) /\
  Forall (fun c => NoDup (attrib c).*1) (children self_merge_doc) /\
  merge_xml_chain self_merge_doc self_merge_doc self_merge_doc = Some self_merge_result /\
  (tag self_merge_result = tag self_merge_doc /\ attrib self_merge_result = attrib self_merge_doc /\
   tag_attrib <$> children self_merge_result =
     tag_attrib <$> (children self_merge_doc
                     ++ filter (fun c => root_id c = None) (children self_merge_doc)
                     ++ filter (fun c => root_id c = None) (children self_merge_doc))%list).
Proof.
  assert (H1 : NoDup (root_ids (children self_merge_doc)))
    by (apply (bool_decide_unpack _); vm_compute; exact I).
  assert (H2 : Forall (fun c => NoDup (attrib c).*1) (children self_merge_doc))
    by (apply (bool_decide_unpack _); vm_compute; exact I).
  assert (H3 : merge_xml_chain self_merge_doc self_merge_doc self_merge_doc = Some self_merge_result)
    by reflexivity.
  split; [exact H1|]. split; [exact H2|]. split; [exact H3|].
  exact (self_merge_shape self_merge_doc self_merge_result H1 H2 H3).
Defined.

(** C2, as stated, fails: a root child with no id, merged with itself
    three times, occurs three times in the result. *)
Lemma self_merge_triplicates :
  merge_xml_chain (Node "Catalog" [] None [Node "CUnit" [("index", "1")] None []])
                  (Node "Catalog" [] None [Node "CUnit" [("index", "1")] None []])
                  (Node "Catalog" [] None [Node "CUnit" [("index", "1")] None []]) =
    Some (Node "Catalog" [] None
            [Node "CUnit" [("index", "1")] None [];
             Node "CUnit" [("index", "1")] None [];
             Node "CUnit" [("index", "1")] None []]).
Proof. reflexivity. Qed.

(** C3: the pool of same-tag anonymous children that a source child
    without attributes is compared with is [key_map[("unique", tag)]],
    but [xml_identity_key] files every child of the target under
    [("unique", None)] or a key with a value: the pool of the initial key
    map is always empty, so a source child equal to a child the target
    already has is appended again.  [<effect><amount>5</amount></effect>]
    in both Base and Patch, inside a matched [CUnit] or at the root,
    comes out twice. *)
Theorem anonymous_dedup_misses_target_children :
  (forall t kids, unique_pool t (build_key_map kids) = []) /\
  merge_xml_children_nodes (Node "CUnit" [("id", "M")] None [effect_amount_5])
                           (Node "CUnit" [("id", "M")] None [effect_amount_5]) =
    Some (Node "CUnit" [("id", "M")] None [effect_amount_5; effect_amount_5]) /\
  merge_catalog_nodes (Node "Catalog" [] None [effect_amount_5])
                      (Node "Catalog" [] None [effect_amount_5]) =
    Some (Node "Catalog" [] None [effect_amount_5; effect_amount_5]).
Proof.
  split_and!; [|reflexivity|reflexivity].
  intros t kids. destruct (unique_pool t (build_key_map kids)) as [|j l] eqn:E; [done|].
  exfalso. assert (Hj : j ∈ unique_pool t (build_key_map kids)) by (rewrite E; left).
  apply unique_pool_mem, build_key_map_mem in Hj as (x & _ & Hx).
  by apply identity_key_not_pool in Hx.
Qed.

(* ------------------------------------------------------------------ *)
(** ** Keys of merged children *)

Lemma set_attrs_NoDup ta sa : NoDup ta.*1 -> NoDup (set_attrs ta sa).*1.
Proof.
  unfold set_attrs. revert ta. induction sa as [|[k v] sa IH]; intros ta Hnd; [done|].
  cbn [fold_left]. by apply IH, dict_set_NoDup.
Qed.

Lemma merge_keeps_key tgt c m :
  attrs_ok tgt -> attrs_ok c ->
  is_unique (xml_identity_key c) = false -> xml_identity_key tgt = xml_identity_key c ->
  merge_xml_children_nodes tgt c = Some m ->
  xml_identity_key m = xml_identity_key c /\ attrs_ok m.
Proof.
  unfold attrs_ok. intros Hnt Hnc Hu Hk Hm. apply merge_xml_children_nodes_eq in Hm as (kids' & _ & ->).
  split; [|cbn [attrib]; by apply set_attrs_NoDup].
  destruct tgt as [tt ta tx tk], c as [ct ca cx ck]. cbn [attrib tag] in *.
  unfold xml_identity_key in *. cbn [attrib tag] in *.
  rewrite !set_attrs_get by done.
  destruct (dict_get "id" ca), (dict_get "id" ta); try congruence;
  destruct (dict_get "index" ca), (dict_get "index" ta); try congruence;
  destruct (dict_get "value" ca), (dict_get "value" ta); cbn beta iota in *; try congruence.
  all: destruct ca as [|q ca']; cbn beta iota delta [is_unique] in *; try congruence;
       destruct ta as [|p ta']; cbn beta iota in *; try congruence.
  injection Hk as -> Hs0. assert (Hs : sorted_items (p :: ta') = sorted_items (q :: ca')) by exact Hs0.
  rewrite set_attrs_sub; [cbn beta iota; by rewrite Hs|done|].
  intros x Hx. rewrite <-(py_sorted_perm pair_ltb (p :: ta')).
  change (x ∈ sorted_items (p :: ta')). rewrite Hs. unfold sorted_items. by rewrite py_sorted_perm.
Qed.

Lemma keys_inv_init kids : Forall attrs_ok kids -> keys_inv kids (build_key_map kids).
Proof. intros Hf. split; [|done]. intros k j _ Hm. by apply build_key_map_mem. Qed.

Lemma keys_inv_insert kids km i tgt m :
  keys_inv kids km -> kids !! i = Some tgt ->
  xml_identity_key m = xml_identity_key tgt -> attrs_ok m ->
  keys_inv (<[i:=m]> kids) km /\ xml_identity_key <$> <[i:=m]> kids = xml_identity_key <$> kids.
Proof.
  intros [Hk Hf] Hi Hkey Hok. split; [split|].
  - intros k j Hu Hm. destruct (Hk k j Hu Hm) as (x & Hx & Hxk).
    destruct (decide (j = i)) as [->|Hne].
    + exists m. rewrite list_lookup_insert, decide_True by (split; [done|by eapply lookup_lt_Some]). split; [done|].
      rewrite Hi in Hx. injection Hx as ->. congruence.
    + exists x. by rewrite list_lookup_insert_ne by congruence.
  - by apply Forall_insert.
  - rewrite list_fmap_insert. apply list_insert_id. rewrite list_lookup_fmap, Hi. simpl. by rewrite Hkey.
Qed.

Lemma keys_inv_append kids km k c :
  keys_inv kids km -> attrs_ok c -> (is_unique k = false -> k = xml_identity_key c) ->
  keys_inv (kids ++ [c])%list (km_add k (length kids) km).
Proof.
  intros [Hk Hf] Hok Hkc. split.
  - intros k' j Hu Hm. apply km_add_mem in Hm as [Hm|[-> ->]].
    + destruct (Hk k' j Hu Hm) as (x & Hx & Hxk). exists x. split; [|done]. by apply lookup_app_l_Some.
    + exists c. split; [|by rewrite Hkc]. apply lookup_snoc_Some. by right.
  - apply Forall_app. split; [done|]. by apply Forall_singleton.
Qed.

Lemma merge_children_go_keys cs : forall kids km r,
  keys_inv kids km -> Forall attrs_ok cs ->
  merge_children_go merge_xml_children_nodes cs kids km = Some r ->
  (exists suf, suf `sublist_of` cs /\
     xml_identity_key <$> r = ((xml_identity_key <$> kids) ++ (xml_identity_key <$> suf))%list) /\
  (forall c, c ∈ cs -> is_unique (xml_identity_key c) = false -> xml_identity_key c ∈ xml_identity_key <$> r).
Proof.
  induction cs as [|child rest IH]; intros kids km r Hinv Hcs Hgo; cbn in Hgo.
  { injection Hgo as <-. split.
    - exists []. split; [apply sublist_nil_l|]. by rewrite app_nil_r.
    - intros c Hc. by apply not_elem_of_nil in Hc. }
  inversion Hcs as [|? ? Hok Hrest]; subst.
  (* keys of [kids] survive in the result *)
  assert (Hpre : forall kids' km', keys_inv kids' km' ->
            merge_children_go merge_xml_children_nodes rest kids' km' = Some r ->
            (forall k, k ∈ xml_identity_key <$> kids' -> k ∈ xml_identity_key <$> r)).
  { intros kids' km' Hi' Hg' k Hkin. destruct (IH kids' km' r Hi' Hrest Hg') as [(suf & _ & ->) _].
    apply elem_of_app. by left. }
  destruct (negb (is_unique (xml_identity_key child))) eqn:Hu.
  - apply negb_true_iff in Hu.
    destruct (dict_get (xml_identity_key child) km) as [[|i l]|] eqn:Hg.
    + (* [targets] is empty: append *)
      assert (Hi' := keys_inv_append kids km _ child Hinv Hok (fun _ => eq_refl)).
      destruct (IH _ _ _ Hi' Hrest Hgo) as [(suf & Hsub & Hr) Hall]. split.
      * exists (child :: suf). split; [by apply sublist_skip|]. rewrite Hr, fmap_app, <-app_assoc. done.
      * intros c [->|Hc]%elem_of_cons Hcu; [|by apply Hall].
        apply (Hpre _ _ Hi' Hgo). rewrite fmap_app. apply elem_of_app. right. by left.
    + destruct (proj1 Hinv (xml_identity_key child) i Hu (dict_get_km_mem _ _ _ _ Hg ltac:(by left)))
        as (tgt & Htgt & Htk).
      rewrite Htgt in Hgo.
      destruct (merge_xml_children_nodes tgt child) as [m|] eqn:Hm; [|done].
      assert (Htok : attrs_ok tgt) by (eapply Forall_lookup_1; [apply Hinv|done]).
      destruct (merge_keeps_key tgt child m Htok Hok Hu Htk Hm) as [Hmk Hmok].
      destruct (keys_inv_insert kids km i tgt m Hinv Htgt ltac:(congruence) Hmok) as [Hi' Hkeys].
      destruct (IH _ _ _ Hi' Hrest Hgo) as [(suf & Hsub & Hr) Hall]. split.
      * exists suf. split; [by apply sublist_cons|]. by rewrite Hr, Hkeys.
      * intros c [->|Hc]%elem_of_cons Hcu; [|by apply Hall].
        apply (Hpre _ _ Hi' Hgo). rewrite Hkeys, <-Htk.
        apply list_elem_of_fmap. exists tgt. split; [done|]. by eapply list_elem_of_lookup_2.
    + assert (Hi' := keys_inv_append kids km _ child Hinv Hok (fun _ => eq_refl)).
      destruct (IH _ _ _ Hi' Hrest Hgo) as [(suf & Hsub & Hr) Hall]. split.
      * exists (child :: suf). split; [by apply sublist_skip|]. rewrite Hr, fmap_app, <-app_assoc. done.
      * intros c [->|Hc]%elem_of_cons Hcu; [|by apply Hall].
        apply (Hpre _ _ Hi' Hgo). rewrite fmap_app. apply elem_of_app. right. by left.
  - apply negb_false_iff in Hu.
    destruct (element_signature child) as [s|]; [|done].
    destruct (found_equivalent kids (unique_pool (tag child) km) s) as [[|]|]; [| |done].
    + destruct (IH _ _ _ Hinv Hrest Hgo) as [(suf & Hsub & Hr) Hall]. split.
      * exists suf. split; [by apply sublist_cons|]. done.
      * intros c [->|Hc]%elem_of_cons Hcu; [congruence|by apply Hall].
    + assert (Hi' : keys_inv (kids ++ [child])%list (km_add (KUnique (Some (tag child))) (length kids) km))
        by (apply keys_inv_append; [done|done|done]).
      destruct (IH _ _ _ Hi' Hrest Hgo) as [(suf & Hsub & Hr) Hall]. split.
      * exists (child :: suf). split; [by apply sublist_skip|]. rewrite Hr, fmap_app, <-app_assoc. done.
      * intros c [->|Hc]%elem_of_cons Hcu; [congruence|by apply Hall].
Qed.

(** X12 (extra): [merge_xml_children_nodes] keeps the target's tag and the identity keys
    of its children in order, appends the keys of a sublist of the source's
    children, and every non-unique key of a source child ends up among the
    result's keys. *)
Theorem merge_children_keys target source r :
  Forall attrs_ok (children target) -> Forall attrs_ok (children source) ->
  merge_xml_children_nodes target source = Some r ->
  tag r = tag target /\
  (exists suf, suf `sublist_of` children source /\
     xml_identity_key <$> children r =
       ((xml_identity_key <$> children target) ++ (xml_identity_key <$> suf))%list) /\
  (forall c, c ∈ children source -> is_unique (xml_identity_key c) = false ->
     xml_identity_key c ∈ xml_identity_key <$> children r).
Proof.
  intros Ht Hs Hm. apply merge_xml_children_nodes_eq in Hm as (kids' & Hgo & ->).
  cbn [tag children]. split; [done|].
  exact (merge_children_go_keys _ _ _ _ (keys_inv_init _ Ht) Hs Hgo).
Qed.

Lemma merge_children_keys_witness :
  let target := Node "CUnit" [("id", "M")] None
                  [Node "Weapon" [("index", "0")] None []; Node "Flag" [] None []] in
  let source := Node "CUnit" [("id", "M"); ("v", "2")] None
                  [Node "Weapon" [("index", "0"); ("r", "5")] None []; Node "Weapon" [("index", "1")] None []] in
  let r := Node "CUnit" [("id", "M"); ("v", "2")] None
             [Node "Weapon" [("index", "0"); ("r", "5")] None []; Node "Flag" [] None [];
              Node "Weapon" [("index", "1")] None []] in
  merge_xml_children_nodes target source = Some r /\
  tag r = tag target /\
  (exists suf, suf `sublist_of` children source /\
     xml_identity_key <$> children r =
       ((xml_identity_key <$> children target) ++ (xml_identity_key <$> suf))%list) /\
  (forall c, c ∈ children source -> is_unique (xml_identity_key c) = false ->
     xml_identity_key c ∈ xml_identity_key <$> children r).
Proof.
  intros target source r.
  assert (H1 : Forall attrs_ok (children target))
    by (unfold attrs_ok; apply (bool_decide_unpack _); vm_compute; exact I).
  assert (H2 : Forall attrs_ok (children source))
    by (unfold attrs_ok; apply (bool_decide_unpack _); vm_compute; exact I).
  assert (H3 : merge_xml_children_nodes target source = Some r) by reflexivity.
  split; [exact H3|].
  exact (merge_children_keys target source r H1 H2 H3).
Defined.

Lemma merge_keeps_root_id tgt c m :
  attrs_ok c -> is_Some (dict_get "id" (attrib c)) ->
  merge_xml_children_nodes tgt c = Some m -> root_id m = root_id c.
Proof.
  intros Hnd [cid Hid] Hm. apply merge_xml_children_nodes_eq in Hm as (kids' & _ & ->).
  unfold root_id. cbn [attrib]. rewrite set_attrs_get by done. by rewrite Hid.
Qed.

Lemma root_lookup_id by_id c i : root_lookup by_id c = Some i -> is_Some (dict_get "id" (attrib c)).
Proof. unfold root_lookup. destruct (dict_get "id" (attrib c)); [eauto|done]. Qed.

Lemma catalog_go_ids by_id cs : forall kids r,
  (forall c i, c ∈ cs -> root_lookup by_id c = Some i ->
     (root_id <$> kids) !! i = Some (root_id c) /\ attrs_ok c) ->
  catalog_go by_id cs kids = Some r ->
  root_id <$> r =
    ((root_id <$> kids) ++ (root_id <$> filter (fun c => root_lookup by_id c = None) cs))%list.
Proof.
  induction cs as [|c cs IH]; intros kids r H Hgo; cbn [catalog_go] in Hgo.
  - injection Hgo as <-. by rewrite filter_nil, fmap_nil, app_nil_r.
  - destruct (root_lookup by_id c) as [i|] eqn:Hl.
    + destruct (H c i) as [Hi Hnd]; [by left|done|].
      rewrite list_lookup_fmap in Hi. apply fmap_Some in Hi as (tgt & Htgt & Hta).
      rewrite Htgt in Hgo.
      destruct (merge_xml_children_nodes tgt c) as [m|] eqn:Hm; [|done].
      apply merge_keeps_root_id in Hm; [|done|by eapply root_lookup_id].
      rewrite filter_cons_False by congruence.
      assert (Hk : root_id <$> <[i:=m]> kids = root_id <$> kids).
      { rewrite list_fmap_insert, Hm. apply list_insert_id.
        rewrite list_lookup_fmap, Htgt. simpl. by rewrite Hta. }
      rewrite <-Hk. apply IH; [|done].
      intros c' i' Hc' Hl'. rewrite Hk. apply H; [by right|done].
    + rewrite filter_cons_True by done.
      rewrite (IH (kids ++ [c])%list r); [by rewrite fmap_app, fmap_cons, <-app_assoc| |done].
      intros c' i' Hc' Hl'. destruct (H c' i') as [Hi Hnd]; [by right|done|].
      split; [|done]. rewrite fmap_app. by apply lookup_app_l_Some.
Qed.

Lemma root_lookup_found l c i :
  root_lookup (build_by_id l) c = Some i -> (root_id <$> l) !! i = Some (root_id c).
Proof.
  unfold root_lookup. destruct (dict_get "id" (attrib c)) as [cid|] eqn:Hid; [|done]. simpl.
  intros Hl. apply build_by_id_found in Hl as (x & Hx & Hix).
  rewrite list_lookup_fmap, Hx. simpl. rewrite Hix. f_equal.
  unfold root_id in Hix |- *. rewrite Hid.
  destruct (dict_get "id" (attrib x)) as [s|]; [|done].
  destruct (String.eqb s "") eqn:Hs; [done|]. injection Hix as <-. by rewrite Hs.
Qed.

(** X13 (extra): the root merge of [merge_catalog_xml] keeps the children of the first
    root in order and appends the second root's children whose id is not
    already known; every child id of either root appears in the result. *)
Theorem catalog_keeps_root_ids a b r :
  Forall attrs_ok (children b) -> merge_catalog_nodes a b = Some r ->
  root_id <$> children r =
    ((root_id <$> children a) ++
     (root_id <$> filter (fun c => root_lookup (build_by_id (children a)) c = None) (children b)))%list /\
  (forall c cid, c ∈ (children a ++ children b)%list -> root_id c = Some cid ->
     Some cid ∈ root_id <$> children r).
Proof.
  intros Hb Hm. apply merge_catalog_nodes_root in Hm as (_ & _ & Hgo).
  assert (Hids : root_id <$> children r =
    ((root_id <$> children a) ++
     (root_id <$> filter (fun c => root_lookup (build_by_id (children a)) c = None) (children b)))%list).
  { apply (catalog_go_ids _ _ _ _ ); [|done]. intros c i Hc Hl. split.
    - by apply root_lookup_found.
    - by eapply Forall_forall in Hb. }
  split; [done|]. intros c cid Hc Hcid. rewrite Hids, elem_of_app.
  apply elem_of_app in Hc as [Hc|Hc].
  - left. rewrite <-Hcid. by apply list_elem_of_fmap_2.
  - destruct (root_lookup (build_by_id (children a)) c) as [i|] eqn:Hl.
    + left. rewrite <-Hcid. apply root_lookup_found in Hl. by eapply list_elem_of_lookup_2.
    + right. rewrite <-Hcid. apply list_elem_of_fmap_2. by apply list_elem_of_filter.
Qed.

Lemma catalog_keeps_root_ids_witness :
  let a := Node "Catalog" [] None [Node "CUnit" [("id", "A")] None []; Node "CUnit" [] None []] in
  let b := Node "Catalog" [] None [Node "CUnit" [("id", "B")] None []; Node "CUnit" [("id", "A"); ("x", "1")] None []] in
  let r := Node "Catalog" [] None [Node "CUnit" [("id", "A"); ("x", "1")] None []; Node "CUnit" [] None [];
                                   Node "CUnit" [("id", "B")] None []] in
  merge_catalog_nodes a b = Some r /\
  root_id <$> children r =
    ((root_id <$> children a) ++
     (root_id <$> filter (fun c => root_lookup (build_by_id (children a)) c = None) (children b)))%list /\
  (forall c cid, c ∈ (children a ++ children b)%list -> root_id c = Some cid ->
     Some cid ∈ root_id <$> children r).
Proof.
  intros a b r.
  assert (H1 : Forall attrs_ok (children b))
    by (unfold attrs_ok; apply (bool_decide_unpack _); vm_compute; exact I).
  assert (H2 : merge_catalog_nodes a b = Some r) by reflexivity.
  split; [exact H2|].
  exact (catalog_keeps_root_ids a b r H1 H2).
Defined.

(* ------------------------------------------------------------------ *)
(** ** Path suffixes *)

Lemma rfind_dot_go_app l1 l2 i acc :
  rfind_dot_go (l1 ++ l2)%list i acc = rfind_dot_go l2 (i + length l1) (rfind_dot_go l1 i acc).
Proof.
  revert i acc. induction l1 as [|c l1 IH]; intros i acc; simpl; [by rewrite Nat.add_0_r|].
  rewrite IH. f_equal. lia.
Qed.

Lemma rfind_dot_go_nodot l i acc :
  (forall c, c ∈ l -> c <> "."%char) -> rfind_dot_go l i acc = acc.
Proof.
  revert i acc. induction l as [|c l IH]; intros i acc Hl; [done|]. simpl.
  assert (Hc : Ascii.eqb c "." = false).
  { apply Ascii.eqb_neq. apply Hl. by left. }
  rewrite Hc. apply IH. intros c' Hc'. apply Hl. by right.
Qed.

Lemma length_string_app (s1 s2 : string) : String.length (s1 ++ s2) = String.length s1 + String.length s2.
Proof. induction s1 as [|c s1 IH]; simpl; [done|by rewrite IH]. Qed.

Lemma substring_full s : substring 0 (String.length s) s = s.
Proof. induction s as [|c s IH]; simpl; [done|by rewrite IH]. Qed.

Lemma substring_split s i : i <= String.length s ->
  (substring 0 i s ++ substring i (String.length s - i) s)%string = s.
Proof.
  revert i. induction s as [|c s IH]; intros i Hi.
  - simpl in Hi. destruct i; [done|lia].
  - destruct i as [|i].
    + rewrite Nat.sub_0_r. simpl. by rewrite substring_full.
    + simpl in Hi |- *. transitivity (String c (substring 0 i s ++ substring i (String.length s - i) s)); [reflexivity|]. by rewrite IH by lia.
Qed.

Lemma substring_0_length s i : i <= String.length s -> String.length (substring 0 i s) = i.
Proof.
  revert i. induction s as [|c s IH]; intros i Hi; simpl in *.
  - destruct i; [done|lia].
  - destruct i as [|i]; simpl; [done|]. f_equal. apply IH. lia.
Qed.

Lemma substring_app_r (n e : string) :
  substring (String.length n) (String.length (n ++ e) - String.length n) (n ++ e) = e.
Proof.
  rewrite length_string_app. replace (String.length n + String.length e - String.length n)
    with (String.length e) by lia.
  induction n as [|c n IH]; [apply substring_full|exact IH].
Qed.

Lemma list_ascii_of_string_app (s1 s2 : string) :
  list_ascii_of_string (s1 ++ s2) = (list_ascii_of_string s1 ++ list_ascii_of_string s2)%list.
Proof. induction s1 as [|c s1 IH]; simpl; [done|by rewrite IH]. Qed.

Lemma length_list_ascii_of_string s : length (list_ascii_of_string s) = String.length s.
Proof. induction s; simpl; congruence. Qed.

(** X15 (extra): for an extension [e] without dots, [py_suffix] of a path is ["." ++ e]
    exactly when the last component of the path is a non-empty name followed
    by ["." ++ e]; so [.xml] is matched case-sensitively and a file named
    just [.xml] has no suffix. *)
Theorem py_suffix_ext rel e :
  e <> "" -> (forall c, c ∈ list_ascii_of_string e -> c <> "."%char) ->
  py_suffix rel = String "." e <-> exists n, n <> "" /\ path_name rel = (n ++ String "." e)%string.
Proof.
  intros He Hnd. unfold py_suffix. set (s := path_name rel). clearbody s. split.
  - destruct (rfind_dot_go (list_ascii_of_string s) 0 None) as [i|]; [|done].
    destruct ((0 <? i)%nat && (i <? String.length s - 1)%nat) eqn:Hb; [|done].
    apply andb_true_iff in Hb as [H1 H2]. apply Nat.ltb_lt in H1, H2.
    intros Hsub. exists (substring 0 i s). split.
    + intros Hn. assert (Hl := substring_0_length s i ltac:(lia)). rewrite Hn in Hl. simpl in Hl. lia.
    + rewrite <-Hsub. symmetry. apply substring_split. lia.
  - intros (n & Hn & ->).
    assert (Hr : rfind_dot_go (list_ascii_of_string (n ++ String "." e)) 0 None = Some (String.length n)).
    { rewrite list_ascii_of_string_app, rfind_dot_go_app, length_list_ascii_of_string.
      cbn [list_ascii_of_string rfind_dot_go].
      rewrite (rfind_dot_go_nodot _ _ _ Hnd). done. }
    rewrite Hr.
    assert (Hb : ((0 <? String.length n)%nat &&
                  (String.length n <? String.length (n ++ String "." e) - 1)%nat) = true).
    { rewrite length_string_app. cbn [String.length].
      destruct n as [|c n']; [done|]. destruct e as [|c' e']; [done|].
      cbn [String.length]. apply andb_true_iff; split; apply Nat.ltb_lt; lia. }
    rewrite Hb. apply substring_app_r.
Qed.

Lemma py_suffix_ext_witness :
  "xml" <> "" /\ (forall c, c ∈ list_ascii_of_string "xml" -> c <> "."%char) /\
  (py_suffix "Mods/Base.SC2Data/GameData/UnitData.XML" = ".xml" <->
   exists n, n <> "" /\ path_name "Mods/Base.SC2Data/GameData/UnitData.XML" = (n ++ ".xml")%string).
Proof.
  assert (H1 : "xml" <> "") by discriminate.
  assert (H2 : forall c, c ∈ list_ascii_of_string "xml" -> c <> "."%char).
  { intros c Hc. cbn in Hc. repeat (apply elem_of_cons in Hc as [->|Hc]; [discriminate|]).
    by apply not_elem_of_nil in Hc. }
  split_and!; [exact H1|exact H2|].
  exact (py_suffix_ext "Mods/Base.SC2Data/GameData/UnitData.XML" "xml" H1 H2).
Defined.


(* ------------------------------------------------------------------ *)
(** ** UTF-8: decoding what was encoded *)

Ltac nlia := zify; Z.to_euclidean_division_equations; lia.

Ltac bool_arith :=
  repeat match goal with
  | |- context [ (?a <? ?b)%N ] => destruct (N.ltb_spec a b); try lia
  | |- context [ (?a <=? ?b)%N ] => destruct (N.leb_spec a b); try lia
  | |- context [ (?a =? ?b)%N ] => destruct (N.eqb_spec a b); try lia
  end.

Lemma utf8_decode_2 b0 b1 rest :
  (194 <= b0 <= 223)%N -> utf8_cont b1 = true ->
  utf8_decode (b0 :: b1 :: rest) = ((b0 - 192) * 64 + (b1 - 128))%N :: utf8_decode rest.
Proof.
  intros Hb0 H1. cbn [utf8_decode].
  rewrite (proj2 (N.ltb_ge b0 128)) by lia.
  replace ((194 <=? b0) && (b0 <=? 223))%N with true
    by (symmetry; apply andb_true_iff; split; apply N.leb_le; lia).
  by rewrite H1.
Qed.

Lemma utf8_decode_3 b0 b1 b2 rest :
  (224 <= b0 <= 239)%N -> utf8_second_ok b0 b1 = true -> utf8_cont b2 = true ->
  utf8_decode (b0 :: b1 :: b2 :: rest) =
    ((b0 - 224) * 4096 + (b1 - 128) * 64 + (b2 - 128))%N :: utf8_decode rest.
Proof.
  intros Hb0 H1 H2. cbn [utf8_decode].
  rewrite (proj2 (N.ltb_ge b0 128)) by lia.
  replace ((194 <=? b0) && (b0 <=? 223))%N with false
    by (symmetry; apply andb_false_iff; right; apply N.leb_gt; lia).
  replace ((224 <=? b0) && (b0 <=? 239))%N with true
    by (symmetry; apply andb_true_iff; split; apply N.leb_le; lia).
  by rewrite H1, H2.
Qed.

Lemma utf8_decode_4 b0 b1 b2 b3 rest :
  (240 <= b0 <= 244)%N -> utf8_second_ok b0 b1 = true -> utf8_cont b2 = true -> utf8_cont b3 = true ->
  utf8_decode (b0 :: b1 :: b2 :: b3 :: rest) =
    ((b0 - 240) * 262144 + (b1 - 128) * 4096 + (b2 - 128) * 64 + (b3 - 128))%N :: utf8_decode rest.
Proof.
  intros Hb0 H1 H2 H3. cbn [utf8_decode].
  rewrite (proj2 (N.ltb_ge b0 128)) by lia.
  replace ((194 <=? b0) && (b0 <=? 223))%N with false
    by (symmetry; apply andb_false_iff; right; apply N.leb_gt; lia).
  replace ((224 <=? b0) && (b0 <=? 239))%N with false
    by (symmetry; apply andb_false_iff; right; apply N.leb_gt; lia).
  replace ((240 <=? b0) && (b0 <=? 244))%N with true
    by (symmetry; apply andb_true_iff; split; apply N.leb_le; lia).
  by rewrite H1, H2, H3.
Qed.

Lemma div_mod_64 x : x = (64 * (x / 64) + x mod 64)%N /\ (x mod 64 < 64)%N.
Proof. split; [apply N.div_mod; lia|apply N.mod_lt; lia]. Qed.

Lemma utf8_cont_lt b : (b < 64)%N -> utf8_cont (128 + b)%N = true.
Proof. intros Hb. unfold utf8_cont. bool_arith; done. Qed.

Lemma utf8_decode_encode_cp c rest :
  scalar_value c = true -> utf8_decode (utf8_encode_cp c ++ rest) = c :: utf8_decode rest.
Proof.
  unfold scalar_value. intros Hc. apply andb_true_iff in Hc as [H1 H2].
  apply N.ltb_lt in H1. apply negb_true_iff, andb_false_iff in H2.
  assert (Hs : (c < 55296 \/ 57343 < c)%N).
  { destruct H2 as [H2|H2]; apply N.leb_gt in H2; lia. }
  clear H2. unfold utf8_encode_cp.
  replace (c / 4096)%N with (c / 64 / 64)%N by (rewrite N.Div0.div_div; reflexivity).
  replace (c / 262144)%N with (c / 64 / 64 / 64)%N by (rewrite !N.Div0.div_div; reflexivity).
  destruct (div_mod_64 c) as [E0 L0].
  remember (c / 64)%N as q0 eqn:Q0. remember (c mod 64)%N as r0 eqn:R0. clear Q0 R0.
  destruct (div_mod_64 q0) as [E1 L1].
  remember (q0 / 64)%N as q1 eqn:Q1. remember (q0 mod 64)%N as r1 eqn:R1. clear Q1 R1.
  destruct (div_mod_64 q1) as [E2 L2].
  remember (q1 / 64)%N as q2 eqn:Q2. remember (q1 mod 64)%N as r2 eqn:R2. clear Q2 R2.
  subst c q0 q1.
  bool_arith; cbn [app].
  - cbn [utf8_decode]. rewrite (proj2 (N.ltb_lt _ _)) by lia. done.
  - rewrite utf8_decode_2 by ((apply utf8_cont_lt; lia) || lia). f_equal. lia.
  - rewrite utf8_decode_3 by ((apply utf8_cont_lt; lia) || lia || (unfold utf8_second_ok; bool_arith; apply utf8_cont_lt; lia)).
    f_equal. lia.
  - rewrite utf8_decode_4 by ((apply utf8_cont_lt; lia) || lia || (unfold utf8_second_ok; bool_arith; apply utf8_cont_lt; lia)).
    f_equal. lia.
Qed.

Lemma utf8_encode_cp_bytes c : scalar_value c = true -> Forall (fun b => b < 256)%N (utf8_encode_cp c).
Proof.
  unfold scalar_value. intros Hc. apply andb_true_iff in Hc as [H1 _]. apply N.ltb_lt in H1.
  unfold utf8_encode_cp. bool_arith; repeat constructor; nlia.
Qed.

Lemma bytes_of_string_of_bytes l : Forall (fun b => b < 256)%N l -> bytes_of (string_of_bytes l) = l.
Proof.
  intros Hl. unfold bytes_of, string_of_bytes. rewrite list_ascii_of_string_of_list_ascii.
  induction Hl as [|b l Hb _ IH]; [done|]. simpl. rewrite N_ascii_embedding by done. by f_equal.
Qed.

Lemma utf8_decode_encode s :
  Forall (fun c => scalar_value c = true) s -> utf8_decode (bytes_of (utf8_encode s)) = s.
Proof.
  intros Hs. unfold utf8_encode. rewrite bytes_of_string_of_bytes.
  - induction Hs as [|c s Hc _ IH]; [done|]. simpl. by rewrite utf8_decode_encode_cp, IH.
  - apply Forall_concat, Forall_map. eapply Forall_impl; [exact Hs|]. apply utf8_encode_cp_bytes.
Qed.

(* ------------------------------------------------------------------ *)
(** ** [str.strip] *)

Lemma lstrip_l_spaces ws l : Forall (fun c => py_isspace c = true) ws -> lstrip_l (ws ++ l) = lstrip_l l.
Proof. induction 1 as [|c ws Hc _ IH]; [done|]. simpl. by rewrite Hc. Qed.

Lemma lstrip_l_app w l :
  lstrip_l (w ++ l) = match lstrip_l w with [] => lstrip_l l | w' => (w' ++ l)%list end.
Proof.
  induction w as [|c w IH]; [done|]. simpl. destruct (py_isspace c); [done|]. done.
Qed.

Lemma py_strip_spaces_around ws1 w ws2 :
  Forall (fun c => py_isspace c = true) (ws1 ++ ws2) -> py_strip (ws1 ++ w ++ ws2) = py_strip w.
Proof.
  intros Hs. apply Forall_app in Hs as [H1 H2]. unfold py_strip.
  rewrite lstrip_l_spaces by done. rewrite lstrip_l_app.
  destruct (lstrip_l w) as [|c w'] eqn:E.
  - rewrite <-(app_nil_r ws2), lstrip_l_spaces by done. done.
  - rewrite rev_app_distr, lstrip_l_spaces by (by apply Forall_rev). done.
Qed.

Lemma py_strip_all_spaces ws : Forall (fun c => py_isspace c = true) ws -> py_strip ws = [].
Proof.
  intros Hs. unfold py_strip. rewrite <-(app_nil_r ws), lstrip_l_spaces by done. done.
Qed.

Lemma norm_text_spaces_around ws1 w ws2 :
  Forall (fun c => scalar_value c = true) (ws1 ++ w ++ ws2) ->
  Forall (fun c => py_isspace c = true) (ws1 ++ ws2) ->
  norm_text (Some (utf8_encode (ws1 ++ w ++ ws2))) = norm_text (Some (utf8_encode w)).
Proof.
  intros Hv Hs. cbn [norm_text].
  rewrite !utf8_decode_encode by (done || (apply Forall_app in Hv as [_ Hv]; by apply Forall_app in Hv as [Hv _])).
  by rewrite py_strip_spaces_around.
Qed.

Lemma norm_text_all_spaces ws :
  Forall (fun c => scalar_value c = true) ws -> Forall (fun c => py_isspace c = true) ws ->
  norm_text (Some (utf8_encode ws)) = None.
Proof.
  intros Hv Hs. cbn [norm_text]. rewrite utf8_decode_encode by done. by rewrite py_strip_all_spaces.
Qed.

(* ------------------------------------------------------------------ *)
(** ** Signatures *)

(** X14 (extra): [element_signature] does not depend on the order of the
    attributes, nor on whitespace ([str.isspace], any Unicode white
    space) around the text; text that is all white space counts as no
    text. *)
Theorem signature_attr_order_text t a1 a2 ws1 w ws2 cs :
  a1 ≡ₚ a2 ->
  Forall (fun c => scalar_value c = true) (ws1 ++ w ++ ws2) ->
  Forall (fun c => py_isspace c = true) (ws1 ++ ws2) ->
  element_signature (Node t a1 (Some (utf8_encode (ws1 ++ w ++ ws2))) cs) =
    element_signature (Node t a2 (Some (utf8_encode w)) cs) /\
  (Forall (fun c => py_isspace c = true) w ->
   element_signature (Node t a1 (Some (utf8_encode w)) cs) = element_signature (Node t a2 None cs)).
Proof.
  intros Ha Hv Hs. split.
  - cbn [element_signature]. rewrite (sorted_items_perm a1 a2 Ha), norm_text_spaces_around by done.
    reflexivity.
  - intros Hw. cbn [element_signature]. rewrite (sorted_items_perm a1 a2 Ha), norm_text_all_spaces.
    + reflexivity.
    + apply Forall_app in Hv as [_ Hv]. by apply Forall_app in Hv as [Hv _].
    + done.
Qed.

Lemma signature_attr_order_text_witness :
  [("b", "2"); ("a", "1")] ≡ₚ [("a", "1"); ("b", "2")] /\
  Forall (fun c => scalar_value c = true) ([12288%N; 32%N] ++ [53%N] ++ [8233%N; 10%N])%list /\
  Forall (fun c => py_isspace c = true) ([12288%N; 32%N] ++ [8233%N; 10%N])%list /\
  (element_signature (Node "amount" [("b", "2"); ("a", "1")] (Some (utf8_encode ([12288%N; 32%N] ++ [53%N] ++ [8233%N; 10%N])%list)) []) =
     element_signature (Node "amount" [("a", "1"); ("b", "2")] (Some (utf8_encode [53%N])) []) /\
   (Forall (fun c => py_isspace c = true) [53%N] ->
    element_signature (Node "amount" [("b", "2"); ("a", "1")] (Some (utf8_encode [53%N])) []) =
      element_signature (Node "amount" [("a", "1"); ("b", "2")] None []))).
Proof.
  assert (H1 : [("b", "2"); ("a", "1")] ≡ₚ [("a", "1"); ("b", "2")]) by apply Permutation_swap.
  assert (H2 : Forall (fun c => scalar_value c = true) ([12288%N; 32%N] ++ [53%N] ++ [8233%N; 10%N])%list)
    by (repeat constructor).
  assert (H3 : Forall (fun c => py_isspace c = true) ([12288%N; 32%N] ++ [8233%N; 10%N])%list)
    by (repeat constructor).
  split; [exact H1|]. split; [exact H2|]. split; [exact H3|].
  exact (signature_attr_order_text "amount" _ _ _ _ _ [] H1 H2 H3).
Defined.

(* ------------------------------------------------------------------ *)
(** ** The source trees are never written *)

Lemma keeps_sources_done fs d : keeps_sources fs (Done fs d).
Proof. done. Qed.

Lemma keeps_sources_trans fs fs1 o :
  (forall q, q.1 <> OutDir -> fs1 q = fs q) -> keeps_sources fs1 o -> keeps_sources fs o.
Proof.
  intros H1 Ho. destruct o as [f d|]; [|done]. simpl in *. intros q Hq. rewrite Ho by done. by apply H1.
Qed.

Lemma keeps_sources_write fs p e : p.1 = OutDir -> keeps_sources fs (Done (fs_write fs p e) []).
Proof. intros Hp q Hq. apply fs_write_other. intros ->. done. Qed.

Lemma then_keeps fs o k :
  keeps_sources fs o ->
  (forall fs1, (forall q, q.1 <> OutDir -> fs1 q = fs q) -> keeps_sources fs1 (k fs1)) ->
  keeps_sources fs (then_ o k).
Proof.
  intros Ho Hk. destruct o as [f d|]; [|done]. simpl in Ho. cbn [then_].
  specialize (Hk f Ho). destruct (k f) as [f' d'|]; [|done].
  by apply (keeps_sources_trans _ f).
Qed.

Lemma mkdirs_keeps ds : forall fs, keeps_sources fs (mkdirs OutDir ds fs).
Proof.
  induction ds as [|d ds IH]; intros fs; [done|]. cbn [mkdirs].
  destruct (fs (OutDir, d)) as [[c|]|]; [done|apply IH|].
  apply (keeps_sources_trans _ (fs_write fs (OutDir, d) Dir)); [|apply IH].
  intros q Hq. apply fs_write_other. intros ->. done.
Qed.

Lemma mkdir_parent_keeps p fs : p.1 = OutDir -> keeps_sources fs (mkdir_parent p fs).
Proof. destruct p as [t x]. simpl. intros ->. apply mkdirs_keeps. Qed.

Lemma open_write_keeps p c fs : p.1 = OutDir -> keeps_sources fs (open_write p c fs).
Proof.
  intros Hp. unfold open_write.
  destruct (fs p) as [[]|]; [by apply keeps_sources_write|done|].
  destruct (parent_error p fs); [done|by apply keeps_sources_write].
Qed.

Lemma shutil_copy_keeps src dst fs : dst.1 = OutDir -> keeps_sources fs (shutil_copy src dst fs).
Proof.
  intros Hd. unfold shutil_copy.
  destruct (_ && _ && _); [done|]. destruct (open_read src fs); [done|].
  apply open_write_keeps. by destruct (is_dir fs dst).
Qed.

Lemma lxml_write_keeps p c fs : p.1 = OutDir -> keeps_sources fs (lxml_write p c fs).
Proof.
  intros Hp. pose proof (open_write_keeps p c fs Hp) as H. unfold lxml_write.
  by destruct (open_write p c fs).
Qed.

Lemma merge_catalog_xml_keeps parse dsyn write a b out fs :
  out.1 = OutDir -> keeps_sources fs (merge_catalog_xml parse dsyn write a b out fs).
Proof.
  intros Ho. unfold merge_catalog_xml.
  destruct (safe_parse parse dsyn fs a) as [|[ra d1]]; [done|].
  destruct (safe_parse parse dsyn fs b) as [|[rb d2]]; [done|].
  destruct ra as [ra|], rb as [rb|]; try done.
  - destruct (merge_catalog_nodes ra rb); [|done].
    apply then_keeps; [done|]. intros fs1 _.
    apply then_keeps; [by apply mkdir_parent_keeps|]. intros fs2 _. by apply lxml_write_keeps.
  - apply then_keeps; [done|]. intros fs1 _.
    apply then_keeps; [by apply mkdir_parent_keeps|]. intros fs2 _. by apply shutil_copy_keeps.
  - apply then_keeps; [done|]. intros fs1 _.
    apply then_keeps; [by apply mkdir_parent_keeps|]. intros fs2 _. by apply shutil_copy_keeps.
Qed.

Lemma merge_ini_files_keeps base patch extra out fs :
  out.1 = OutDir -> keeps_sources fs (merge_ini_files base patch extra out fs).
Proof.
  intros Ho. unfold merge_ini_files.
  destruct (_ && _); [by apply shutil_copy_keeps|].
  destruct (read_ini fs base), (read_ini fs patch), (read_ini fs extra); try done.
  destruct (ini_merge_tables _ _ _) as [merged d].
  apply then_keeps; [done|]. intros fs1 _.
  apply then_keeps; [by apply mkdir_parent_keeps|]. intros fs2 _. by apply open_write_keeps.
Qed.

(** X1 (extra): [merge_file_triple] never changes the map, patch and
    extra folders: when it completes, every path outside the output
    tree holds what it held before. *)
Theorem merge_file_triple_frame parse dsyn write rel fs f d :
  merge_file_triple parse dsyn write rel fs = Done f d ->
  forall q, q.1 <> OutDir -> f q = fs q.
Proof.
  intros Hm.
  assert (H : keeps_sources fs (merge_file_triple parse dsyn write rel fs)).
  { unfold merge_file_triple. destruct (negb _); [done|].
    apply then_keeps; [by apply mkdir_parent_keeps|]. intros fs0 _.
    destruct (String.eqb _ _); [|destruct (_ || _)].
    - apply then_keeps; [destruct (exists_ fs0 _); [by apply shutil_copy_keeps|done]|]. intros fs1 _.
      apply then_keeps; [destruct (exists_ fs1 _); [by apply merge_catalog_xml_keeps|done]|]. intros fs2 _.
      destruct (exists_ fs2 _); [by apply merge_catalog_xml_keeps|done].
    - by apply merge_ini_files_keeps.
    - by apply shutil_copy_keeps. }
  by rewrite Hm in H.
Qed.

Lemma merge_file_triple_frame_witness :
  let fs := single_file_fs (MapDir, "Maps/a.txt") ("k=1" ++ lf)%string in
  let o := merge_file_triple (fun _ => None) false (fun _ => "") "Maps/a.txt" fs in
  let f := match o with Done f _ => f | Raised _ _ => fs end in
  let d := match o with Done _ d => d | Raised _ d => d end in
  o = Done f d /\ (forall q, q.1 <> OutDir -> f q = fs q).
Proof.
  intros fs o f d. split; [reflexivity|].
  apply (merge_file_triple_frame (fun _ => None) false (fun _ => "") "Maps/a.txt" fs f d). reflexivity.
Defined.

(* ------------------------------------------------------------------ *)
(** ** The copy route and a Base-only catalog *)

(** X4 (extra): when no directory stands at the path in a tree and no
    file stands where a parent folder of the output must be made, a file
    whose suffix is neither [.xml], [.txt] nor [.ini] is copied byte for
    byte from Overlay if it is there, else from Patch, else from Base,
    with no output line; when none of them has it nothing happens. *)
Theorem merge_file_triple_copy_route parse dsyn write rel fs :
  py_suffix rel <> ".xml" -> py_suffix rel <> ".txt" -> py_suffix rel <> ".ini" ->
  no_dir_at fs rel -> out_parents_free fs rel ->
  (forall c, copy_source fs rel = Some c ->
     exists fs', merge_file_triple parse dsyn write rel fs = Done fs' [] /\
                 fs' (OutDir, rel) = Some (File c)) /\
  (copy_source fs rel = None -> merge_file_triple parse dsyn write rel fs = Done fs []).
Proof.
  intros Hx Ht Hi Hnd Hfree.
  pose proof (Hnd ExtraDir) as Nd1. pose proof (Hnd PatchDir) as Nd2. pose proof (Hnd MapDir) as Nd3.
  unfold copy_source.
  destruct (fs (ExtraDir, rel)) as [[ce|]|] eqn:He; [|done|];
    [|destruct (fs (PatchDir, rel)) as [[cp|]|] eqn:Hp; [|done|];
      [|destruct (fs (MapDir, rel)) as [[cb|]|] eqn:Hb; [|done|]]].
  all: split; [intros c [= <-]|intros Hn]; try discriminate.
  all: try (rewrite merge_file_triple_unfold; unfold exists_; rewrite He, Hp, Hb; reflexivity).
  all: assert (Hany : (exists_ fs (MapDir, rel) || exists_ fs (PatchDir, rel) || exists_ fs (ExtraDir, rel)) = true)
         by (unfold exists_; rewrite ?He, ?Hp, ?Hb; rewrite ?orb_true_r; reflexivity).
  all: enter_triple Hany Hfree.
  all: rewrite (proj2 (String.eqb_neq _ _) Hx), (proj2 (String.eqb_neq _ _) Ht),
          (proj2 (String.eqb_neq _ _) Hi); cbn iota; exists_at_rel Hrel.
  all: unfold exists_ at 1; rewrite ?He; try (unfold exists_ at 1; rewrite ?Hp); cbn iota.
  - rewrite (shutil_copy_ok _ _ ce); [|done|by rewrite Hrel|exact Hdirs|rewrite Hrel; apply Hnd].
    eexists. split; [reflexivity|apply fs_write_same].
  - rewrite (shutil_copy_ok _ _ cp); [|done|by rewrite Hrel|exact Hdirs|rewrite Hrel; apply Hnd].
    eexists. split; [reflexivity|apply fs_write_same].
  - rewrite (shutil_copy_ok _ _ cb); [|done|by rewrite Hrel|exact Hdirs|rewrite Hrel; apply Hnd].
    eexists. split; [reflexivity|apply fs_write_same].
Qed.

Lemma merge_file_triple_copy_route_witness :
  let fs := fun p : path =>
    if decide (p = (MapDir, "Maps/t.dds")) then Some (File "base")
    else if decide (p = (PatchDir, "Maps/t.dds")) then Some (File "patch") else None in
  (py_suffix "Maps/t.dds" <> ".xml" /\ py_suffix "Maps/t.dds" <> ".txt" /\ py_suffix "Maps/t.dds" <> ".ini" /\
   no_dir_at fs "Maps/t.dds" /\ out_parents_free fs "Maps/t.dds") /\
  ((forall c, copy_source fs "Maps/t.dds" = Some c ->
     exists fs', merge_file_triple (fun _ => None) false (fun _ => "") "Maps/t.dds" fs = Done fs' [] /\
                 fs' (OutDir, "Maps/t.dds") = Some (File c)) /\
   (copy_source fs "Maps/t.dds" = None ->
     merge_file_triple (fun _ => None) false (fun _ => "") "Maps/t.dds" fs = Done fs [])).
Proof.
  intros fs.
  assert (H1 : py_suffix "Maps/t.dds" <> ".xml") by (apply (bool_decide_unpack _); vm_compute; exact I).
  assert (H2 : py_suffix "Maps/t.dds" <> ".txt") by (apply (bool_decide_unpack _); vm_compute; exact I).
  assert (H3 : py_suffix "Maps/t.dds" <> ".ini") by (apply (bool_decide_unpack _); vm_compute; exact I).
  assert (H4 : no_dir_at fs "Maps/t.dds") by (intros t; unfold fs; repeat case_decide; done).
  assert (H5 : out_parents_free fs "Maps/t.dds")
    by (intros d c _; unfold fs; repeat case_decide; simplify_eq; done).
  split; [split_and!; assumption|].
  exact (merge_file_triple_copy_route (fun _ => None) false (fun _ => "") "Maps/t.dds" fs H1 H2 H3 H4 H5).
Defined.

(** X5 (extra): a catalog file ([.xml]) found only in Base is copied to
    the output unchanged, whatever its content, with no output line,
    when nothing stands in the way of writing the output. *)
Theorem merge_file_triple_xml_base_only parse dsyn write rel fs c :
  py_suffix rel = ".xml" -> fs (MapDir, rel) = Some (File c) ->
  fs (PatchDir, rel) = None -> fs (ExtraDir, rel) = None ->
  fs (OutDir, rel) <> Some Dir -> out_parents_free fs rel ->
  exists fs', merge_file_triple parse dsyn write rel fs = Done fs' [] /\
              fs' (OutDir, rel) = Some (File c).
Proof.
  intros Hx Hb Hp He Ho Hfree.
  assert (Hany : (exists_ fs (MapDir, rel) || exists_ fs (PatchDir, rel) || exists_ fs (ExtraDir, rel)) = true)
    by (rewrite (exists_File _ _ _ Hb); reflexivity).
  enter_triple Hany Hfree.
  assert (String.eqb (py_suffix rel) ".xml" = true) as -> by (rewrite Hx; reflexivity).
  cbn iota beta. exists_at_rel Hrel. rewrite (exists_File _ _ _ Hb).
  rewrite (shutil_copy_ok _ _ c); [|done|by rewrite Hrel|exact Hdirs|by rewrite Hrel].
  rewrite then_Done_nil. cbn beta. unfold exists_ at 1. rewrite fs_write_other, Hrel, Hp by congruence.
  rewrite then_Done_nil. cbn beta. unfold exists_ at 1. rewrite fs_write_other, Hrel, He by congruence.
  eexists. split; [reflexivity|apply fs_write_same].
Qed.

Lemma merge_file_triple_xml_base_only_witness :
  let fs := single_file_fs (MapDir, "a.xml") "<C" in
  (py_suffix "a.xml" = ".xml" /\ fs (MapDir, "a.xml") = Some (File "<C") /\
   fs (PatchDir, "a.xml") = None /\ fs (ExtraDir, "a.xml") = None /\
   fs (OutDir, "a.xml") <> Some Dir /\ out_parents_free fs "a.xml") /\
  exists fs', merge_file_triple (fun _ => None) false (fun _ => "") "a.xml" fs = Done fs' [] /\
              fs' (OutDir, "a.xml") = Some (File "<C").
Proof.
  intros fs.
  assert (H1 : py_suffix "a.xml" = ".xml") by reflexivity.
  assert (H2 : fs (MapDir, "a.xml") = Some (File "<C")) by reflexivity.
  assert (H3 : fs (PatchDir, "a.xml") = None) by reflexivity.
  assert (H4 : fs (ExtraDir, "a.xml") = None) by reflexivity.
  assert (H5 : fs (OutDir, "a.xml") <> Some Dir) by (vm_compute; discriminate).
  assert (H6 : out_parents_free fs "a.xml") by (apply single_file_fs_parents; done).
  split; [split_and!; assumption|].
  exact (merge_file_triple_xml_base_only (fun _ => None) false (fun _ => "") "a.xml" fs "<C" H1 H2 H3 H4 H5 H6).
Defined.

(* ------------------------------------------------------------------ *)
(** ** Reading back the INI text [merge_ini_files] writes *)

Lemma lstrip_l_keep l : no_space_edge l = true -> lstrip_l l = l.
Proof. destruct l as [|c l]; simpl; [done|]. intros H. apply negb_true_iff in H. by rewrite H. Qed.

Lemma lstrip_l_space c l : py_isspace c = true -> lstrip_l (c :: l) = lstrip_l l.
Proof. simpl. by intros ->. Qed.

Lemma py_strip_keep l : no_space_edge l = true -> no_space_edge (rev l) = true -> py_strip l = l.
Proof.
  intros H1 H2. unfold py_strip. rewrite (lstrip_l_keep _ H1), (lstrip_l_keep _ H2). apply rev_involutive.
Qed.

Lemma no_space_edge_app l z : l <> [] -> no_space_edge (l ++ z) = no_space_edge l.
Proof. by destruct l. Qed.

Lemma clean_value_parts v :
  ini_clean_value v = true ->
  Forall (fun c => is_line_break c = false /\ scalar_value c = true) v /\
  no_space_edge v = true /\ no_space_edge (rev v) = true.
Proof.
  unfold ini_clean_value. rewrite !andb_true_iff, forallb_forall, Forall_forall.
  intros [[H0 H1] H2]. split_and!; [|done|done].
  intros c Hc. apply list_elem_of_In in Hc. specialize (H0 c Hc).
  apply andb_true_iff in H0 as [Hb Hs]. apply negb_true_iff in Hb. done.
Qed.

Lemma py_strip_clean v : ini_clean_value v = true -> py_strip v = v.
Proof. intros Hv. destruct (clean_value_parts v Hv) as (_ & H1 & H2). by apply py_strip_keep. Qed.

Lemma clean_key_parts k :
  ini_clean_key k = true ->
  ini_clean_value k = true /\ Forall (fun c => (c =? ch "=")%N = false) k /\
  exists c r, k = c :: r /\ py_isspace c = false /\
    c <> ch "#" /\ c <> ch ";" /\ c <> ch "[" /\ c <> 65279%N.
Proof.
  unfold ini_clean_key. rewrite !andb_true_iff, forallb_forall, Forall_forall.
  intros [[Hv He] Hh]. split_and!; [done| |].
  - intros c Hc. apply list_elem_of_In in Hc. apply negb_true_iff, (He c Hc).
  - destruct k as [|c r]; [done|]. exists c, r. split; [done|].
    apply clean_value_parts in Hv as (_ & Hs & _). simpl in Hs. apply negb_true_iff in Hs.
    apply negb_true_iff in Hh. cbn [existsb] in Hh. rewrite !orb_false_iff in Hh.
    destruct Hh as (H1 & H2 & H3 & H4 & _).
    apply N.eqb_neq in H1, H2, H3, H4. done.
Qed.

(** [strip] of the line written for [(k, v)]: the line itself, or
    [k + " ="] when [v] is empty. *)
Lemma py_strip_kv_line k v :
  ini_clean_key k = true -> ini_clean_value v = true ->
  exists rest, py_strip (ini_kv_line (k, v)) = (k ++ 32%N :: 61%N :: rest)%list /\ py_strip rest = v.
Proof.
  intros Hk Hv. destruct (clean_key_parts k Hk) as (Hkv & _ & c & r & Ek & Hc & _).
  destruct (clean_value_parts k Hkv) as (_ & _ & Hkr).
  destruct (clean_value_parts v Hv) as (_ & Hvl & Hvr).
  assert (Hk0 : forall z, no_space_edge (k ++ z)%list = true) by (intros z; rewrite Ek; simpl; by rewrite Hc).
  unfold ini_kv_line. change (u " = ") with [32%N; 61%N; 32%N]. cbn [app].
  destruct v as [|x v'].
  - exists []. split; [|reflexivity]. unfold py_strip.
    rewrite (lstrip_l_keep (k ++ _)%list (Hk0 _)).
    rewrite rev_app_distr. cbn [rev app].
    rewrite lstrip_l_space by reflexivity. rewrite lstrip_l_keep by reflexivity.
    change (61%N :: 32%N :: rev k) with ([61%N; 32%N] ++ rev k)%list.
    rewrite rev_app_distr, rev_involutive. reflexivity.
  - exists (32%N :: x :: v'). split.
    + apply py_strip_keep; [apply Hk0|].
      change (32%N :: 61%N :: 32%N :: x :: v') with ([32%N; 61%N; 32%N] ++ x :: v')%list.
      rewrite !rev_app_distr, <-app_assoc, no_space_edge_app; [done|].
      intros E. apply (f_equal length) in E. rewrite length_rev in E. simpl in E. lia.
    + unfold py_strip. rewrite lstrip_l_space by reflexivity. rewrite (lstrip_l_keep _ Hvl).
      rewrite (lstrip_l_keep _ Hvr). apply rev_involutive.
Qed.

Lemma split_eq_key k rest : Forall (fun c => (c =? ch "=")%N = false) k ->
  split_eq (k ++ 32%N :: 61%N :: rest)%list = Some ((k ++ [32%N])%list, rest).
Proof.
  induction k as [|c k IH]; intros Hk; [reflexivity|].
  inversion Hk as [|? ? Hc Hk']; subst. cbn [app split_eq]. rewrite Hc, IH by done. reflexivity.
Qed.

Lemma py_strip_key_space k : ini_clean_key k = true -> py_strip (k ++ [32%N])%list = k.
Proof.
  intros Hk. destruct (clean_key_parts k Hk) as (Hkv & _ & c & r & Ek & Hc & _).
  destruct (clean_value_parts k Hkv) as (_ & _ & Hkr).
  unfold py_strip. rewrite (lstrip_l_keep (k ++ _)%list) by (rewrite Ek; simpl; by rewrite Hc).
  rewrite rev_app_distr. cbn [rev app]. rewrite lstrip_l_space by reflexivity.
  by rewrite (lstrip_l_keep _ Hkr), rev_involutive.
Qed.

Lemma read_ini_kv_line cur data k v :
  ini_clean_key k = true -> ini_clean_value v = true ->
  read_ini_line (cur, data) (ini_kv_line (k, v)) =
    (cur, dict_set cur (dict_set k v (default [] (dict_get cur (dict_setdefault cur [] data))))
            (dict_setdefault cur [] data)).
Proof.
  intros Hk Hv. destruct (py_strip_kv_line k v Hk Hv) as (rest & Hl & Hr).
  destruct (clean_key_parts k Hk) as (_ & Heq & c & r & Ek & _ & H1 & H2 & H3 & _).
  rewrite read_ini_line_cases. cbv zeta. rewrite Hl, split_eq_key by done.
  rewrite py_strip_key_space, Hr by done.
  subst k. cbn [app starts_with].
  rewrite bool_decide_eq_false_2 by discriminate.
  rewrite (proj2 (N.eqb_neq _ _) H1), (proj2 (N.eqb_neq _ _) H2), (proj2 (N.eqb_neq _ _) H3).
  reflexivity.
Qed.

Lemma read_ini_header cur data s :
  ini_clean_value s = true ->
  read_ini_line (cur, data) (u "[" ++ s ++ u "]")%list = (s, dict_setdefault s [] data).
Proof.
  intros Hs. destruct (clean_value_parts s Hs) as (_ & Hsl & Hsr).
  change (u "[") with [91%N]. change (u "]") with [93%N].
  assert (Hr : rev ([91%N] ++ s ++ [93%N])%list = 93%N :: rev (91%N :: s)).
  { rewrite app_assoc, rev_unit. reflexivity. }
  assert (Hstrip : py_strip ([91%N] ++ s ++ [93%N])%list = ([91%N] ++ s ++ [93%N])%list).
  { apply py_strip_keep; [reflexivity|]. by rewrite Hr. }
  rewrite read_ini_line_cases. cbv zeta. rewrite Hstrip.
  assert (Hends : ends_with (ch "]") ([91%N] ++ s ++ [93%N])%list = true).
  { unfold ends_with. by rewrite Hr. }
  assert (Hbr : strip_brackets ([91%N] ++ s ++ [93%N])%list = s).
  { unfold strip_brackets. cbn [app drop length]. rewrite length_app. simpl length.
    replace (S (length s + 1) - 2) with (length s) by lia. apply take_app_length. }
  rewrite Hends, Hbr, py_strip_clean by done.
  reflexivity.
Qed.

Lemma read_ini_blank st : read_ini_line st [] = st.
Proof. by destruct st. Qed.

Lemma splitlines_go_line l rest cur :
  Forall (fun c => is_line_break c = false) l ->
  splitlines_go (l ++ 10%N :: rest)%list cur = (rev cur ++ l)%list :: splitlines_go rest [].
Proof.
  revert cur. induction l as [|c l IH]; intros cur Hl.
  - rewrite app_nil_r. reflexivity.
  - inversion Hl as [|? ? Hc Hl']; subst. cbn [app splitlines_go]. rewrite Hc. cbn iota.
    rewrite IH by done. cbn [rev]. by rewrite <-app_assoc.
Qed.

Lemma join_lines_cons l ls : join_lines (l :: ls) = (l ++ 10%N :: join_lines ls)%list.
Proof. unfold join_lines. cbn [map concat]. by rewrite <-app_assoc. Qed.

Lemma splitlines_join ls :
  Forall (fun l => Forall (fun c => is_line_break c = false) l) ls ->
  splitlines (join_lines ls) = ls.
Proof.
  unfold splitlines. induction ls as [|l ls IH]; intros Hls; [done|].
  inversion Hls as [|? ? Hl Hls']; subst. rewrite join_lines_cons, splitlines_go_line by done.
  f_equal. by apply IH.
Qed.

Lemma join_lines_app a b : join_lines (a ++ b) = (join_lines a ++ join_lines b)%list.
Proof. unfold join_lines. by rewrite map_app, concat_app. Qed.

Lemma join_lines_concat ll : join_lines (concat ll) = concat (map join_lines ll).
Proof. induction ll as [|l ll IH]; [done|]. simpl. by rewrite join_lines_app, IH. Qed.

Lemma kv_lines_join items : kv_lines items = join_lines (map ini_kv_line items).
Proof.
  unfold kv_lines, join_lines. rewrite map_map. f_equal.
  apply map_ext. intros [k v]. simpl ini_kv_line. by rewrite <-!app_assoc.
Qed.

Lemma serialize_join t : serialize_ini t = join_lines (ini_ser_lines t).
Proof.
  rewrite serialize_ini_alt. unfold ini_ser_lines. rewrite join_lines_app. f_equal.
  - destruct (default [] (dict_get ini_root t)) as [|kv r]; [done|].
    rewrite kv_lines_join, join_lines_app. reflexivity.
  - rewrite join_lines_concat, map_map. unfold ser_sections. f_equal. apply map_ext. intros s.
    rewrite join_lines_cons, join_lines_app, kv_lines_join.
    unfold join_lines at 2. cbn [map concat]. rewrite <-!app_assoc. reflexivity.
Qed.

Lemma utf8_decode_concat s :
  Forall (fun c => scalar_value c = true) s -> utf8_decode (concat (map utf8_encode_cp s)) = s.
Proof.
  induction 1 as [|c s Hc _ IH]; [done|]. cbn [map concat]. by rewrite utf8_decode_encode_cp, IH.
Qed.

Lemma decode_utf8_sig_encode s :
  Forall (fun c => scalar_value c = true) s -> head s <> Some 65279%N ->
  decode_utf8_sig (utf8_encode s) = s.
Proof.
  intros Hs Hh. unfold decode_utf8_sig, utf8_encode. cbv zeta.
  rewrite bytes_of_string_of_bytes.
  2:{ apply Forall_concat, Forall_map. eapply Forall_impl; [exact Hs|]. apply utf8_encode_cp_bytes. }
  case_bool_decide as Hb; [exfalso|by apply utf8_decode_concat].
  destruct s as [|c r]; [discriminate Hb|]. apply Hh. simpl. f_equal.
  pose proof (take_drop 3 (concat (map utf8_encode_cp (c :: r)))) as Htd. rewrite Hb in Htd.
  inversion Hs as [|? ? Hc _]; subst.
  assert (E1 : utf8_decode (concat (map utf8_encode_cp (c :: r))) =
               c :: utf8_decode (concat (map utf8_encode_cp r)))
    by (cbn [map concat]; by apply utf8_decode_encode_cp).
  rewrite <-Htd in E1. cbn [app] in E1.
  rewrite utf8_decode_3 in E1 by (lia || reflexivity). injection E1 as E1 _.
  rewrite <-E1. reflexivity.
Qed.

Lemma kv_line_ok k v :
  ini_clean_key k = true -> ini_clean_value v = true -> line_ok (ini_kv_line (k, v)).
Proof.
  intros Hk Hv. destruct (clean_key_parts k Hk) as (Hkv & _ & c & r & Ek & _ & _ & _ & _ & H4).
  destruct (clean_value_parts k Hkv) as (Hkb & _ & _).
  destruct (clean_value_parts v Hv) as (Hvb & _ & _).
  unfold line_ok, ini_kv_line. split.
  - apply Forall_app; split; [done|]. apply Forall_app; split; [|done]. repeat constructor.
  - rewrite Ek. simpl. congruence.
Qed.

Lemma header_line_ok s : ini_clean_value s = true -> line_ok (u "[" ++ s ++ u "]")%list.
Proof.
  intros Hs. destruct (clean_value_parts s Hs) as (Hsb & _ & _).
  unfold line_ok. split.
  - apply Forall_app; split; [repeat constructor|]. apply Forall_app; split; [done|]. repeat constructor.
  - discriminate.
Qed.

Lemma blank_line_ok : line_ok [].
Proof. split; [constructor|discriminate]. Qed.

Lemma join_lines_ok ls :
  Forall line_ok ls ->
  Forall (fun c => scalar_value c = true) (join_lines ls) /\ head (join_lines ls) <> Some 65279%N.
Proof.
  intros Hls. split.
  - apply Forall_concat, Forall_map. eapply Forall_impl; [exact Hls|]. intros l [Hl _].
    apply Forall_app; split; [|repeat constructor]. eapply Forall_impl; [exact Hl|]. by intros c [_ ?].
  - destruct Hls as [|l ls [_ Hl] _]; [discriminate|]. rewrite join_lines_cons.
    destruct l as [|c r]; [discriminate|]. exact Hl.
Qed.

Lemma dict_set_set {K V} `{EqDecision K} (k : K) (v w : V) d :
  dict_set k v (dict_set k w d) = dict_set k v d.
Proof.
  induction d as [|[k0 v0] d IH]; simpl.
  - by rewrite decide_True.
  - case_decide; simpl; [by rewrite decide_True|]. rewrite decide_False by done. by rewrite IH.
Qed.

Lemma dict_set_snoc_absent {K V} `{EqDecision K} (k : K) (v w : V) d :
  k ∉ d.*1 -> dict_set k v (d ++ [(k, w)])%list = (d ++ [(k, v)])%list.
Proof.
  induction d as [|[k0 v0] d IH]; intros Hk; simpl.
  - by rewrite decide_True.
  - rewrite fmap_cons, elem_of_cons in Hk. rewrite decide_False by naive_solver.
    f_equal. apply IH. naive_solver.
Qed.

Lemma read_kv_fold items : forall cur (data : table) sec,
  dict_get cur data = Some sec -> Forall kv_clean items ->
  fold_left read_ini_line (map ini_kv_line items) (cur, data) =
    (cur, dict_set cur (fold_left (fun acc kv => dict_set kv.1 kv.2 acc) items sec) data).
Proof.
  induction items as [|[k v] items IH]; intros cur data sec Hg Hc.
  - simpl. by rewrite dict_set_same.
  - inversion Hc as [|? ? [Hk Hv] Hc']; subst. simpl in Hk, Hv.
    cbn [map fold_left]. rewrite read_ini_kv_line by done.
    assert (Hsd : dict_setdefault cur [] data = data) by (unfold dict_setdefault; by rewrite Hg).
    rewrite Hsd, Hg. cbn [default].
    rewrite (IH cur _ (dict_set k v sec)); [|by rewrite dict_get_set, decide_True|done].
    by rewrite dict_set_set.
Qed.

Lemma fold_dict_set_fresh (items : section) : forall acc : section,
  NoDup (acc ++ items)%list.*1 ->
  fold_left (fun acc kv => dict_set kv.1 kv.2 acc) items acc = (acc ++ items)%list.
Proof.
  induction items as [|[k v] items IH]; intros acc Hnd; simpl; [by rewrite app_nil_r|].
  rewrite fmap_app, fmap_cons in Hnd.
  apply NoDup_app in Hnd as (Hacc & Hdis & Hrest).
  rewrite dict_set_absent.
  - rewrite IH; [by rewrite <-app_assoc|]. rewrite !fmap_app, <-app_assoc. simpl.
    apply NoDup_app; split_and!; [done| |done]. intros x Hx Hx'. by apply (Hdis x).
  - intros Hk. apply (Hdis k Hk). simpl. apply elem_of_cons. by left.
Qed.

Lemma read_sections (G : ustr -> section) SS : forall cur (D : table),
  NoDup SS -> (forall s, s ∈ SS -> s ∉ D.*1) ->
  (forall s, s ∈ SS -> ini_clean_value s = true /\ Forall kv_clean (G s) /\ NoDup (G s).*1) ->
  (fold_left read_ini_line
     (concat (map (fun s => (u "[" ++ s ++ u "]")%list :: (map ini_kv_line (G s) ++ [[]])%list) SS))
     (cur, D)).2 = (D ++ map (fun s => (s, G s)) SS)%list.
Proof.
  induction SS as [|s SS IH]; intros cur D Hnd Hfresh Hok; [simpl; by rewrite app_nil_r|].
  cbn [map concat].
  inversion Hnd as [|? ? Hs Hnd']; subst.
  assert (Hs_in : s ∈ s :: SS) by (apply elem_of_cons; by left).
  destruct (Hok s Hs_in) as (Hsc & Hkv & Hknd).
  rewrite fold_left_app. cbn [fold_left]. rewrite read_ini_header by done.
  assert (HD : dict_get s D = None) by (apply dict_get_None_iff, Hfresh, Hs_in).
  assert (Hsd : dict_setdefault s [] D = (D ++ [(s, [])])%list) by (unfold dict_setdefault; by rewrite HD).
  rewrite Hsd, fold_left_app.
  rewrite (read_kv_fold _ s _ []); [|by rewrite dict_get_snoc, HD, decide_True|done].
  rewrite fold_dict_set_fresh by done.
  rewrite dict_set_snoc_absent by (by apply Hfresh). cbn [fold_left]. rewrite read_ini_blank.
  rewrite IH; [by rewrite <-app_assoc|done| |].
  - intros s' Hs'. rewrite fmap_app. simpl. rewrite elem_of_app, list_elem_of_singleton.
    intros [Hin | ->]; [|done]. apply (Hfresh s'); [apply elem_of_cons; by right|done].
  - intros s' Hs'. apply Hok. apply elem_of_cons. by right.
Qed.

Lemma map_fst_fmap (t : table) : map fst t = t.*1.
Proof. induction t as [|[s kv] t IH]; simpl; [done|by rewrite IH]. Qed.

Lemma ser_sections_elem t s : s ∈ ser_sections t <-> s ∈ t.*1 /\ s <> ini_root.
Proof.
  unfold ser_sections, sorted_ustrs. rewrite py_sorted_perm, list_elem_of_In, filter_In.
  rewrite <-list_elem_of_In, map_fst_fmap, negb_true_iff, bool_decide_eq_false. done.
Qed.

Lemma ser_sections_NoDup t : wf_table t -> NoDup (ser_sections t).
Proof.
  intros [Hnd _]. unfold ser_sections, sorted_ustrs. rewrite py_sorted_perm.
  apply NoDup_ListNoDup, List.NoDup_filter, NoDup_ListNoDup. by rewrite map_fst_fmap.
Qed.

Lemma clean_table_section t s sec :
  ini_clean_table t = true -> dict_get s t = Some sec ->
  ini_clean_value s = true /\ Forall kv_clean sec.
Proof.
  intros Ht Hg. apply dict_get_Some_elem in Hg. unfold ini_clean_table in Ht.
  rewrite forallb_forall in Ht. apply list_elem_of_In in Hg. specialize (Ht _ Hg).
  apply andb_true_iff in Ht as [Hs Hkv]. split; [done|].
  rewrite forallb_forall in Hkv. apply Forall_forall. intros [k v] Hin.
  apply list_elem_of_In, Hkv, andb_true_iff in Hin. done.
Qed.

Lemma clean_table_default t s :
  ini_clean_table t = true -> Forall kv_clean (sorted_uitems (default [] (dict_get s t))).
Proof.
  intros Ht. unfold sorted_uitems. rewrite py_sorted_perm.
  destruct (dict_get s t) as [sec|] eqn:E; simpl; [|constructor].
  by destruct (clean_table_section t s sec Ht E).
Qed.

Lemma sorted_section_NoDup t s : wf_table t -> NoDup (sorted_uitems (default [] (dict_get s t))).*1.
Proof. intros Hwf. unfold sorted_uitems. rewrite py_sorted_perm. by apply section_of_wf. Qed.

Lemma ser_lines_ok t : wf_table t -> ini_clean_table t = true -> Forall line_ok (ini_ser_lines t).
Proof.
  intros Hwf Ht.
  assert (Hkv : forall s, Forall line_ok (map ini_kv_line (sorted_uitems (default [] (dict_get s t))))).
  { intros s. apply Forall_fmap. eapply Forall_impl; [apply (clean_table_default t s Ht)|].
    intros [k v] [Hk Hv]. by apply kv_line_ok. }
  unfold ini_ser_lines. apply Forall_app; split.
  - destruct (default [] (dict_get ini_root t)) as [|kv r] eqn:E; [constructor|].
    apply Forall_app; split; [|repeat constructor; apply blank_line_ok].
    rewrite <-E. apply Hkv.
  - apply Forall_concat, Forall_fmap, Forall_forall. intros s Hs.
    apply ser_sections_elem in Hs as [Hs Hne].
    apply list_elem_of_fmap in Hs as [[s' sec] [-> Hin]].
    assert (Hg : dict_get s' t = Some sec) by (apply elem_dict_get; [apply Hwf|done]).
    destruct (clean_table_section t s' sec Ht Hg) as [Hsc _].
    constructor; [by apply header_line_ok|]. apply Forall_app; split; [apply Hkv|].
    repeat constructor. apply blank_line_ok.
Qed.

Lemma read_serialize_shape t :
  wf_table t -> ini_clean_table t = true ->
  read_ini_text (utf8_encode (serialize_ini t)) =
    (ini_root, sorted_uitems (default [] (dict_get ini_root t))) ::
    map (fun s => (s, sorted_uitems (default [] (dict_get s t)))) (ser_sections t).
Proof.
  intros Hwf Ht. pose proof (ser_lines_ok t Hwf Ht) as Hok.
  destruct (join_lines_ok _ Hok) as [Hsc Hhd].
  unfold read_ini_text. rewrite serialize_join, decode_utf8_sig_encode by done.
  rewrite splitlines_join.
  2:{ eapply Forall_impl; [exact Hok|]. intros l [Hl _]. eapply Forall_impl; [exact Hl|]. by intros c [? _]. }
  unfold ini_ser_lines. rewrite fold_left_app.
  set (R := sorted_uitems (default [] (dict_get ini_root t))).
  assert (Hroot : fold_left read_ini_line
            (match default [] (dict_get ini_root t) with
             | [] => [] | r => (map ini_kv_line (sorted_uitems r) ++ [[]])%list end)
            (ini_root, [(ini_root, [])]) = (ini_root, [(ini_root, R)])).
  { subst R. destruct (default [] (dict_get ini_root t)) as [|kv r] eqn:E; [reflexivity|].
    rewrite <-E, fold_left_app.
    rewrite (read_kv_fold _ ini_root _ []); [|reflexivity|apply clean_table_default, Ht].
    rewrite (fold_dict_set_fresh _ []) by (apply sorted_section_NoDup, Hwf).
    cbn [fold_left app]. rewrite read_ini_blank. reflexivity. }
  rewrite Hroot.
  rewrite (read_sections (fun s => sorted_uitems (default [] (dict_get s t)))).
  - reflexivity.
  - by apply ser_sections_NoDup.
  - intros s Hs. apply ser_sections_elem in Hs as [_ Hne]. simpl.
    rewrite elem_of_cons. intros [->|Hin]; [done|by apply not_elem_of_nil in Hin].
  - intros s Hs. split_and!; [|apply clean_table_default, Ht|apply sorted_section_NoDup, Hwf].
    apply ser_sections_elem in Hs as [Hs _].
    apply list_elem_of_fmap in Hs as [[s' sec] [-> Hin]].
    assert (Hg : dict_get s' t = Some sec) by (apply elem_dict_get; [apply Hwf|done]).
    by destruct (clean_table_section t s' sec Ht Hg).
Qed.

Lemma dict_get_graph (G : ustr -> section) l s :
  dict_get s (map (fun x => (x, G x)) l) = if decide (s ∈ l) then Some (G s) else None.
Proof.
  induction l as [|x l IH]; cbn [map dict_get].
  - case_decide as H; [by apply not_elem_of_nil in H|done].
  - rewrite IH. destruct (decide (s = x)) as [->|Hsx].
    + rewrite decide_True; [done|]. apply elem_of_cons. by left.
    + destruct (decide (s ∈ l)) as [Hl|Hl].
      * rewrite decide_True; [done|]. apply elem_of_cons. by right.
      * rewrite decide_False; [done|]. rewrite elem_of_cons. naive_solver.
Qed.

(** X16 (extra): [serialize_ini] and [read_ini] are inverse on lookups:
    reading back the UTF-8 text written for a table with unique names,
    whose section names, keys and values are strings of Unicode scalar
    values that [strip] leaves alone and that hold no line boundary
    ([str.splitlines]), and whose keys are non-empty, hold no ["="] and
    do not start with ["#"], [";"], ["["] or [U+FEFF], gives the same
    value for every section and key. *)
Theorem ini_serialize_read_roundtrip t :
  wf_table t -> ini_clean_table t = true ->
  forall s k, get2 (read_ini_text (utf8_encode (serialize_ini t))) s k = get2 t s k.
Proof.
  intros Hwf Ht s k. rewrite read_serialize_shape by done.
  assert (Hsec : forall s', dict_get k (sorted_uitems (default [] (dict_get s' t))) = get2 t s' k).
  { intros s'. rewrite get2_default. symmetry. apply dict_get_perm; [by apply section_of_wf|].
    symmetry. apply py_sorted_perm. }
  unfold get2 at 1. cbn [dict_get]. destruct (decide (s = ini_root)) as [->|Hne]; [apply Hsec|].
  rewrite dict_get_graph. destruct (decide (s ∈ ser_sections t)) as [Hin|Hnin]; [apply Hsec|].
  unfold get2. destruct (dict_get s t) as [sec|] eqn:E; [|done].
  exfalso. apply Hnin, ser_sections_elem. split; [|done].
  apply dict_get_Some_elem in E. by apply (list_elem_of_fmap_2 fst _ (s, sec)).
Qed.

Lemma ini_serialize_read_roundtrip_witness :
  let t : table := [(ini_root, [(u "b", u "2"); (u "a", [120%N; 32%N; 61%N; 32%N; 955%N])]);
                    (u "Zeta", [(u "k", [])]); ([945%N; 12288%N; 946%N], [(u "name", u "Foo Bar")])] in
  wf_table t /\ ini_clean_table t = true /\
  (forall s k, get2 (read_ini_text (utf8_encode (serialize_ini t))) s k = get2 t s k).
Proof.
  intros t.
  assert (H1 : wf_table t) by (unfold wf_table; apply (bool_decide_unpack _); vm_compute; exact I).
  assert (H2 : ini_clean_table t = true) by (vm_compute; reflexivity).
  split; [exact H1|split; [exact H2|]].
  exact (ini_serialize_read_roundtrip t H1 H2).
Defined.
